(** * A shallow embedding of the COSC364 RIP daemon

    The development follows [ripmanager.py] and [configmanager.py]:

    - Python integers are [Z]; [bytes]/[bytearray] values are [list byte];
    - [time.time()] and the delay constants are IEEE binary64 numbers
      ([PrimFloat.float]), with the operations the interpreter applies;
    - a Python [dict] is an association list in insertion order (the order
      [dict.items()] iterates in), with unique keys;
    - raised exceptions are values of [Exn]; an [assert] raises
      [AssertionError];
    - the clock, the random generator and the UDP socket live in a [World]
      that is threaded through every effectful method;
    - [debug(...)] only prints, so it is left out. *)

From Stdlib Require Import ZArith List Bool Lia.
From Stdlib Require Import Strings.Byte.
From Stdlib Require Import Floats.PrimFloat.
From Stdlib Require Floats.FloatAxioms.
Import ListNotations.

Local Open Scope Z_scope.

(** ** Exceptions *)

(** The message of each [assert] in the source, with the values that the
    f-string interpolates; the assertion of [begin_deletion] has no message
    and is named after what it checks. *)
Inductive Assertion : Type :=
| PacketLengthInvalid (len : Z)
| CommandFieldNot2
| VersionFieldNot2
| RouterIdInvalid (routerid : Z)
| EntryLengthNot20
| AddressFamilyMustBe2
| FieldMustBeAllZeros
| MetricInvalid (metric : Z)
| DeletionAlreadyUnderway.

Inductive Exn : Type :=
| AssertionError (a : Assertion)
| OverflowError
| IndexError
| KeyError.

Inductive res (A : Type) : Type :=
| Ok (a : A)
| Raise (e : Exn).
Arguments Ok {A} a.
Arguments Raise {A} e.

Definition bind_res {A B} (c : res A) (k : A -> res B) : res B :=
  match c with
  | Ok a => k a
  | Raise e => Raise e
  end.

Declare Scope res_scope.
Delimit Scope res_scope with res.
Notation "x <- c ;; k" := (bind_res c (fun x => k))
  (at level 61, c at next level, right associativity) : res_scope.
Notation "' p <- c ;; k" := (bind_res c (fun p => k))
  (at level 61, p pattern, c at next level, right associativity) : res_scope.
Notation "c ;; k" := (bind_res c (fun _ => k))
  (at level 61, right associativity) : res_scope.

(** [assert cond, msg] *)
Definition assert (cond : bool) (msg : Assertion) : res unit :=
  if cond then Ok tt else Raise (AssertionError msg).

(** [try: body except AssertionError: handler] *)
Definition try_except_AssertionError {A} (body : res A) (handler : Assertion -> res A) : res A :=
  match body with
  | Raise (AssertionError a) => handler a
  | other => other
  end.

(** ** Bytes, slices and integer conversions *)

Definition Z_of_byte (b : byte) : Z := Z.of_N (Byte.to_N b).

Definition byte_of_Z (z : Z) : byte :=
  match Byte.of_N (Z.to_N (z mod 256)) with
  | Some b => b
  | None => x00
  end.

(** [bytearray(n)]: [n] zero bytes. *)
Definition bytearray (n : nat) : list byte := repeat x00 n.

(** [b[i:j]] for [0 <= i <= j]; Python clamps a slice to the sequence. *)
Definition slice (i j : nat) (b : list byte) : list byte :=
  firstn (j - i) (skipn i b).

(** [b[i:j] = v] on a bytearray. *)
Definition set_slice (i j : nat) (v : list byte) (b : list byte) : list byte :=
  firstn i b ++ v ++ skipn j b.

(** [b[i]] read; out of range raises [IndexError]. *)
Definition index (b : list byte) (i : nat) : res Z :=
  match nth_error b i with
  | Some x => Ok (Z_of_byte x)
  | None => Raise IndexError
  end.

(** [b[i] = v] on a bytearray. *)
Definition set_index (i : nat) (v : Z) (b : list byte) : res (list byte) :=
  if (i <? length b)%nat
  then Ok (firstn i b ++ byte_of_Z v :: skipn (S i) b)
  else Raise IndexError.

(** The [len] low-order base-256 digits of [n], most significant first. *)
Fixpoint be_digits (len : nat) (n : Z) : list byte :=
  match len with
  | O => []
  | S k => be_digits k (n / 256) ++ [byte_of_Z n]
  end.

(** [n.to_bytes(len)]: big-endian, unsigned; [OverflowError] when [n] is
    negative or does not fit. *)
Definition to_bytes (n : Z) (len : nat) : res (list byte) :=
  if (n <? 0) || (256 ^ Z.of_nat len <=? n)
  then Raise OverflowError
  else Ok (be_digits len n).

(** [int.from_bytes(b)]: big-endian, unsigned. *)
Definition from_bytes (b : list byte) : Z :=
  fold_left (fun acc x => acc * 256 + Z_of_byte x) b 0.

(** [range(start, stop, step)] for a positive [step]. *)
Definition range (start stop step : nat) : list nat :=
  map (fun k => (start + k * step)%nat) (seq 0 ((stop - start + step - 1) / step)).

Definition len (b : list byte) : Z := Z.of_nat (length b).

(** ** configmanager.py *)

Definition routerid_is_valid (routerid : Z) : bool :=
  (1 <=? routerid) && (routerid <=? 64000).

Definition port_is_valid (port : Z) : bool :=
  (1024 <=? port) && (port <=? 64000).

Definition metric_is_valid (metric : Z) : bool :=
  (1 <=? metric) && (metric <=? 16).

(** [outputs] is the dict [{router_id: [port, metric]}]. *)
Record Config : Type := {
  router_id : Z;
  input_ports : list Z;
  outputs : list (Z * (Z * Z))
}.

(** ** ripmanager.py: constants *)

Definition TIME_MULTIPLIER : float := 6%float.

Definition PERIODIC_UPDATE_DELAY : float := (30 / TIME_MULTIPLIER)%float.
Definition TRIGGERED_UPDATE_DELAY : float := (5 / TIME_MULTIPLIER)%float.
Definition ENTRY_TIMEOUT_DELAY : float := (180 / TIME_MULTIPLIER)%float.
Definition GARBAGE_COLLECTION_DELAY : float := (120 / TIME_MULTIPLIER)%float.

Definition INFINITE_METRIC : Z := 16.

Definition POISONED_REVERSE : bool := true.

(** ** The wire codec *)

Module RipEntry.

Record t : Type := { routerid : Z; metric : Z }.

Definition validate_rip_entry (entry : list byte) : res unit :=
  (assert (len entry =? 20) EntryLengthNot20 ;;
   assert (from_bytes (slice 0 2 entry) =? 2) AddressFamilyMustBe2 ;;
   assert (from_bytes (slice 2 4 entry) =? 0) FieldMustBeAllZeros ;;
   let routerid := from_bytes (slice 4 8 entry) in
   assert (routerid_is_valid routerid) (RouterIdInvalid routerid) ;;
   assert (from_bytes (slice 8 16 entry) =? 0) FieldMustBeAllZeros ;;
   let metric := from_bytes (slice 16 20 entry) in
   assert (metric_is_valid metric) (MetricInvalid metric))%res.

(** [RipEntry.__init__] *)
Definition init (entry : list byte) : res t :=
  (validate_rip_entry entry ;;
   Ok {| routerid := from_bytes (slice 4 8 entry);
         metric := from_bytes (slice 16 20 entry) |})%res.

End RipEntry.

Module RipPacket.

Record t : Type := { routerid : Z; entries : list RipEntry.t }.

Definition validate_rip_packet (packet : list byte) : res unit :=
  (assert (4 + 20 <=? len packet) (PacketLengthInvalid (len packet)) ;;
   assert (len packet <=? 4 + 20 * 25) (PacketLengthInvalid (len packet)) ;;
   assert ((len packet - 4) mod 20 =? 0) (PacketLengthInvalid (len packet)) ;;
   command <- index packet 0 ;;
   assert (command =? 2) CommandFieldNot2 ;;
   version <- index packet 1 ;;
   assert (version =? 2) VersionFieldNot2 ;;
   let routerid := from_bytes (slice 2 4 packet) in
   assert (routerid_is_valid routerid) (RouterIdInvalid routerid))%res.

(** The body of the [for i in range(4, len(packet), 20)] loop:
    a valid entry is appended, an [AssertionError] is swallowed. *)
Definition read_entry (packet : list byte) (entries : list RipEntry.t) (i : nat)
  : res (list RipEntry.t) :=
  try_except_AssertionError
    (e <- RipEntry.init (slice i (i + 20) packet) ;; Ok (entries ++ [e]))%res
    (fun _ => Ok entries).

Fixpoint read_entries (packet : list byte) (entries : list RipEntry.t) (idxs : list nat)
  : res (list RipEntry.t) :=
  match idxs with
  | [] => Ok entries
  | i :: idxs' => (entries' <- read_entry packet entries i ;;
                 read_entries packet entries' idxs')%res
  end.

(** [RipPacket.__init__] *)
Definition init (packet : list byte) : res t :=
  (validate_rip_packet packet ;;
   let routerid := from_bytes (slice 2 4 packet) in
   entries <- read_entries packet [] (range 4 (length packet) 20) ;;
   Ok {| routerid := routerid; entries := entries |})%res.

End RipPacket.

(** [rip_entry(destination, metric)] *)
Definition rip_entry (destination metric : Z) : res (list byte) :=
  (let entry := bytearray 20 in
   af <- to_bytes 2 2 ;;
   let entry := set_slice 0 2 af entry in
   d <- to_bytes destination 4 ;;
   let entry := set_slice 4 8 d entry in
   m <- to_bytes metric 4 ;;
   let entry := set_slice 16 20 m entry in
   Ok entry)%res.

(** ** The world outside the interpreter *)

(** [clock] lists the successive readings of [time.time()], [rng] those of
    [random.random()]; [ticks] and [draws] count the readings made so far.
    [outbox] collects the datagrams handed to [socket.sendto], with the
    destination port on 127.0.0.1. *)
Record World : Type := {
  ticks : nat;
  clock : nat -> float;
  draws : nat;
  rng : nat -> float;
  outbox : list (list byte * Z)
}.

Definition M (A : Type) : Type := World -> res (A * World).

Definition ret {A} (a : A) : M A := fun w => Ok (a, w).

Definition bind {A B} (c : M A) (k : A -> M B) : M B :=
  fun w => match c w with
           | Ok (a, w') => k a w'
           | Raise e => Raise e
           end.

Definition lift {A} (c : res A) : M A :=
  fun w => match c with
           | Ok a => Ok (a, w)
           | Raise e => Raise e
           end.

Declare Scope world_scope.
Delimit Scope world_scope with M.
Notation "x <- c ;; k" := (bind c (fun x => k))
  (at level 61, c at next level, right associativity) : world_scope.
Notation "' p <- c ;; k" := (bind c (fun p => k))
  (at level 61, p pattern, c at next level, right associativity) : world_scope.
Notation "c ;; k" := (bind c (fun _ => k))
  (at level 61, right associativity) : world_scope.

(** The world after one more reading of the clock. *)
Definition tick (w : World) : World :=
  {| ticks := S (ticks w); clock := clock w;
     draws := draws w; rng := rng w; outbox := outbox w |}.

(** [time.time()] *)
Definition time : M float :=
  fun w => Ok (clock w (ticks w), tick w).

(** [random.uniform(a, b)], which the library computes as
    [a + (b - a) * random()]. *)
Definition uniform (a b : float) : M float :=
  fun w => Ok ((a + (b - a) * rng w (draws w))%float,
               {| ticks := ticks w; clock := clock w;
                  draws := S (draws w); rng := rng w; outbox := outbox w |}).

(** [socket.sendto(p, ('127.0.0.1', port))] *)
Definition sendto (p : list byte) (port : Z) : M unit :=
  fun w => Ok (tt,
               {| ticks := ticks w; clock := clock w;
                  draws := draws w; rng := rng w;
                  outbox := outbox w ++ [(p, port)] |}).

(** ** Dictionaries *)

Section Dict.
Context {V : Type}.

(** [d.get(k)] / [k in d] *)
Fixpoint dict_get (k : Z) (d : list (Z * V)) : option V :=
  match d with
  | [] => None
  | (k', v) :: d' => if k' =? k then Some v else dict_get k d'
  end.

(** [d[k] = v]: an existing key keeps its place, a new key goes last. *)
Fixpoint dict_set (k : Z) (v : V) (d : list (Z * V)) : list (Z * V) :=
  match d with
  | [] => [(k, v)]
  | (k', v') :: d' => if k' =? k then (k', v) :: d' else (k', v') :: dict_set k v d'
  end.

(** [del d[k]] *)
Fixpoint dict_del (k : Z) (d : list (Z * V)) : res (list (Z * V)) :=
  match d with
  | [] => Raise KeyError
  | (k', v) :: d' =>
      if k' =? k then Ok d'
      else (d'' <- dict_del k d' ;; Ok ((k', v) :: d''))%res
  end.

Definition keys (d : list (Z * V)) : list Z := map fst d.
End Dict.

(** ** Routing table entries *)

(** What the reason string of [update_entry] reports. *)
Inductive Reason : Type :=
| UpdateIsFromNextHop (next_hop old_metric new_metric : Z)
| BetterMetric (old_next_hop old_metric new_next_hop new_metric : Z)
| OverHalfwayToUpdateDue (old_next_hop old_metric new_next_hop new_metric : Z).

Module RoutingTableEntry.

Record t : Type := {
  next_hop : Z;
  metric : Z;
  time_update_due : float;
  time_deletion_due : option float
}.

Definition set_next_hop (v : Z) (self : t) : t :=
  {| next_hop := v; metric := metric self;
     time_update_due := time_update_due self;
     time_deletion_due := time_deletion_due self |}.

Definition set_metric (v : Z) (self : t) : t :=
  {| next_hop := next_hop self; metric := v;
     time_update_due := time_update_due self;
     time_deletion_due := time_deletion_due self |}.

Definition set_time_update_due (v : float) (self : t) : t :=
  {| next_hop := next_hop self; metric := metric self;
     time_update_due := v;
     time_deletion_due := time_deletion_due self |}.

Definition set_time_deletion_due (v : option float) (self : t) : t :=
  {| next_hop := next_hop self; metric := metric self;
     time_update_due := time_update_due self;
     time_deletion_due := v |}.

(** [RoutingTableEntry.__init__] *)
Definition init (next_hop metric : Z) : M t :=
  (now <- time ;;
   ret {| next_hop := next_hop; metric := metric;
          time_update_due := (now + ENTRY_TIMEOUT_DELAY)%float;
          time_deletion_due := None |})%M.

Definition deletion_process_underway (self : t) : bool :=
  match time_deletion_due self with
  | Some _ => true
  | None => false
  end.

Definition over_halfway_to_update_due (self : t) : M bool :=
  (now <- time ;;
   let due_in := (time_update_due self - now)%float in
   ret (due_in <=? ENTRY_TIMEOUT_DELAY / 2)%float)%M.

(** The three branches of [update_entry] before the timers are looked at:
    the reason, the [update_timeouts] flag and the entry as mutated so far.
    [and] evaluates [over_halfway_to_update_due()] only when the two
    comparisons before it hold. *)
Definition choose_update (self : t) (next_hop new_metric : Z)
  : M (option Reason * bool * t) :=
  (if next_hop =? RoutingTableEntry.next_hop self then
     if negb (metric self =? new_metric) then
       ret (Some (UpdateIsFromNextHop (RoutingTableEntry.next_hop self) (metric self) new_metric),
            true, set_metric new_metric self)
     else ret (None, true, self)
   else if new_metric <? metric self then
     ret (Some (BetterMetric (RoutingTableEntry.next_hop self) (metric self) next_hop new_metric),
          true, set_metric new_metric (set_next_hop next_hop self))
   else if negb (new_metric =? INFINITE_METRIC) && (new_metric =? metric self) then
     halfway <- over_halfway_to_update_due self ;;
     if halfway then
       ret (Some (OverHalfwayToUpdateDue (RoutingTableEntry.next_hop self) (metric self) next_hop new_metric),
            true, set_metric new_metric (set_next_hop next_hop self))
     else ret (None, false, self)
   else ret (None, false, self))%M.

(** The [if update_timeouts:] block. *)
Definition refresh_timeouts (self : t) : M t :=
  (now <- time ;;
   let self := set_time_update_due (now + ENTRY_TIMEOUT_DELAY)%float self in
   if metric self <? INFINITE_METRIC
   then ret (set_time_deletion_due None self)
   else ret self)%M.

Definition update_entry (self : t) (next_hop new_metric : Z) : M (option Reason * t) :=
  ('(reason, update_timeouts, self) <- choose_update self next_hop new_metric ;;
   if update_timeouts : bool then
     self <- refresh_timeouts self ;;
     ret (reason, self)
   else ret (reason, self))%M.

(** [or] reads the clock only when the metric is below infinity. *)
Definition should_begin_deletion (self : t) : M bool :=
  (if negb (deletion_process_underway self) then
     if INFINITE_METRIC <=? metric self then ret true
     else now <- time ;; ret (time_update_due self <=? now)%float
   else ret false)%M.

Definition begin_deletion (self : t) : M t :=
  (lift (assert (negb (deletion_process_underway self)) DeletionAlreadyUnderway) ;;
   let self := set_metric INFINITE_METRIC self in
   now <- time ;;
   ret (set_time_deletion_due (Some (now + GARBAGE_COLLECTION_DELAY)%float) self))%M.

Definition should_delete (self : t) : M bool :=
  match time_deletion_due self with
  | Some due => (now <- time ;; ret (due <=? now)%float)%M
  | None => ret false
  end.

End RoutingTableEntry.

(** ** The RIP manager *)

Module RipManager.

(** The object's fields; the socket is the [outbox] of the [World]. *)
Record t : Type := {
  our_routerid : Z;
  output_routers : list (Z * (Z * Z));
  routing_table : list (Z * RoutingTableEntry.t);
  next_periodic_update : float;
  triggered_update_pending : bool;
  next_triggered_update : float
}.

Definition set_routing_table (v : list (Z * RoutingTableEntry.t)) (self : t) : t :=
  {| our_routerid := our_routerid self; output_routers := output_routers self;
     routing_table := v;
     next_periodic_update := next_periodic_update self;
     triggered_update_pending := triggered_update_pending self;
     next_triggered_update := next_triggered_update self |}.

Definition set_next_periodic_update (v : float) (self : t) : t :=
  {| our_routerid := our_routerid self; output_routers := output_routers self;
     routing_table := routing_table self;
     next_periodic_update := v;
     triggered_update_pending := triggered_update_pending self;
     next_triggered_update := next_triggered_update self |}.

Definition set_triggered_update_pending (v : bool) (self : t) : t :=
  {| our_routerid := our_routerid self; output_routers := output_routers self;
     routing_table := routing_table self;
     next_periodic_update := next_periodic_update self;
     triggered_update_pending := v;
     next_triggered_update := next_triggered_update self |}.

Definition set_next_triggered_update (v : float) (self : t) : t :=
  {| our_routerid := our_routerid self; output_routers := output_routers self;
     routing_table := routing_table self;
     next_periodic_update := next_periodic_update self;
     triggered_update_pending := triggered_update_pending self;
     next_triggered_update := v |}.

(** [RipManager.__init__] *)
Definition init (config : Config) : M t :=
  (now <- time ;;
   ret {| our_routerid := router_id config;
          output_routers := outputs config;
          routing_table := [];
          next_periodic_update := now;
          triggered_update_pending := false;
          next_triggered_update := 0%float |})%M.

Definition empty_rip_packet (self : t) : res (list byte) :=
  (let packet := bytearray 4 in
   packet <- set_index 0 2 packet ;;
   packet <- set_index 1 2 packet ;;
   routerid <- to_bytes (our_routerid self) 2 ;;
   Ok (set_slice 2 4 routerid packet))%res.

(** The metric [build_packets] advertises for an entry, or [None] where the
    loop says [continue]. *)
Definition advertised_metric (destination_router_id : Z) (entry : RoutingTableEntry.t)
  : option Z :=
  if RoutingTableEntry.next_hop entry =? destination_router_id then
    if POISONED_REVERSE then Some INFINITE_METRIC else None
  else Some (RoutingTableEntry.metric entry).

(** The [for destination, entry in self.routing_table.items()] loop of
    [build_packets], on the finished [packets] and the current [packet]. *)
Fixpoint add_entries (self : t) (destination_router_id : Z)
         (items : list (Z * RoutingTableEntry.t))
         (packets : list (list byte)) (packet : list byte)
  : res (list (list byte) * list byte) :=
  match items with
  | [] => Ok (packets, packet)
  | (destination, entry) :: items' =>
      match advertised_metric destination_router_id entry with
      | None => add_entries self destination_router_id items' packets packet
      | Some metric =>
          ('(packets, packet) <-
             (if 4 + 20 * 25 <=? len packet
              then fresh <- empty_rip_packet self ;; Ok (packets ++ [packet], fresh)
              else Ok (packets, packet)) ;;
           e <- rip_entry destination metric ;;
           add_entries self destination_router_id items' packets (packet ++ e))%res
      end
  end.

Definition build_packets (self : t) (destination_router_id : Z) : res (list (list byte)) :=
  (packet <- empty_rip_packet self ;;
   e <- rip_entry destination_router_id INFINITE_METRIC ;;
   let packet := packet ++ e in
   '(packets, packet) <-
      add_entries self destination_router_id (routing_table self) [] packet ;;
   Ok (packets ++ [packet]))%res.

Definition add_to_table (self : t) (destination next_hop metric : Z) : M t :=
  (if destination =? our_routerid self then ret self
   else match dict_get destination (routing_table self) with
        | Some entry =>
            '(reason, entry) <- RoutingTableEntry.update_entry entry next_hop metric ;;
            ret (set_routing_table (dict_set destination entry (routing_table self)) self)
        | None =>
            if metric <? INFINITE_METRIC then
              entry <- RoutingTableEntry.init next_hop metric ;;
              ret (set_routing_table (dict_set destination entry (routing_table self)) self)
            else ret self
        end)%M.

(** The [for rip_entry in rip_packet.entries] loop of [incoming_message]. *)
Fixpoint add_entries_to_table (self : t) (next_hop metric_to_next_hop : Z)
         (entries : list RipEntry.t) : M t :=
  match entries with
  | [] => ret self
  | rip_entry :: entries' =>
      (let metric := Z.min (metric_to_next_hop + RipEntry.metric rip_entry) INFINITE_METRIC in
       self <- add_to_table self (RipEntry.routerid rip_entry) next_hop metric ;;
       add_entries_to_table self next_hop metric_to_next_hop entries')%M
  end.

Definition incoming_message (self : t) (message : list byte) : M t :=
  match RipPacket.init message with
  | Raise (AssertionError _) => ret self
  | Raise e => lift (Raise e)
  | Ok rip_packet =>
      let next_hop := RipPacket.routerid rip_packet in
      match dict_get next_hop (output_routers self) with
      | None => ret self
      | Some (_, metric_to_next_hop) =>
          (self <- add_to_table self next_hop next_hop metric_to_next_hop ;;
           add_entries_to_table self next_hop metric_to_next_hop
                                (RipPacket.entries rip_packet))%M
      end
  end.

(** The [for p in packets] loop of [send_response_messages]. *)
Fixpoint send_packets (port : Z) (packets : list (list byte)) : M unit :=
  match packets with
  | [] => ret tt
  | p :: packets' =>
      (lift (try_except_AssertionError (RipPacket.init p ;; Ok tt)%res (fun _ => Ok tt)) ;;
       sendto p port ;;
       send_packets port packets')%M
  end.

(** The [for router_id, [port, metric] in self.output_routers.items()] loop. *)
Fixpoint send_to_routers (self : t) (routers : list (Z * (Z * Z))) : M unit :=
  match routers with
  | [] => ret tt
  | (router_id, (port, metric)) :: routers' =>
      (packets <- lift (build_packets self router_id) ;;
       send_packets port packets ;;
       send_to_routers self routers')%M
  end.

Definition send_response_messages (self : t) : M t :=
  (send_to_routers self (output_routers self) ;;
   now <- time ;;
   jitter <- uniform (- PERIODIC_UPDATE_DELAY / 6)%float (PERIODIC_UPDATE_DELAY / 6)%float ;;
   let self := set_next_periodic_update (now + PERIODIC_UPDATE_DELAY + jitter)%float self in
   let self := set_triggered_update_pending false self in
   now <- time ;;
   delay <- uniform (TRIGGERED_UPDATE_DELAY / 5)%float TRIGGERED_UPDATE_DELAY ;;
   ret (set_next_triggered_update (now + delay)%float self))%M.

(** The first loop of [send_any_updates]: the entries as left by the loop,
    the [to_delete] list and [self.triggered_update_pending]. *)
Fixpoint check_entries (items : list (Z * RoutingTableEntry.t))
         (to_delete : list Z) (pending : bool)
  : M (list (Z * RoutingTableEntry.t) * list Z * bool) :=
  match items with
  | [] => ret ([], to_delete, pending)
  | (destination, entry) :: items' =>
      (delete <- RoutingTableEntry.should_delete entry ;;
       if delete : bool then
         '(items'', to_delete, pending) <- check_entries items' (to_delete ++ [destination]) true ;;
         ret ((destination, entry) :: items'', to_delete, pending)
       else
         begin <- RoutingTableEntry.should_begin_deletion entry ;;
         if begin : bool then
           entry <- RoutingTableEntry.begin_deletion entry ;;
           '(items'', to_delete, pending) <- check_entries items' to_delete true ;;
           ret ((destination, entry) :: items'', to_delete, pending)
         else
           '(items'', to_delete, pending) <- check_entries items' to_delete pending ;;
           ret ((destination, entry) :: items'', to_delete, pending))%M
  end.

(** The [for dest in to_delete] loop. *)
Fixpoint delete_entries (to_delete : list Z) (table : list (Z * RoutingTableEntry.t))
  : res (list (Z * RoutingTableEntry.t)) :=
  match to_delete with
  | [] => Ok table
  | dest :: to_delete' => (table <- dict_del dest table ;; delete_entries to_delete' table)%res
  end.

Definition send_any_updates (self : t) : M t :=
  ('(table, to_delete, pending) <-
      check_entries (routing_table self) [] (triggered_update_pending self) ;;
   table <- lift (delete_entries to_delete table) ;;
   let self := set_triggered_update_pending pending (set_routing_table table self) in
   now <- time ;;
   let periodic_update := (next_periodic_update self <=? now)%float in
   triggered_update <-
     (if triggered_update_pending self
      then now <- time ;; ret (next_triggered_update self <=? now)%float
      else ret false) ;;
   if periodic_update || triggered_update
   then send_response_messages self
   else ret self)%M.

End RipManager.

(** ** Runs of the daemon *)

(** The states the manager goes through in a run of [daemon.main] on the
    configuration [config]: it is constructed once, then receives datagrams
    and is asked to send its updates, in any order and at any time.  Between
    two such calls the loop reads the clock itself, directly and through
    [next_timeout] and [__str__], which change nothing in the manager: that
    is [reach_tick]. *)
Inductive reachable (config : Config) : RipManager.t -> World -> Prop :=
| reach_init w self w' :
    RipManager.init config w = Ok (self, w') ->
    reachable config self w'
| reach_tick self w :
    reachable config self w ->
    reachable config self (tick w)
| reach_incoming_message self w message self' w' :
    reachable config self w ->
    RipManager.incoming_message self message w = Ok (self', w') ->
    reachable config self' w'
| reach_send_any_updates self w self' w' :
    reachable config self w ->
    RipManager.send_any_updates self w = Ok (self', w') ->
    reachable config self' w'.

(** What [configmanager.validate_config] checks of the outputs: every
    neighbour's metric passes [metric_is_valid]. *)
Definition link_metrics_valid (config : Config) : Prop :=
  forall router port metric,
    In (router, (port, metric)) (outputs config) -> metric_is_valid metric = true.

(** ** The wire format as the specification words it *)

(** The header checks of section 4.1: total length in [24, 504] and
    congruent to 4 modulo 20, command 2, version 2, sender router-id in
    [1, 64000]. *)
Definition header_ok (packet : list byte) : bool :=
  (24 <=? len packet) && (len packet <=? 504) && (len packet mod 20 =? 4)
  && (Z_of_byte (nth 0 packet x00) =? 2)
  && (Z_of_byte (nth 1 packet x00) =? 2)
  && (1 <=? from_bytes (slice 2 4 packet)) && (from_bytes (slice 2 4 packet) <=? 64000).

(** The per-entry checks of section 4.1 on one 20-byte entry. *)
Definition entry_ok (entry : list byte) : bool :=
  (from_bytes (slice 0 2 entry) =? 2)
  && (from_bytes (slice 2 4 entry) =? 0)
  && (1 <=? from_bytes (slice 4 8 entry)) && (from_bytes (slice 4 8 entry) <=? 64000)
  && (from_bytes (slice 8 16 entry) =? 0)
  && (1 <=? from_bytes (slice 16 20 entry)) && (from_bytes (slice 16 20 entry) <=? 16).

Definition entry_of (entry : list byte) : RipEntry.t :=
  {| RipEntry.routerid := from_bytes (slice 4 8 entry);
     RipEntry.metric := from_bytes (slice 16 20 entry) |}.

(** The first [n] consecutive 20-byte entries of a packet body. *)
Fixpoint chunks (n : nat) (body : list byte) : list (list byte) :=
  match n with
  | O => []
  | S n' => firstn 20 body :: chunks n' (skipn 20 body)
  end.

(** The entries of a packet, in order: the bytes after the 4-byte header cut
    into 20-byte entries. *)
Definition wire_entries (packet : list byte) : list (list byte) :=
  chunks ((length packet - 4) / 20) (skipn 4 packet).

(** A packet as [build_packets] assembles one: [empty_rip_packet()], then
    [packet += rip_entry(routerid, metric)] for each entry in turn. *)
Fixpoint append_entries (packet : list byte) (E : list RipEntry.t) : res (list byte) :=
  match E with
  | [] => Ok packet
  | e :: E' =>
      (bytes <- rip_entry (RipEntry.routerid e) (RipEntry.metric e) ;;
       append_entries (packet ++ bytes) E')%res
  end.

Definition encode (self : RipManager.t) (E : list RipEntry.t) : res (list byte) :=
  (packet <- RipManager.empty_rip_packet self ;; append_entries packet E)%res.

Definition entry_valid (e : RipEntry.t) : Prop :=
  routerid_is_valid (RipEntry.routerid e) = true /\ metric_is_valid (RipEntry.metric e) = true.

(** The twenty bytes of an entry in the table of section 4.1, field by
    field, and the four bytes of a header. *)
Definition entry_layout (destination metric : Z) : list byte :=
  [x00; x02; x00; x00] ++ be_digits 4 destination ++ repeat x00 8 ++ be_digits 4 metric.

Definition header_layout (routerid : Z) : list byte :=
  [x02; x02] ++ be_digits 2 routerid.

Definition layouts (E : list RipEntry.t) : list (list byte) :=
  map (fun e => entry_layout (RipEntry.routerid e) (RipEntry.metric e)) E.

(** ** Invariants of the routing table *)

Definition metric_in_range (e : RoutingTableEntry.t) : Prop :=
  1 <= RoutingTableEntry.metric e <= 16.

Definition deletion_means_infinite (e : RoutingTableEntry.t) : Prop :=
  RoutingTableEntry.deletion_process_underway e = true ->
  RoutingTableEntry.metric e = INFINITE_METRIC.

(** Every item of a table satisfies [P destination entry]. *)
Definition table_all (P : Z -> RoutingTableEntry.t -> Prop)
           (table : list (Z * RoutingTableEntry.t)) : Prop :=
  Forall (fun item => P (fst item) (snd item)) table.

(** The manager still has the configured identity and neighbours, and
    every item of its table satisfies [P]. *)
Definition manager_inv (our : Z) (outs : list (Z * (Z * Z)))
           (P : Z -> RoutingTableEntry.t -> Prop) (self : RipManager.t) : Prop :=
  RipManager.our_routerid self = our /\
  RipManager.output_routers self = outs /\
  table_all P (RipManager.routing_table self).

(** Whether a method call ended in an [AssertionError]. *)
Definition assertion_failed {A} (r : res A) : bool :=
  match r with
  | Raise (AssertionError _) => true
  | _ => false
  end.

(** ** Packets as a neighbour reads them *)

(** The first RIP entry of a packet: bytes 4 to 23, decoded. *)
Definition leading_entry (packet : list byte) : res RipEntry.t :=
  RipEntry.init (slice 4 24 packet).

(** ** A run with two routers *)

(** Router 1 has the single neighbour 2, over a link of metric 1. *)
Definition demo_config : Config :=
  {| router_id := 1; input_ports := [2000]; outputs := [(2, (3000, 1))] |}.

(** A clock that advances by one second per reading. *)
Fixpoint demo_clock (n : nat) : float :=
  match n with
  | O => 1000%float
  | S k => (demo_clock k + 1)%float
  end.

Definition demo_world : World :=
  {| ticks := 0; clock := demo_clock; draws := 0; rng := fun _ => 0.5%float; outbox := [] |}.

(** Router 2 advertises the 25 destinations 3, ..., 27 at metric 1. *)
Definition demo_entries : list RipEntry.t :=
  map (fun k => {| RipEntry.routerid := Z.of_nat k; RipEntry.metric := 1 |}) (seq 3 25).

Definition demo_message : list byte :=
  header_layout 2 ++ concat (layouts demo_entries).

(** Router 1 starts and receives that datagram. *)
Definition demo_run : res (RipManager.t * World) :=
  (self <- RipManager.init demo_config ;;
   RipManager.incoming_message self demo_message)%M demo_world.

(** Router 2 advertises router 1 itself and one other destination. *)
Definition demo_self_message : list byte :=
  header_layout 2 ++
  concat (layouts [ {| RipEntry.routerid := 1; RipEntry.metric := 1 |};
                    {| RipEntry.routerid := 5; RipEntry.metric := 3 |} ]).

(** Router 1 starts, receives it, and then checks its timers twice, 40
    clock readings apart. *)
Definition demo_self_run : res (RipManager.t * World) :=
  (self <- RipManager.init demo_config ;;
   self <- RipManager.incoming_message self demo_self_message ;;
   self <- RipManager.send_any_updates self ;;
   _ <- (fun w => Ok (tt, Nat.iter 40 tick w)) ;;
   RipManager.send_any_updates self)%M demo_world.

(** The outcome of a run is a reachable state, when there is one. *)
Definition reaches (config : Config) (r : res (RipManager.t * World)) : Prop :=
  match r with
  | Ok (self, w) => reachable config self w
  | Raise _ => True
  end.

(** Router 1 with routes to 2 (direct) and to 5 and 9 (through 2 and 4). *)
Definition demo_manager : RipManager.t :=
  {| RipManager.our_routerid := 1;
     RipManager.output_routers := [(2, (3000, 1)); (4, (3001, 2))];
     RipManager.routing_table :=
       [(2, {| RoutingTableEntry.next_hop := 2; RoutingTableEntry.metric := 1;
               RoutingTableEntry.time_update_due := 1030%float;
               RoutingTableEntry.time_deletion_due := None |});
        (5, {| RoutingTableEntry.next_hop := 2; RoutingTableEntry.metric := 4;
               RoutingTableEntry.time_update_due := 1010%float;
               RoutingTableEntry.time_deletion_due := None |});
        (9, {| RoutingTableEntry.next_hop := 4; RoutingTableEntry.metric := 16;
               RoutingTableEntry.time_update_due := 1020%float;
               RoutingTableEntry.time_deletion_due := Some 1025%float |})];
     RipManager.next_periodic_update := 1005%float;
     RipManager.triggered_update_pending := false;
     RipManager.next_triggered_update := 0%float |}.

(** The route to 5 of [demo_manager]: due in 10 seconds at time 1000. *)
Definition demo_entry : RoutingTableEntry.t :=
  {| RoutingTableEntry.next_hop := 2; RoutingTableEntry.metric := 4;
     RoutingTableEntry.time_update_due := 1010%float;
     RoutingTableEntry.time_deletion_due := None |}.

(** What [add_to_table] leaves alone: every field but the table, and the
    keys already in the table, in their order. *)
Definition grows (self self' : RipManager.t) : Prop :=
  RipManager.our_routerid self' = RipManager.our_routerid self /\
  RipManager.output_routers self' = RipManager.output_routers self /\
  RipManager.next_periodic_update self' = RipManager.next_periodic_update self /\
  RipManager.triggered_update_pending self' = RipManager.triggered_update_pending self /\
  RipManager.next_triggered_update self' = RipManager.next_triggered_update self /\
  exists added,
    keys (RipManager.routing_table self') = keys (RipManager.routing_table self) ++ added.

(** What [configmanager.validate_config] checks of the neighbours' ids:
    each passes [routerid_is_valid]. *)
Definition neighbours_valid (config : Config) : Prop :=
  forall router port metric,
    In (router, (port, metric)) (outputs config) -> routerid_is_valid router = true.

(** Every next-hop of the table is a key of the dict [outs]. *)
Definition next_hops_among (outs : list (Z * (Z * Z)))
           (table : list (Z * RoutingTableEntry.t)) : Prop :=
  table_all (fun _ e => In (RoutingTableEntry.next_hop e) (keys outs)) table.

(** Router 1 of [demo_config] before it has heard anything. *)
Definition demo_fresh : RipManager.t :=
  {| RipManager.our_routerid := 1;
     RipManager.output_routers := [(2, (3000, 1))];
     RipManager.routing_table := [];
     RipManager.next_periodic_update := 1000%float;
     RipManager.triggered_update_pending := false;
     RipManager.next_triggered_update := 0%float |}.

(** The table's keys and metrics fit the 4-byte fields of a RIP entry. *)
Definition fits_the_wire (table : list (Z * RoutingTableEntry.t)) : Prop :=
  table_all (fun d e => 0 <= d < 2 ^ 32 /\ 0 <= RoutingTableEntry.metric e < 2 ^ 32) table.


(** ** The entries of an update *)

(** The routes [build_packets] advertises to [peer], in table order: the
    items the loop does not skip, each with its advertised metric. *)
Definition advertised_entries (self : RipManager.t) (peer : Z) : list RipEntry.t :=
  flat_map (fun item : Z * RoutingTableEntry.t =>
              match RipManager.advertised_metric peer (snd item) with
              | Some m => [ {| RipEntry.routerid := fst item; RipEntry.metric := m |} ]
              | None => []
              end)
           (RipManager.routing_table self).

(** The entries of successive packets when [rest] is appended entry by
    entry to a packet that holds [current], a new packet being started
    whenever the current one holds 25 entries or more. *)
Fixpoint pack (current rest : list RipEntry.t) : list (list RipEntry.t) :=
  match rest with
  | [] => [current]
  | e :: rest' =>
      if (25 <=? length current)%nat
      then current :: pack [e] rest'
      else pack (current ++ [e]) rest'
  end.

(** The bytes of a packet from [routerid] that carries [entries]. *)
Definition packet_layout (routerid : Z) (entries : list RipEntry.t) : list byte :=
  header_layout routerid ++ concat (layouts entries).

(** Keys are valid router-ids and metrics are in [1, 16]. *)
Definition table_valid (table : list (Z * RoutingTableEntry.t)) : Prop :=
  table_all (fun d e => routerid_is_valid d = true /\ metric_in_range e) table.

(** The datagrams of one update, in the order [send_response_messages]
    hands them to the socket: for each neighbour in turn, the packets built
    for it, addressed to its port. *)
Fixpoint update_datagrams (self : RipManager.t) (routers : list (Z * (Z * Z)))
  : res (list (list byte * Z)) :=
  match routers with
  | [] => Ok []
  | (router_id, (port, _)) :: routers' =>
      (packets <- RipManager.build_packets self router_id ;;
       more <- update_datagrams self routers' ;;
       Ok (map (fun p => (p, port)) packets ++ more))%res
  end.

(** ** Timeouts for the event loop *)

(** The built-ins [max(0, x)] and [min] on numbers: [max] keeps its first
    argument unless a later one is greater, [min] unless a later one is
    smaller.  The integer [0] that [max(0, x)] may return is the float zero
    here. *)
Definition max0 (x : float) : float :=
  if (0 <? x)%float then x else 0%float.

Definition min2 (a b : float) : float :=
  if (b <? a)%float then b else a.

(** [min(timeouts)] on the non-empty list [first :: rest]. *)
Definition min_list (first : float) (rest : list float) : float :=
  fold_left min2 rest first.

Module Timeouts.

(** [RoutingTableEntry.update_due_in] *)
Definition update_due_in (self : RoutingTableEntry.t) : M float :=
  (now <- time ;;
   let due_in := (RoutingTableEntry.time_update_due self - now)%float in
   ret (max0 due_in))%M.

(** [RoutingTableEntry.deletion_due_in] *)
Definition deletion_due_in (self : RoutingTableEntry.t) : M float :=
  match RoutingTableEntry.time_deletion_due self with
  | Some due => (now <- time ;; ret (max0 (due - now)%float))%M
  | None => ret (max0 infinity)
  end.

(** [RoutingTableEntry.next_timeout] *)
Definition entry_next_timeout (self : RoutingTableEntry.t) : M float :=
  (update <- update_due_in self ;;
   deletion <- deletion_due_in self ;;
   let smallest_time := min2 update deletion in
   ret (max0 smallest_time))%M.

(** The [for entry in self.routing_table.values()] loop of
    [RipManager.next_timeout]. *)
Fixpoint entry_timeouts (items : list (Z * RoutingTableEntry.t)) (timeouts : list float)
  : M (list float) :=
  match items with
  | [] => ret timeouts
  | (_, entry) :: items' =>
      (t <- entry_next_timeout entry ;;
       entry_timeouts items' (timeouts ++ [t]))%M
  end.

(** [RipManager.next_timeout]; [timeouts] is kept without its first
    element, [next_periodic_update_in]. *)
Definition next_timeout (self : RipManager.t) : M float :=
  (now <- time ;;
   let next_periodic_update_in := (RipManager.next_periodic_update self - now)%float in
   let next_periodic_update_in := max0 next_periodic_update_in in
   timeouts <- entry_timeouts (RipManager.routing_table self) [] ;;
   timeouts <-
     (if RipManager.triggered_update_pending self
      then now <- time ;;
           ret (timeouts ++ [(RipManager.next_triggered_update self - now)%float])
      else ret timeouts) ;;
   let smallest_timeout := min_list next_periodic_update_in timeouts in
   ret (max0 smallest_timeout))%M.

End Timeouts.

(** ** configmanager.py: checking a fleet of configurations *)

(** The messages of the assertions of [validate_configs], with the values
    they interpolate ([None] where the code would print [None]). *)
Inductive ConfigAssertion : Type :=
| SameRouterId (router_id : Z)
| PortAlreadyInput (port : Z) (router_id : option Z)
| PortAlreadyOutput (port : Z) (router_id : option Z)
| MetricMismatch (lower_id upper_id : Z)
| NoReceiver (out_id : option Z) (port : Z)
| NoSender (in_id : option Z) (port : Z)
| RouterIdMismatch (in_id out_id : option Z) (port : Z).

Inductive checked (A : Type) : Type :=
| Passed (a : A)
| Failed (msg : ConfigAssertion).
Arguments Passed {A} a.
Arguments Failed {A} msg.

Definition bind_checked {A B} (c : checked A) (k : A -> checked B) : checked B :=
  match c with
  | Passed a => k a
  | Failed msg => Failed msg
  end.

Declare Scope checked_scope.
Delimit Scope checked_scope with checked.
Notation "x <- c ;; k" := (bind_checked c (fun x => k))
  (at level 61, c at next level, right associativity) : checked_scope.
Notation "' p <- c ;; k" := (bind_checked c (fun p => k))
  (at level 61, p pattern, c at next level, right associativity) : checked_scope.
Notation "c ;; k" := (bind_checked c (fun _ => k))
  (at level 61, right associativity) : checked_scope.

Definition check (cond : bool) (msg : ConfigAssertion) : checked unit :=
  if cond then Passed tt else Failed msg.

(** A dict whose keys are pairs of integers: [d.get(k)] and [d[k] = v]. *)
Fixpoint pair_get {V} (k : Z * Z) (d : list (Z * Z * V)) : option V :=
  match d with
  | [] => None
  | (k', v) :: d' =>
      if (fst k' =? fst k) && (snd k' =? snd k) then Some v else pair_get k d'
  end.

Fixpoint pair_set {V} (k : Z * Z) (v : V) (d : list (Z * Z * V)) : list (Z * Z * V) :=
  match d with
  | [] => [(k, v)]
  | (k', v') :: d' =>
      if (fst k' =? fst k) && (snd k' =? snd k) then (k', v) :: d'
      else (k', v') :: pair_set k v d'
  end.

(** [itertools.combinations(l, 2)] *)
Fixpoint combinations2 {A} (l : list A) : list (A * A) :=
  match l with
  | [] => []
  | a :: l' => map (fun b => (a, b)) l' ++ combinations2 l'
  end.

Definition option_Z_eqb (a b : option Z) : bool :=
  match a, b with
  | Some x, Some y => x =? y
  | None, None => true
  | _, _ => false
  end.

Definition is_None (a : option Z) : bool :=
  match a with
  | None => true
  | Some _ => false
  end.

Module ConfigManager.

(** [port_ids] is the dict [{port: [input_id, output_id]}], [metrics] the
    dict [{(lower_id, upper_id): metric}]. *)
Definition PortIds : Type := list (Z * (option Z * option Z)).
Definition Metrics : Type := list (Z * Z * Z).

(** The first loop: [for c1, c2 in combinations(configs, 2)]. *)
Fixpoint check_router_ids (pairs : list (Config * Config)) : checked unit :=
  match pairs with
  | [] => Passed tt
  | (c1, c2) :: pairs' =>
      (check (negb (router_id c1 =? router_id c2)) (SameRouterId (router_id c1)) ;;
       check_router_ids pairs')%checked
  end.

(** [port_ids.get(port, [None, None])] *)
Definition get_ids (port : Z) (port_ids : PortIds) : option Z * option Z :=
  match dict_get port port_ids with
  | Some ids => ids
  | None => (None, None)
  end.

(** The [for port in config.input_ports] loop. *)
Fixpoint add_inputs (config_router_id : Z) (ports : list Z) (port_ids : PortIds)
  : checked PortIds :=
  match ports with
  | [] => Passed port_ids
  | port :: ports' =>
      (let current_ids := get_ids port port_ids in
       check (is_None (fst current_ids)) (PortAlreadyInput port (fst current_ids)) ;;
       let current_ids := (Some config_router_id, snd current_ids) in
       add_inputs config_router_id ports' (dict_set port current_ids port_ids))%checked
  end.

(** The [for router_id, [port, metric] in config.outputs.items()] loop. *)
Fixpoint add_outputs (config_router_id : Z) (outs : list (Z * (Z * Z)))
         (port_ids : PortIds) (metrics : Metrics) : checked (PortIds * Metrics) :=
  match outs with
  | [] => Passed (port_ids, metrics)
  | (router_id, (port, metric)) :: outs' =>
      (let current_ids := get_ids port port_ids in
       check (is_None (snd current_ids)) (PortAlreadyOutput port (snd current_ids)) ;;
       let current_ids := (fst current_ids, Some router_id) in
       let port_ids := dict_set port current_ids port_ids in
       let lower_id := Z.min config_router_id router_id in
       let upper_id := Z.max config_router_id router_id in
       match pair_get (lower_id, upper_id) metrics with
       | Some current_metric =>
           check (current_metric =? metric) (MetricMismatch lower_id upper_id)
       | None => Passed tt
       end ;;
       add_outputs config_router_id outs' port_ids
                   (pair_set (lower_id, upper_id) metric metrics))%checked
  end.

(** The [for config in configs] loop. *)
Fixpoint scan_configs (configs : list Config) (port_ids : PortIds) (metrics : Metrics)
  : checked (PortIds * Metrics) :=
  match configs with
  | [] => Passed (port_ids, metrics)
  | config :: configs' =>
      (port_ids <- add_inputs (router_id config) (input_ports config) port_ids ;;
       '(port_ids, metrics) <-
          add_outputs (router_id config) (outputs config) port_ids metrics ;;
       scan_configs configs' port_ids metrics)%checked
  end.

(** The [for port, [in_id, out_id] in port_ids.items()] loop. *)
Fixpoint check_ports (items : PortIds) : checked unit :=
  match items with
  | [] => Passed tt
  | (port, (in_id, out_id)) :: items' =>
      (check (negb (is_None in_id)) (NoReceiver out_id port) ;;
       check (negb (is_None out_id)) (NoSender in_id port) ;;
       check (option_Z_eqb in_id out_id) (RouterIdMismatch in_id out_id port) ;;
       check_ports items')%checked
  end.

Definition validate_configs (configs : list Config) : checked unit :=
  (check_router_ids (combinations2 configs) ;;
   '(port_ids, _) <- scan_configs configs [] [] ;;
   check_ports port_ids)%checked.

End ConfigManager.

(** The configurations of the examples in the docstring of
    [validate_configs]. *)
Definition doc_config (id : Z) (inputs : list Z) (outs : list (Z * (Z * Z))) : Config :=
  {| router_id := id; input_ports := inputs; outputs := outs |}.

(** Every listening port of the fleet with its router, and every port
    written to with the router-id the writer names. *)
Definition listeners (configs : list Config) : list (Z * Z) :=
  flat_map (fun c => map (fun port => (port, router_id c)) (input_ports c)) configs.

Definition senders (configs : list Config) : list (Z * Z) :=
  flat_map (fun c => map (fun out : Z * (Z * Z) => (fst (snd out), fst out)) (outputs c))
           configs.

(** Every link a configuration declares, as the unordered pair of its
    ends, with its metric. *)
Definition links (configs : list Config) : list (Z * Z * Z) :=
  flat_map (fun c => map (fun out : Z * (Z * Z) =>
                            (Z.min (router_id c) (fst out), Z.max (router_id c) (fst out),
                             snd (snd out)))
                         (outputs c))
           configs.

(** What [port_ids] and [metrics] record of the listeners, senders and
    links scanned so far. *)
Definition ports_inv (ins outs : list (Z * Z)) (port_ids : ConfigManager.PortIds) : Prop :=
  (forall port rid,
      In (port, rid) ins <-> fst (ConfigManager.get_ids port port_ids) = Some rid) /\
  (forall port rid,
      In (port, rid) outs <-> snd (ConfigManager.get_ids port port_ids) = Some rid) /\
  NoDup (map fst ins) /\ NoDup (map fst outs).

Definition metrics_inv (ls : list (Z * Z * Z)) (metrics : ConfigManager.Metrics) : Prop :=
  forall lo hi m, In (lo, hi, m) ls -> pair_get (lo, hi) metrics = Some m.

(** [port_ids] as a dict: no key twice, and no port stored without an
    input or an output id. *)
Definition ports_stored (port_ids : ConfigManager.PortIds) : Prop :=
  NoDup (keys port_ids) /\
  Forall (fun item : Z * (option Z * option Z) => snd item <> (None, None)) port_ids.

Definition metrics_known (ls : list (Z * Z * Z)) (metrics : ConfigManager.Metrics) : Prop :=
  forall lo hi m, pair_get (lo, hi) metrics = Some m -> In (lo, hi, m) ls.

(** Declarations of the same link carry the same metric. *)
Definition links_agree (ls : list (Z * Z * Z)) : Prop :=
  forall lo hi m m', In (lo, hi, m) ls -> In (lo, hi, m') ls -> m = m'.

(** A fleet whose router-ids are distinct, whose ports each have exactly
    the listener their one writer names, and whose links have one metric. *)
Definition consistent_fleet (configs : list Config) : Prop :=
  NoDup (map router_id configs) /\
  (forall port rid, In (port, rid) (listeners configs) <-> In (port, rid) (senders configs)) /\
  NoDup (map fst (listeners configs)) /\
  NoDup (map fst (senders configs)) /\
  links_agree (links configs).

Definition is_SameRouterId (msg : ConfigAssertion) : bool :=
  match msg with
  | SameRouterId _ => true
  | _ => false
  end.

(** Router 2 advertises destination 5 at metric 16 and destination 8 at
    metric 3. *)
Definition demo_clamp_message : list byte :=
  header_layout 2 ++
  concat (layouts [ {| RipEntry.routerid := 5; RipEntry.metric := 16 |};
                    {| RipEntry.routerid := 8; RipEntry.metric := 3 |} ]).

(** Router 1 starts and receives [demo_self_message]: it then holds the
    routes to 2 (metric 1) and to 5 (metric 4). *)
Definition demo_learn_run : res (RipManager.t * World) :=
  (self <- RipManager.init demo_config ;;
   RipManager.incoming_message self demo_self_message)%M demo_world.

(** The states of the manager before its first update.  [daemon.main]
    constructs the manager, which reads the clock: that reading is [t0].
    Before it calls [send_any_updates] for the first time it reads the
    clock, directly and through [next_timeout], and hands the manager every
    datagram that has arrived. *)
Inductive starting (config : Config) (t0 : float) : RipManager.t -> World -> Prop :=
| start_init w self w' :
    RipManager.init config w = Ok (self, w') ->
    t0 = clock w (ticks w) ->
    starting config t0 self w'
| start_tick self w :
    starting config t0 self w ->
    starting config t0 self (tick w)
| start_incoming_message self w message self' w' :
    starting config t0 self w ->
    RipManager.incoming_message self message w = Ok (self', w') ->
    starting config t0 self' w'.

(** * Proofs *)

(** ** Bytes and big-endian integers *)

Lemma Z_of_byte_range b : 0 <= Z_of_byte b < 256.
Proof.
  unfold Z_of_byte. pose proof (Byte.to_N_bounded b). lia.
Qed.

Lemma byte_of_Z_of_byte b : byte_of_Z (Z_of_byte b) = b.
Proof.
  unfold byte_of_Z. rewrite Z.mod_small by apply Z_of_byte_range.
  unfold Z_of_byte. rewrite N2Z.id, Byte.of_to_N. reflexivity.
Qed.

Lemma Z_of_byte_of_Z z : Z_of_byte (byte_of_Z z) = z mod 256.
Proof.
  assert (Hm : 0 <= z mod 256 < 256) by (apply Z.mod_pos_bound; lia).
  unfold byte_of_Z.
  destruct (Byte.of_N (Z.to_N (z mod 256))) as [b|] eqn:E.
  - apply Byte.to_of_N in E. unfold Z_of_byte. rewrite E. apply Z2N.id. lia.
  - apply Byte.of_N_None_iff in E. lia.
Qed.

Lemma from_bytes_snoc b x : from_bytes (b ++ [x]) = from_bytes b * 256 + Z_of_byte x.
Proof.
  unfold from_bytes. rewrite fold_left_app. reflexivity.
Qed.

Lemma be_digits_length n z : length (be_digits n z) = n.
Proof.
  revert z. induction n as [|n IH]; intros z; simpl.
  - reflexivity.
  - rewrite length_app, IH. simpl. lia.
Qed.

Lemma from_bytes_be_digits n z : from_bytes (be_digits n z) = z mod 256 ^ Z.of_nat n.
Proof.
  revert z. induction n as [|n IH]; intros z.
  - simpl. rewrite Z.mod_1_r. reflexivity.
  - cbn [be_digits]. rewrite from_bytes_snoc, IH, Z_of_byte_of_Z.
    rewrite Nat2Z.inj_succ, Z.pow_succ_r by lia.
    rewrite (Z.mul_comm 256), Z.mul_comm.
    assert (Hp : 0 < 256 ^ Z.of_nat n) by (apply Z.pow_pos_nonneg; lia).
    rewrite (Z.mul_comm (256 ^ Z.of_nat n) 256).
    rewrite Z.rem_mul_r by lia. lia.
Qed.

Lemma to_bytes_ok n k : 0 <= n < 256 ^ Z.of_nat k -> to_bytes n k = Ok (be_digits k n).
Proof.
  intros H. unfold to_bytes.
  destruct (n <? 0) eqn:E1; [apply Z.ltb_lt in E1; lia|].
  destruct (256 ^ Z.of_nat k <=? n) eqn:E2; [apply Z.leb_le in E2; lia|].
  reflexivity.
Qed.

Lemma from_bytes_to_bytes n k : 0 <= n < 256 ^ Z.of_nat k -> from_bytes (be_digits k n) = n.
Proof.
  intros H. rewrite from_bytes_be_digits. apply Z.mod_small. exact H.
Qed.

Lemma slice_app_mid (a b c : list byte) i j :
  i = length a -> j = (length a + length b)%nat -> slice i j (a ++ b ++ c) = b.
Proof.
  intros -> ->. unfold slice.
  rewrite skipn_app, skipn_all, Nat.sub_diag. simpl.
  replace (length a + length b - length a)%nat with (length b) by lia.
  rewrite firstn_app, firstn_all, Nat.sub_diag. simpl. apply app_nil_r.
Qed.

(** ** Decoding *)

Ltac split_tests :=
  repeat match goal with
         | |- context [if ?b then _ else _] => destruct b eqn:?; cbn [bind_res andb negb]
         | H : context [if ?b then _ else _] |- _ => destruct b eqn:?; cbn [bind_res andb negb] in H
         end.

Lemma RipEntry_init_ok entry :
  length entry = 20%nat -> entry_ok entry = true ->
  RipEntry.init entry = Ok (entry_of entry).
Proof.
  intros Hlen Hok.
  unfold RipEntry.init, RipEntry.validate_rip_entry, assert,
    routerid_is_valid, metric_is_valid, entry_of, len.
  unfold entry_ok in Hok. rewrite Hlen.
  repeat (apply andb_prop in Hok; destruct Hok as [Hok ?]).
  repeat match goal with H : _ = true |- _ => rewrite H; clear H end.
  reflexivity.
Qed.

Lemma RipEntry_init_rejects entry :
  entry_ok entry = false ->
  exists a, RipEntry.init entry = Raise (AssertionError a).
Proof.
  intros Hok.
  unfold RipEntry.init, RipEntry.validate_rip_entry, assert,
    routerid_is_valid, metric_is_valid.
  unfold entry_ok in Hok.
  split_tests; eauto.
  repeat match goal with
         | H : _ && _ = true |- _ => apply andb_prop in H; destruct H
         end.
  repeat match goal with
         | H : ?b = true, H' : context [?b] |- _ => rewrite H in H'
         end.
  discriminate.
Qed.

Lemma read_entry_spec packet acc i :
  length (slice i (i + 20) packet) = 20%nat ->
  RipPacket.read_entry packet acc i =
  Ok (acc ++ map entry_of (filter entry_ok [slice i (i + 20) packet])).
Proof.
  intros Hlen. unfold RipPacket.read_entry. cbn [filter].
  destruct (entry_ok (slice i (i + 20) packet)) eqn:E.
  - rewrite (RipEntry_init_ok _ Hlen E). reflexivity.
  - destruct (RipEntry_init_rejects _ E) as [a ->]. cbn. rewrite app_nil_r. reflexivity.
Qed.

Lemma read_entries_chunks cs : forall pre acc,
  Forall (fun c => length c = 20%nat) cs ->
  RipPacket.read_entries (pre ++ concat cs) acc
    (map (fun k => (length pre + k * 20)%nat) (seq 0 (length cs)))
  = Ok (acc ++ map entry_of (filter entry_ok cs)).
Proof.
  induction cs as [|c cs IH]; intros pre acc Hall.
  - cbn. rewrite app_nil_r. reflexivity.
  - inversion Hall as [|? ? Hc Hcs]; subst.
    cbn [length seq map RipPacket.read_entries concat].
    assert (Hs : slice (length pre + 0 * 20) (length pre + 0 * 20 + 20) (pre ++ c ++ concat cs) = c)
      by (apply slice_app_mid; lia).
    rewrite read_entry_spec by (rewrite Hs; exact Hc).
    rewrite Hs. cbn [bind_res].
    rewrite <- seq_shift, map_map.
    rewrite (map_ext _ (fun k => (length (pre ++ c) + k * 20)%nat))
      by (intros k; rewrite length_app; lia).
    rewrite app_assoc, IH by exact Hcs.
    rewrite <- app_assoc, <- map_app.
    f_equal. f_equal. cbn [filter].
    destruct (entry_ok c); reflexivity.
Qed.

Lemma chunks_concat n : forall body,
  length body = (20 * n)%nat ->
  concat (chunks n body) = body /\
  Forall (fun c => length c = 20%nat) (chunks n body) /\
  length (chunks n body) = n.
Proof.
  induction n as [|n IH]; intros body Hlen.
  - destruct body; [cbn; auto | discriminate].
  - cbn [chunks concat length].
    destruct (IH (skipn 20 body)) as (Hc & Hf & Hl).
    { rewrite length_skipn. lia. }
    rewrite Hc, firstn_skipn, Hl. repeat split; auto.
    constructor; auto. rewrite length_firstn. lia.
Qed.

Lemma range_entries n :
  range 4 (4 + 20 * n) 20 = map (fun k => (4 + k * 20)%nat) (seq 0 n).
Proof.
  unfold range. f_equal. f_equal.
  replace (4 + 20 * n - 4 + 20 - 1)%nat with (n * 20 + 19)%nat by lia.
  rewrite Nat.div_add_l by lia. cbn. lia.
Qed.

Lemma header_ok_length packet :
  header_ok packet = true ->
  exists n, (1 <= n <= 25)%nat /\ length packet = (4 + 20 * n)%nat
            /\ ((length packet - 4) / 20)%nat = n.
Proof.
  unfold header_ok, len. intros H.
  repeat (apply andb_prop in H; destruct H as [H ?]).
  apply Z.leb_le in H. 
  repeat match goal with
         | H : (_ <=? _) = true |- _ => apply Z.leb_le in H
         | H : (_ =? _) = true |- _ => apply Z.eqb_eq in H
         end.
  exists ((length packet - 4) / 20)%nat.
  assert (Hn : (length packet = 4 + 20 * ((length packet - 4) / 20))%nat).
  { pose proof (Nat.div_mod_eq (length packet - 4) 20) as Hd.
    assert ((length packet - 4) mod 20 = 0)%nat; [|lia].
    apply Nat2Z.inj. rewrite Nat2Z.inj_mod, Nat2Z.inj_sub by lia.
    cbn [Z.of_nat]. Z.div_mod_to_equations. lia. }
  split; [|auto]. lia.
Qed.

Lemma validate_rip_packet_spec packet :
  (header_ok packet = true -> RipPacket.validate_rip_packet packet = Ok tt) /\
  (header_ok packet = false ->
   exists a, RipPacket.validate_rip_packet packet = Raise (AssertionError a)).
Proof.
  unfold RipPacket.validate_rip_packet, header_ok, assert, routerid_is_valid.
  replace (4 + 20) with 24 by reflexivity. replace (4 + 20 * 25) with 504 by reflexivity.
  destruct (24 <=? len packet) eqn:E1; cbn [bind_res andb];
    [|split; [discriminate | eauto]].
  destruct (len packet <=? 504) eqn:E2; cbn [bind_res andb];
    [|split; [discriminate | eauto]].
  assert (Hmod : (len packet mod 20 =? 4) = ((len packet - 4) mod 20 =? 0)).
  { destruct (len packet mod 20 =? 4) eqn:A; destruct ((len packet - 4) mod 20 =? 0) eqn:B;
      try reflexivity; exfalso;
      rewrite ?Z.eqb_eq, ?Z.eqb_neq in *; Z.div_mod_to_equations; lia. }
  rewrite Hmod.
  destruct ((len packet - 4) mod 20 =? 0) eqn:E3; cbn [bind_res andb];
    [|split; [discriminate | eauto]].
  apply Z.leb_le in E1. unfold len in E1.
  unfold index.
  rewrite (nth_error_nth' packet x00) by lia. cbn [bind_res].
  destruct (Z_of_byte (nth 0 packet x00) =? 2); cbn [bind_res andb];
    [|split; [discriminate | eauto]].
  rewrite (nth_error_nth' packet x00) by lia. cbn [bind_res].
  destruct (Z_of_byte (nth 1 packet x00) =? 2); cbn [bind_res andb];
    [|split; [discriminate | eauto]].
  destruct (1 <=? from_bytes (slice 2 4 packet)); cbn [andb];
    [|split; [discriminate | eauto]].
  destruct (from_bytes (slice 2 4 packet) <=? 64000);
    split; try discriminate; eauto.
Qed.

Lemma RipPacket_init_valid packet :
  header_ok packet = true ->
  RipPacket.init packet =
  Ok {| RipPacket.routerid := from_bytes (slice 2 4 packet);
        RipPacket.entries := map entry_of (filter entry_ok (wire_entries packet)) |}.
Proof.
  intros Hok. unfold RipPacket.init.
  rewrite (proj1 (validate_rip_packet_spec packet) Hok). cbn [bind_res].
  destruct (header_ok_length _ Hok) as (n & Hn & Hlen & Hdiv).
  unfold wire_entries. rewrite Hdiv.
  destruct (chunks_concat n (skipn 4 packet)) as (Hc & Hf & Hl).
  { rewrite length_skipn. lia. }
  assert (H4 : length (firstn 4 packet) = 4%nat) by (rewrite length_firstn; lia).
  pose proof (read_entries_chunks (chunks n (skipn 4 packet)) (firstn 4 packet) [] Hf) as R.
  rewrite Hc, firstn_skipn, H4, Hl in R.
  rewrite Hlen, range_entries, R. reflexivity.
Qed.

(** ** Encoding *)

Lemma rip_entry_ok destination metric :
  0 <= destination < 2 ^ 32 -> 0 <= metric < 2 ^ 32 ->
  rip_entry destination metric = Ok (entry_layout destination metric).
Proof.
  intros Hd Hm. unfold rip_entry.
  rewrite (to_bytes_ok 2 2) by (cbn; lia).
  rewrite (to_bytes_ok destination 4), (to_bytes_ok metric 4) by (cbn; lia).
  reflexivity.
Qed.

Lemma empty_rip_packet_ok self :
  0 <= RipManager.our_routerid self < 2 ^ 16 ->
  RipManager.empty_rip_packet self = Ok (header_layout (RipManager.our_routerid self)).
Proof.
  intros H. unfold RipManager.empty_rip_packet.
  rewrite (to_bytes_ok _ 2) by (cbn; lia).
  reflexivity.
Qed.

Lemma entry_layout_length d m : length (entry_layout d m) = 20%nat.
Proof. reflexivity. Qed.

Lemma entry_layout_valid e :
  entry_valid e ->
  entry_ok (entry_layout (RipEntry.routerid e) (RipEntry.metric e)) = true /\
  entry_of (entry_layout (RipEntry.routerid e) (RipEntry.metric e)) = e.
Proof.
  destruct e as [d m]. unfold entry_valid, routerid_is_valid, metric_is_valid.
  cbn [RipEntry.routerid RipEntry.metric].
  intros [Hd Hm].
  apply andb_prop in Hd, Hm. destruct Hd as [Hd1 Hd2], Hm as [Hm1 Hm2].
  assert (Fd : from_bytes (slice 4 8 (entry_layout d m)) = d).
  { change (from_bytes (be_digits 4 d) = d).
    apply from_bytes_to_bytes. apply Z.leb_le in Hd1, Hd2. cbn. lia. }
  assert (Fm : from_bytes (slice 16 20 (entry_layout d m)) = m).
  { change (from_bytes (be_digits 4 m) = m).
    apply from_bytes_to_bytes. apply Z.leb_le in Hm1, Hm2. cbn. lia. }
  unfold entry_ok, entry_of. rewrite Fd, Fm, Hd1, Hd2, Hm1, Hm2.
  split; reflexivity.
Qed.

Lemma layouts_length E : Forall (fun c => length c = 20%nat) (layouts E).
Proof.
  unfold layouts. apply Forall_map, Forall_forall. intros; apply entry_layout_length.
Qed.

Lemma layouts_decode E :
  Forall entry_valid E -> map entry_of (filter entry_ok (layouts E)) = E.
Proof.
  induction 1 as [|e E He _ IH]; [reflexivity|].
  destruct (entry_layout_valid e He) as [Hok Hof].
  unfold layouts in *. cbn [map filter]. rewrite Hok. cbn [map].
  rewrite Hof, IH. reflexivity.
Qed.

Lemma append_entries_ok E : forall packet,
  Forall entry_valid E ->
  append_entries packet E = Ok (packet ++ concat (layouts E)).
Proof.
  induction E as [|e E IH]; intros packet Hall.
  - cbn. rewrite app_nil_r. reflexivity.
  - inversion Hall as [|? ? [Hd Hm] HE]; subst.
    unfold routerid_is_valid in Hd. unfold metric_is_valid in Hm.
    apply andb_prop in Hd, Hm. destruct Hd as [Hd1 Hd2], Hm as [Hm1 Hm2].
    apply Z.leb_le in Hd1, Hd2, Hm1, Hm2.
    cbn [append_entries]. rewrite rip_entry_ok by (cbn; lia). cbn [bind_res].
    rewrite IH by exact HE. unfold layouts. cbn [map concat].
    rewrite app_assoc. reflexivity.
Qed.

Lemma chunks_of_concat (cs : list (list byte)) :
  Forall (fun c => length c = 20%nat) cs -> chunks (length cs) (concat cs) = cs.
Proof.
  induction 1 as [|c cs Hc _ IH]; [reflexivity|].
  cbn [length chunks concat].
  rewrite firstn_app, skipn_app, Hc, Nat.sub_diag.
  rewrite firstn_all2, skipn_all2 by lia.
  cbn [firstn skipn app]. rewrite app_nil_r, IH. reflexivity.
Qed.

Lemma concat_length_20 (cs : list (list byte)) :
  Forall (fun c => length c = 20%nat) cs -> length (concat cs) = (20 * length cs)%nat.
Proof.
  induction 1 as [|c cs Hc _ IH]; [reflexivity|].
  cbn [concat length]. rewrite length_app, Hc, IH. lia.
Qed.

Lemma header_layout_ok routerid cs :
  routerid_is_valid routerid = true ->
  Forall (fun c => length c = 20%nat) cs ->
  (1 <= length cs <= 25)%nat ->
  header_ok (header_layout routerid ++ concat cs) = true /\
  from_bytes (slice 2 4 (header_layout routerid ++ concat cs)) = routerid /\
  wire_entries (header_layout routerid ++ concat cs) = cs.
Proof.
  intros Hr Hcs Hn.
  assert (Hlen : length (header_layout routerid ++ concat cs) = (4 + 20 * length cs)%nat).
  { rewrite length_app, (concat_length_20 _ Hcs). reflexivity. }
  assert (Fr : from_bytes (slice 2 4 (header_layout routerid ++ concat cs)) = routerid).
  { change (from_bytes (be_digits 2 routerid) = routerid).
    apply from_bytes_to_bytes. unfold routerid_is_valid in Hr.
    apply andb_prop in Hr. destruct Hr as [H1 H2]. apply Z.leb_le in H1, H2. cbn. lia. }
  split; [|split].
  - unfold header_ok, len. rewrite Fr, Hlen.
    unfold routerid_is_valid in Hr. apply andb_prop in Hr. destruct Hr as [-> ->].
    change (Z_of_byte (nth 0 (header_layout routerid ++ concat cs) x00)) with 2.
    change (Z_of_byte (nth 1 (header_layout routerid ++ concat cs) x00)) with 2.
    rewrite !andb_true_r. cbn [Z.eqb Pos.eqb andb].
    repeat (apply andb_true_intro; split).
    + apply Z.leb_le. lia.
    + apply Z.leb_le. lia.
    + apply Z.eqb_eq. rewrite Nat2Z.inj_add, Nat2Z.inj_mul. cbn [Z.of_nat].
      Z.div_mod_to_equations. lia.
  - exact Fr.
  - unfold wire_entries. rewrite Hlen.
    replace ((4 + 20 * length cs - 4) / 20)%nat with (length cs).
    + change (skipn 4 (header_layout routerid ++ concat cs)) with (concat cs).
      apply chunks_of_concat, Hcs.
    + replace (4 + 20 * length cs - 4)%nat with (length cs * 20)%nat by lia.
      rewrite Nat.div_mul by lia. reflexivity.
Qed.

(** C5. Decoding a byte sequence as a [RipPacket] is all-or-nothing on the
    header: it raises (an [AssertionError]) exactly when one of the header
    checks fails -- length outside [24, 504], length not congruent to 4
    modulo 20, command byte not 2, version byte not 2, sender router-id
    outside [1, 64000].  When the header is valid the router-id is read from
    bytes 2-3 and the decoded entries are the 20-byte entries of the packet
    that pass the per-entry checks, in wire order; an entry that fails them
    is dropped and the others are kept. *)
Theorem RipPacket_init_header_all_or_nothing (packet : list byte) :
  ((exists e, RipPacket.init packet = Raise e) <-> header_ok packet = false) /\
  (if header_ok packet
   then RipPacket.init packet =
        Ok {| RipPacket.routerid := from_bytes (slice 2 4 packet);
              RipPacket.entries := map entry_of (filter entry_ok (wire_entries packet)) |}
   else exists a, RipPacket.init packet = Raise (AssertionError a)).
Proof.
  destruct (header_ok packet) eqn:Hok.
  - pose proof (RipPacket_init_valid packet Hok) as H. rewrite H.
    split; [|reflexivity]. split; [intros [e He]|]; discriminate.
  - destruct (proj2 (validate_rip_packet_spec packet) Hok) as [a Ha].
    assert (H : RipPacket.init packet = Raise (AssertionError a))
      by (unfold RipPacket.init; rewrite Ha; reflexivity).
    split; [|eauto]. split; eauto.
Qed.

(** C6. For a manager whose router-id is in [1, 64000] and a sequence [E] of
    1 to 25 entries with destinations in [1, 64000] and metrics in [1, 16],
    the encoder ([empty_rip_packet] followed by one [rip_entry] per element
    of [E]) succeeds, and decoding its bytes gives back the router-id and
    exactly [E]. *)
Theorem decode_encode_roundtrip (self : RipManager.t) (E : list RipEntry.t) :
  routerid_is_valid (RipManager.our_routerid self) = true ->
  (1 <= length E <= 25)%nat ->
  Forall entry_valid E ->
  exists packet,
    encode self E = Ok packet /\
    RipPacket.init packet =
    Ok {| RipPacket.routerid := RipManager.our_routerid self; RipPacket.entries := E |}.
Proof.
  intros Hr Hn HE.
  exists (header_layout (RipManager.our_routerid self) ++ concat (layouts E)).
  assert (Hr' := Hr). unfold routerid_is_valid in Hr'.
  apply andb_prop in Hr'. destruct Hr' as [H1 H2]. apply Z.leb_le in H1, H2.
  split.
  - unfold encode. rewrite empty_rip_packet_ok by (cbn; lia). cbn [bind_res].
    apply append_entries_ok, HE.
  - destruct (header_layout_ok (RipManager.our_routerid self) (layouts E) Hr (layouts_length E))
      as (Hok & Hid & Hw).
    { unfold layouts. rewrite length_map. exact Hn. }
    rewrite (RipPacket_init_valid _ Hok), Hid, Hw, (layouts_decode E HE). reflexivity.
Qed.

(** ** The update rule *)

Import RoutingTableEntry.

(** C3. [update_entry] called with the stored next-hop always succeeds,
    reads the clock once, sets [time_update_due] to that reading plus
    [ENTRY_TIMEOUT_DELAY] and stores [new_metric] whatever it is (16
    included, and a value below 16 after 16); [time_deletion_due] is
    cleared when the resulting metric is below 16 and is left as it was
    otherwise. *)
Theorem update_entry_same_next_hop (self : RoutingTableEntry.t) (new_metric : Z) (w : World) :
  exists reason,
    update_entry self (next_hop self) new_metric w =
    Ok (reason,
        {| next_hop := next_hop self;
           metric := new_metric;
           time_update_due := (clock w (ticks w) + ENTRY_TIMEOUT_DELAY)%float;
           time_deletion_due :=
             if new_metric <? INFINITE_METRIC then None else time_deletion_due self |},
        tick w).
Proof.
  destruct self as [nh m tud tdd].
  unfold update_entry, choose_update, refresh_timeouts, bind, ret, time, tick.
  cbn [next_hop metric time_update_due time_deletion_due].
  rewrite Z.eqb_refl.
  destruct (m =? new_metric) eqn:E; cbn [negb].
  - apply Z.eqb_eq in E. subst m.
    unfold set_time_update_due, set_time_deletion_due.
    cbn [next_hop metric time_update_due time_deletion_due].
    destruct (new_metric <? INFINITE_METRIC); eexists; reflexivity.
  - unfold set_time_update_due, set_time_deletion_due, set_metric.
    cbn [next_hop metric time_update_due time_deletion_due].
    destruct (new_metric <? INFINITE_METRIC); eexists; reflexivity.
Qed.

(** C2. [update_entry] called with a next-hop other than the stored one and
    a metric that is not strictly smaller than the stored one: when
    [new_metric] equals the stored metric, is not 16, and [time_update_due]
    minus the clock reading is at most [ENTRY_TIMEOUT_DELAY / 2], the entry
    adopts the new next-hop and its timers are refreshed
    ([time_update_due] becomes the next clock reading plus
    [ENTRY_TIMEOUT_DELAY], and [time_deletion_due] is cleared as the metric
    is below 16 or kept otherwise); in every other case no reason is
    returned and the entry is exactly as before. *)
Theorem update_entry_other_next_hop (self : RoutingTableEntry.t)
        (new_next_hop new_metric : Z) (w : World) :
  new_next_hop <> next_hop self ->
  metric self <= new_metric ->
  if (new_metric =? metric self) && negb (new_metric =? 16)
     && (time_update_due self - clock w (ticks w) <=? ENTRY_TIMEOUT_DELAY / 2)%float
  then exists reason,
      update_entry self new_next_hop new_metric w =
      Ok (Some reason,
          {| next_hop := new_next_hop;
             metric := metric self;
             time_update_due := (clock w (S (ticks w)) + ENTRY_TIMEOUT_DELAY)%float;
             time_deletion_due :=
               if metric self <? INFINITE_METRIC then None else time_deletion_due self |},
          tick (tick w))
  else exists w', update_entry self new_next_hop new_metric w = Ok (None, self, w').
Proof.
  intros Hhop Hmetric.
  destruct self as [nh m tud tdd].
  cbn [next_hop metric time_update_due time_deletion_due] in *.
  unfold update_entry, choose_update, over_halfway_to_update_due, refresh_timeouts,
    bind, ret, time, tick, INFINITE_METRIC.
  cbn [next_hop metric time_update_due time_deletion_due ticks clock].
  destruct (new_next_hop =? nh) eqn:E1; [apply Z.eqb_eq in E1; contradiction|].
  destruct (new_metric <? m) eqn:E2; [apply Z.ltb_lt in E2; lia|].
  rewrite (andb_comm (new_metric =? m)).
  destruct (negb (new_metric =? 16) && (new_metric =? m)) eqn:E3; cbn [andb].
  - apply andb_prop in E3. destruct E3 as [_ E3]. apply Z.eqb_eq in E3. subst new_metric.
    destruct (tud - clock w (ticks w) <=? ENTRY_TIMEOUT_DELAY / 2)%float.
    + unfold set_time_update_due, set_time_deletion_due, set_metric, set_next_hop.
      cbn [next_hop metric time_update_due time_deletion_due].
      destruct (m <? 16); eexists; reflexivity.
    + eexists; reflexivity.
  - eexists; reflexivity.
Qed.

(** ** The routing table *)

Lemma dict_set_new {V} k (v : V) d :
  dict_get k d = None -> dict_set k v d = d ++ [(k, v)].
Proof.
  induction d as [|[k' v'] d IH]; cbn; [reflexivity|].
  destruct (k' =? k); [discriminate|]. intros H. rewrite IH by exact H. reflexivity.
Qed.

Lemma update_entry_total (self : RoutingTableEntry.t) (next_hop new_metric : Z) (w : World) :
  exists reason self' w', update_entry self next_hop new_metric w = Ok (reason, self', w').
Proof.
  unfold update_entry, choose_update, over_halfway_to_update_due, refresh_timeouts,
    bind, ret, time.
  repeat match goal with
         | |- context [if ?b then _ else _] => destruct b
         end; eauto.
Qed.

(** C7. [add_to_table(destination, next_hop, m)]: for the manager's own
    router-id nothing changes; for a destination already in the table the
    entry's [update_entry(next_hop, m)] is run and its result stored under
    the same key; for an unknown destination a new entry
    [(next_hop, m, now + ENTRY_TIMEOUT_DELAY, no deletion time)] is appended
    when [m < 16], and nothing changes when [m >= 16]. *)
Theorem add_to_table_cases (self : RipManager.t) (destination next_hop m : Z) (w : World) :
  if destination =? RipManager.our_routerid self
  then RipManager.add_to_table self destination next_hop m w = Ok (self, w)
  else match dict_get destination (RipManager.routing_table self) with
       | Some entry =>
           exists reason entry' w',
             update_entry entry next_hop m w = Ok (reason, entry', w') /\
             RipManager.add_to_table self destination next_hop m w =
             Ok (RipManager.set_routing_table
                   (dict_set destination entry' (RipManager.routing_table self)) self, w')
       | None =>
           if m <? 16
           then RipManager.add_to_table self destination next_hop m w =
                Ok (RipManager.set_routing_table
                      (RipManager.routing_table self ++
                       [(destination,
                         {| RoutingTableEntry.next_hop := next_hop;
                            metric := m;
                            time_update_due := (clock w (ticks w) + ENTRY_TIMEOUT_DELAY)%float;
                            time_deletion_due := None |})]) self,
                    tick w)
           else RipManager.add_to_table self destination next_hop m w = Ok (self, w)
       end.
Proof.
  unfold RipManager.add_to_table.
  destruct (destination =? RipManager.our_routerid self); [reflexivity|].
  destruct (dict_get destination (RipManager.routing_table self)) as [entry|] eqn:G.
  - destruct (update_entry_total entry next_hop m w) as (reason & entry' & w' & H).
    exists reason, entry', w'. split; [exact H|].
    unfold bind. rewrite H. reflexivity.
  - unfold INFINITE_METRIC. destruct (m <? 16); [|reflexivity].
    unfold bind, RoutingTableEntry.init, time, ret, tick. cbn.
    rewrite (dict_set_new _ _ _ G). reflexivity.
Qed.

(** ** Invariants along a run *)

Lemma bind_Ok {A B} (c : M A) (k : A -> M B) w b w' :
  bind c k w = Ok (b, w') ->
  exists a w1, c w = Ok (a, w1) /\ k a w1 = Ok (b, w').
Proof.
  unfold bind. destruct (c w) as [[a w1]|e]; [eauto | discriminate].
Qed.

Lemma lift_Ok {A} (c : res A) w b w' : lift c w = Ok (b, w') -> c = Ok b /\ w = w'.
Proof. unfold lift. destruct c; intros H; inversion H. auto. Qed.

Ltac inv_M :=
  repeat match goal with
         | H : bind _ _ _ = Ok _ |- _ =>
             let a := fresh "a" in let w := fresh "w" in
             let H1 := fresh "H" in let H2 := fresh "H" in
             apply bind_Ok in H; destruct H as (a & w & H1 & H2)
         | H : ret _ _ = Ok _ |- _ => unfold ret in H
         | H : lift _ _ = Ok _ |- _ => apply lift_Ok in H; destruct H; subst
         | H : Ok _ = Ok _ |- _ => inversion H; clear H; subst
         | H : Raise _ = Ok _ |- _ => discriminate H
         end.

Lemma dict_get_In {V} k (v : V) d : dict_get k d = Some v -> In (k, v) d.
Proof.
  induction d as [|[k' v'] d IH]; cbn; [discriminate|].
  destruct (k' =? k) eqn:E.
  - apply Z.eqb_eq in E. intros H. inversion H. subst. auto.
  - auto.
Qed.

Lemma dict_set_Forall {V} (Q : Z * V -> Prop) k v d :
  Forall Q d -> Q (k, v) -> Forall Q (dict_set k v d).
Proof.
  intros Hd Hv. induction Hd as [|[k' v'] d Hx Hd IH]; cbn.
  - auto.
  - destruct (k' =? k) eqn:E.
    + apply Z.eqb_eq in E. subst. auto.
    + auto.
Qed.

Lemma dict_del_Forall {V} (Q : Z * V -> Prop) k d : forall d',
  Forall Q d -> dict_del k d = Ok d' -> Forall Q d'.
Proof.
  induction d as [|[k' v'] d IH]; cbn; intros d' Hd H; [discriminate|].
  inversion Hd; subst.
  destruct (k' =? k).
  - inversion H; subst. assumption.
  - destruct (dict_del k d) as [d''|]; cbn in H; [|discriminate].
    inversion H; subst. auto.
Qed.

Lemma delete_entries_Forall (Q : Z * RoutingTableEntry.t -> Prop) to_delete :
  forall table table',
    Forall Q table -> RipManager.delete_entries to_delete table = Ok table' -> Forall Q table'.
Proof.
  induction to_delete as [|k ks IH]; cbn; intros table table' Ht H.
  - inversion H; subst. assumption.
  - destruct (dict_del k table) as [t1|] eqn:E; cbn in H; [|discriminate].
    eapply IH; [|exact H]. eapply dict_del_Forall; eauto.
Qed.

Lemma entry_ok_valid c : entry_ok c = true -> entry_valid (entry_of c).
Proof.
  unfold entry_ok, entry_valid, entry_of, routerid_is_valid, metric_is_valid. cbn.
  intros H. repeat (apply andb_prop in H; destruct H as [H ?]).
  split; apply andb_true_intro; auto.
Qed.

Lemma RipPacket_init_entries_valid packet pkt :
  RipPacket.init packet = Ok pkt -> Forall entry_valid (RipPacket.entries pkt).
Proof.
  intros H. destruct (header_ok packet) eqn:Hok.
  - rewrite (RipPacket_init_valid packet Hok) in H. inversion H; subst. cbn.
    apply Forall_map, Forall_forall. intros c Hc.
    apply filter_In in Hc. apply entry_ok_valid, Hc.
  - destruct (proj2 (validate_rip_packet_spec packet) Hok) as [a Ha].
    unfold RipPacket.init in H. rewrite Ha in H. discriminate.
Qed.

Lemma RipPacket_init_routerid_valid packet pkt :
  RipPacket.init packet = Ok pkt -> routerid_is_valid (RipPacket.routerid pkt) = true.
Proof.
  intros H. destruct (header_ok packet) eqn:Hok.
  - rewrite (RipPacket_init_valid packet Hok) in H. inversion H; subst. cbn.
    unfold header_ok in Hok. unfold routerid_is_valid.
    repeat (apply andb_prop in Hok; destruct Hok as [Hok ?]).
    apply andb_true_intro. auto.
  - destruct (proj2 (validate_rip_packet_spec packet) Hok) as [a Ha].
    unfold RipPacket.init in H. rewrite Ha in H. discriminate.
Qed.

Lemma send_response_messages_fields self w self' w' :
  RipManager.send_response_messages self w = Ok (self', w') ->
  RipManager.our_routerid self' = RipManager.our_routerid self /\
  RipManager.output_routers self' = RipManager.output_routers self /\
  RipManager.routing_table self' = RipManager.routing_table self.
Proof.
  unfold RipManager.send_response_messages. intros H. inv_M. auto.
Qed.

(** A property [P destination entry] of the table's items is kept by every
    method of the manager once it is kept by the three ways an entry is
    written: [update_entry] and [RoutingTableEntry.init] with a metric that
    [add_to_table] can be handed ([okm]), and [begin_deletion]. *)
Section TableInvariant.
Variable our : Z.
Variable outs : list (Z * (Z * Z)).
Variable okm : Z -> Prop.
Variable P : Z -> RoutingTableEntry.t -> Prop.

Hypothesis okm_link : forall router port m,
    In (router, (port, m)) outs ->
    okm m /\ forall adv, 1 <= adv <= 16 -> okm (Z.min (m + adv) INFINITE_METRIC).
Hypothesis P_update : forall d e nh m w r e' w',
    P d e -> okm m -> update_entry e nh m w = Ok (r, e', w') -> P d e'.
Hypothesis P_init : forall d nh m w e w',
    d <> our -> routerid_is_valid d = true -> okm m -> m < INFINITE_METRIC ->
    RoutingTableEntry.init nh m w = Ok (e, w') -> P d e.
Hypothesis P_begin : forall d e w e' w',
    P d e -> begin_deletion e w = Ok (e', w') -> P d e'.

Lemma add_to_table_inv self d nh m w self' w' :
  manager_inv our outs P self -> routerid_is_valid d = true -> okm m ->
  RipManager.add_to_table self d nh m w = Ok (self', w') ->
  manager_inv our outs P self'.
Proof.
  intros (Hour & Houts & Ht) Hd Hm H. unfold RipManager.add_to_table in H.
  destruct (d =? RipManager.our_routerid self) eqn:E; [inv_M; repeat split; auto|].
  apply Z.eqb_neq in E. rewrite Hour in E.
  destruct (dict_get d (RipManager.routing_table self)) as [entry|] eqn:G.
  - inv_M. destruct a as [reason entry']. inv_M.
    repeat split; auto. cbn.
    apply dict_set_Forall; [exact Ht|]. cbn.
    apply dict_get_In in G.
    unfold table_all in Ht. rewrite Forall_forall in Ht.
    eapply P_update; [exact (Ht _ G) | exact Hm | eassumption].
  - destruct (m <? INFINITE_METRIC) eqn:L; [|inv_M; repeat split; auto].
    apply Z.ltb_lt in L. inv_M.
    repeat split; auto. cbn.
    apply dict_set_Forall; [exact Ht|]. cbn. eapply P_init; eauto.
Qed.

Lemma add_entries_to_table_inv nh link entries : forall self w self' w',
  manager_inv our outs P self ->
  (forall adv, 1 <= adv <= 16 -> okm (Z.min (link + adv) INFINITE_METRIC)) ->
  Forall entry_valid entries ->
  RipManager.add_entries_to_table self nh link entries w = Ok (self', w') ->
  manager_inv our outs P self'.
Proof.
  induction entries as [|e entries IH]; cbn; intros self w self' w' Hinv Hlink Hall H.
  - inv_M. assumption.
  - inversion Hall as [|? ? [Hid He] Hrest]; subst. inv_M.
    eapply IH; [| exact Hlink | exact Hrest | eassumption].
    eapply add_to_table_inv; [exact Hinv | exact Hid | | eassumption].
    apply Hlink. unfold metric_is_valid in He.
    apply andb_prop in He. destruct He as [Hlo Hhi]. apply Z.leb_le in Hlo, Hhi. lia.
Qed.

Lemma incoming_message_inv self message w self' w' :
  manager_inv our outs P self ->
  RipManager.incoming_message self message w = Ok (self', w') ->
  manager_inv our outs P self'.
Proof.
  intros Hinv H. unfold RipManager.incoming_message in H.
  destruct (RipPacket.init message) as [pkt|e] eqn:D.
  - destruct (dict_get (RipPacket.routerid pkt) (RipManager.output_routers self))
      as [[port link]|] eqn:G; [|inv_M; assumption].
    apply dict_get_In in G. destruct Hinv as (Hour & Houts & Ht).
    rewrite Houts in G. destruct (okm_link _ _ _ G) as [Hl Hadv].
    inv_M.
    eapply add_entries_to_table_inv;
      [| exact Hadv | eapply RipPacket_init_entries_valid; exact D | eassumption].
    eapply add_to_table_inv;
      [| eapply RipPacket_init_routerid_valid; exact D | exact Hl | eassumption].
    repeat split; assumption.
  - destruct e; inv_M; try assumption; cbn in H; discriminate.
Qed.

Lemma check_entries_inv items : forall to_delete pending w items' to_delete' pending' w',
  table_all P items ->
  RipManager.check_entries items to_delete pending w = Ok (items', to_delete', pending', w') ->
  table_all P items'.
Proof.
  unfold table_all.
  induction items as [|[d e] items IH]; cbn [RipManager.check_entries];
    intros to_delete pending w items' to_delete' pending' w' Hall H.
  - inv_M. constructor.
  - inversion Hall as [|? ? Hx Hrest]; subst. cbn in Hx.
    apply bind_Ok in H. destruct H as (delete & w1 & _ & H).
    destruct delete.
    + apply bind_Ok in H. destruct H as ([[i1 t1] p1] & w2 & Hrec & H).
      unfold ret in H. inversion H; subst.
      constructor; [exact Hx | eapply IH; eauto].
    + apply bind_Ok in H. destruct H as (begin & w2 & _ & H).
      destruct begin.
      * apply bind_Ok in H. destruct H as (e' & w3 & He & H).
        apply bind_Ok in H. destruct H as ([[i1 t1] p1] & w4 & Hrec & H).
        unfold ret in H. inversion H; subst.
        constructor; [cbn; eapply P_begin; eauto | eapply IH; eauto].
      * apply bind_Ok in H. destruct H as ([[i1 t1] p1] & w3 & Hrec & H).
        unfold ret in H. inversion H; subst.
        constructor; [exact Hx | eapply IH; eauto].
Qed.

Lemma send_any_updates_inv self w self' w' :
  manager_inv our outs P self ->
  RipManager.send_any_updates self w = Ok (self', w') ->
  manager_inv our outs P self'.
Proof.
  intros (Hour & Houts & Ht) H. unfold RipManager.send_any_updates in H.
  apply bind_Ok in H. destruct H as ([[table to_delete] pending] & w1 & Hcheck & H).
  apply bind_Ok in H. destruct H as (table' & w2 & Hdel & H).
  apply lift_Ok in Hdel. destruct Hdel as [Hdel _].
  apply bind_Ok in H. destruct H as (now & w3 & _ & H).
  apply bind_Ok in H. destruct H as (triggered & w4 & _ & H).
  assert (Hinv : manager_inv our outs P
                   (RipManager.set_triggered_update_pending pending
                      (RipManager.set_routing_table table' self))).
  { repeat split; auto. cbn.
    eapply delete_entries_Forall; [|exact Hdel].
    eapply check_entries_inv; eauto. }
  match type of H with
  | (if ?b then _ else _) _ = Ok _ => destruct b
  end.
  - apply send_response_messages_fields in H. destruct H as (F1 & F2 & F3).
    destruct Hinv as (I1 & I2 & I3).
    repeat split; [rewrite F1; exact I1 | rewrite F2; exact I2 | rewrite F3; exact I3].
  - unfold ret in H. inversion H; subst. exact Hinv.
Qed.

End TableInvariant.

Lemma reachable_manager_inv config (okm : Z -> Prop) (P : Z -> RoutingTableEntry.t -> Prop) :
  (forall router port m,
      In (router, (port, m)) (outputs config) ->
      okm m /\ forall adv, 1 <= adv <= 16 -> okm (Z.min (m + adv) INFINITE_METRIC)) ->
  (forall d e nh m w r e' w',
      P d e -> okm m -> update_entry e nh m w = Ok (r, e', w') -> P d e') ->
  (forall d nh m w e w',
      d <> router_id config -> routerid_is_valid d = true -> okm m -> m < INFINITE_METRIC ->
      RoutingTableEntry.init nh m w = Ok (e, w') -> P d e) ->
  (forall d e w e' w', P d e -> begin_deletion e w = Ok (e', w') -> P d e') ->
  forall self w,
    reachable config self w ->
    manager_inv (router_id config) (outputs config) P self.
Proof.
  intros Hlink Hupd Hinit Hbegin self w R.
  induction R as [w self w' H | | self w message self' w' _ IH H | self w self' w' _ IH H].
  - unfold RipManager.init in H. inv_M. repeat split; constructor.
  - assumption.
  - eapply incoming_message_inv; eauto.
  - eapply send_any_updates_inv; eauto.
Qed.

(** C9. In every state the manager reaches, whatever datagrams it is
    handed (those advertising its own router-id included), its router-id is
    the configured one and no key of the routing table equals it. *)
Theorem routing_table_excludes_self (config : Config) (self : RipManager.t) (w : World) :
  reachable config self w ->
  RipManager.our_routerid self = router_id config /\
  Forall (fun destination => destination <> RipManager.our_routerid self)
         (keys (RipManager.routing_table self)).
Proof.
  intros R.
  destruct (reachable_manager_inv config (fun _ => True)
              (fun d _ => d <> router_id config)) with (self := self) (w := w)
    as (Hour & _ & Ht); auto.
  split; [exact Hour|]. rewrite Hour.
  unfold keys. apply Forall_map. exact Ht.
Qed.

Lemma update_entry_keeps_entry_inv e nh m w r e' w' :
  metric_in_range e /\ deletion_means_infinite e ->
  1 <= m <= 16 ->
  update_entry e nh m w = Ok (r, e', w') ->
  metric_in_range e' /\ deletion_means_infinite e'.
Proof.
  destruct e as [nh0 m0 tud tdd].
  unfold metric_in_range, deletion_means_infinite, deletion_process_underway, INFINITE_METRIC.
  cbn [next_hop metric time_update_due time_deletion_due].
  intros [Hr Hd] Hm.
  unfold update_entry, choose_update, over_halfway_to_update_due, refresh_timeouts,
    bind, ret, time, INFINITE_METRIC,
    set_time_update_due, set_time_deletion_due, set_metric, set_next_hop.
  cbn [next_hop metric time_update_due time_deletion_due].
  repeat match goal with
         | |- context [if ?b then _ else _] => destruct b eqn:?; cbn [negb andb]
         end;
    intros H; inversion H; subst; clear H;
    cbn [next_hop metric time_update_due time_deletion_due] in *;
    repeat match goal with
           | H : _ && _ = true |- _ => apply andb_prop in H; destruct H
           | H : negb _ = true |- _ => apply negb_true_iff in H
           | H : negb _ = false |- _ => apply negb_false_iff in H
           | H : (_ =? _) = true |- _ => apply Z.eqb_eq in H
           | H : (_ =? _) = false |- _ => apply Z.eqb_neq in H
           | H : (_ <? _) = true |- _ => apply Z.ltb_lt in H
           | H : (_ <? _) = false |- _ => apply Z.ltb_ge in H
           end;
    split; try lia; try (intros; discriminate); try (intros; lia); auto;
    intros _; apply Hd;
    match goal with E : tdd = Some _ |- _ => rewrite E end; reflexivity.
Qed.

Lemma reachable_entry_inv config self w :
  link_metrics_valid config ->
  reachable config self w ->
  table_all (fun _ e => metric_in_range e /\ deletion_means_infinite e)
            (RipManager.routing_table self).
Proof.
  intros Hcfg R.
  destruct (reachable_manager_inv config (fun m => 1 <= m <= 16)
              (fun _ e => metric_in_range e /\ deletion_means_infinite e))
    with (self := self) (w := w) as (_ & _ & Ht); auto.
  - intros router port m Hin. specialize (Hcfg _ _ _ Hin).
    unfold metric_is_valid in Hcfg. apply andb_prop in Hcfg.
    destruct Hcfg as [H1 H2]. apply Z.leb_le in H1, H2.
    unfold INFINITE_METRIC. split; intros; lia.
  - intros d e nh m w0 r e' w' HP Hm H. eapply update_entry_keeps_entry_inv; eauto.
  - intros d nh m w0 e w' _ _ Hm _ H.
    unfold RoutingTableEntry.init in H. inv_M.
    unfold metric_in_range, deletion_means_infinite. cbn. split; [lia | discriminate].
  - intros d e w0 e' w' _ H.
    unfold begin_deletion in H. inv_M.
    unfold metric_in_range, deletion_means_infinite, INFINITE_METRIC. cbn.
    split; [lia | reflexivity].
Qed.

(** C4. With a validated configuration (link metrics in [1, 16]), in every
    state the manager reaches an entry whose [time_deletion_due] is set has
    metric 16.  [begin_deletion], called on an entry whose deletion is not
    underway, sets the metric to 16 and [time_deletion_due] to the clock
    reading plus [GARBAGE_COLLECTION_DELAY]; and an [update_entry] whose
    branch asks for the timers to be refreshed and leaves a metric below 16
    returns an entry with [time_deletion_due] cleared. *)
Theorem deletion_due_means_metric_16 (config : Config) (self : RipManager.t) (w : World) :
  link_metrics_valid config ->
  reachable config self w ->
  table_all (fun _ e => deletion_process_underway e = true -> metric e = 16)
            (RipManager.routing_table self) /\
  (forall e w0,
      deletion_process_underway e = false ->
      begin_deletion e w0 =
      Ok ({| next_hop := next_hop e;
             metric := 16;
             time_update_due := time_update_due e;
             time_deletion_due :=
               Some (clock w0 (ticks w0) + GARBAGE_COLLECTION_DELAY)%float |},
          tick w0)) /\
  (forall e nh m w0 reason e1 w1,
      choose_update e nh m w0 = Ok (reason, true, e1, w1) ->
      metric e1 < 16 ->
      exists e', update_entry e nh m w0 = Ok (reason, e', tick w1) /\
                 metric e' = metric e1 /\
                 time_deletion_due e' = None).
Proof.
  intros Hcfg R. split; [|split].
  - pose proof (reachable_entry_inv config self w Hcfg R) as H.
    unfold table_all in *. eapply Forall_impl; [|exact H].
    intros [d e] [_ Hd]. exact Hd.
  - intros e w0 Hu. unfold begin_deletion, bind, lift, assert. rewrite Hu. reflexivity.
  - intros e nh m w0 reason e1 w1 Hc Hlt.
    unfold update_entry, bind. rewrite Hc.
    unfold refresh_timeouts, bind, time, ret, INFINITE_METRIC. cbn [metric set_time_update_due].
    apply Z.ltb_lt in Hlt. rewrite Hlt.
    eexists. split; [reflexivity|]. split; reflexivity.
Qed.

(** ** Assertions while sending updates *)

Lemma should_delete_spec e w :
  exists b w', should_delete e w = Ok (b, w') /\
               (b = true -> deletion_process_underway e = true).
Proof.
  unfold should_delete, deletion_process_underway, bind, time, ret.
  destruct (time_deletion_due e); eexists; eexists; (split; [reflexivity|]); auto.
Qed.

Lemma should_begin_deletion_spec e w :
  exists b w', should_begin_deletion e w = Ok (b, w') /\
               (b = true -> deletion_process_underway e = false).
Proof.
  unfold should_begin_deletion, bind, time, ret.
  destruct (deletion_process_underway e); cbn [negb].
  - eexists; eexists; (split; [reflexivity|]); discriminate.
  - destruct (INFINITE_METRIC <=? metric e);
      eexists; eexists; (split; [reflexivity|]); auto.
Qed.

Lemma begin_deletion_ok e w :
  deletion_process_underway e = false -> exists e' w', begin_deletion e w = Ok (e', w').
Proof.
  intros Hu. unfold begin_deletion, bind, lift, assert, time, ret. rewrite Hu.
  eexists; eexists; reflexivity.
Qed.

Lemma check_entries_total items : forall to_delete pending w,
  exists r w', RipManager.check_entries items to_delete pending w = Ok (r, w').
Proof.
  induction items as [|[d e] items IH]; intros to_delete pending w;
    cbn [RipManager.check_entries].
  - eexists; eexists; reflexivity.
  - destruct (should_delete_spec e w) as (b1 & w1 & Hsd & _).
    unfold bind at 1. rewrite Hsd. destruct b1.
    + destruct (IH (to_delete ++ [d]) true w1) as ([[i1 t1] p1] & w2 & Hrec).
      unfold bind. rewrite Hrec. eexists; eexists; reflexivity.
    + destruct (should_begin_deletion_spec e w1) as (b2 & w2 & Hsb & Hnot).
      unfold bind at 1. rewrite Hsb. destruct b2.
      * destruct (begin_deletion_ok e w2 (Hnot eq_refl)) as (e' & w3 & Hb).
        unfold bind at 1. rewrite Hb.
        destruct (IH to_delete true w3) as ([[i1 t1] p1] & w4 & Hrec).
        unfold bind. rewrite Hrec. eexists; eexists; reflexivity.
      * destruct (IH to_delete pending w2) as ([[i1 t1] p1] & w3 & Hrec).
        unfold bind. rewrite Hrec. eexists; eexists; reflexivity.
Qed.

Lemma bind_no_assertion {A B} (c : M A) (k : A -> M B) w :
  assertion_failed (c w) = false ->
  (forall a w1, c w = Ok (a, w1) -> assertion_failed (k a w1) = false) ->
  assertion_failed (bind c k w) = false.
Proof.
  unfold bind. destruct (c w) as [[a w1]|e]; intros Hc Hk; [apply Hk; reflexivity | exact Hc].
Qed.

Lemma bind_res_no_assertion {A B} (c : res A) (k : A -> res B) :
  assertion_failed c = false ->
  (forall a, c = Ok a -> assertion_failed (k a) = false) ->
  assertion_failed (bind_res c k) = false.
Proof.
  unfold bind_res. destruct c as [a|e]; intros Hc Hk; [apply Hk; reflexivity | exact Hc].
Qed.

Lemma lift_no_assertion {A} (c : res A) w :
  assertion_failed c = false -> assertion_failed (lift c w) = false.
Proof. unfold lift. destruct c; auto. Qed.

Lemma to_bytes_no_assertion n k : assertion_failed (to_bytes n k) = false.
Proof. unfold to_bytes. destruct (_ || _); reflexivity. Qed.

Lemma rip_entry_no_assertion d m : assertion_failed (rip_entry d m) = false.
Proof.
  unfold rip_entry.
  repeat (apply bind_res_no_assertion; [apply to_bytes_no_assertion | intros ? _]).
  reflexivity.
Qed.

Lemma empty_rip_packet_no_assertion self :
  assertion_failed (RipManager.empty_rip_packet self) = false.
Proof.
  unfold RipManager.empty_rip_packet. cbn.
  apply bind_res_no_assertion; [apply to_bytes_no_assertion | intros ? _]. reflexivity.
Qed.

Lemma add_entries_no_assertion self peer items : forall packets packet,
  assertion_failed (RipManager.add_entries self peer items packets packet) = false.
Proof.
  induction items as [|[d e] items IH]; intros packets packet; cbn [RipManager.add_entries].
  - reflexivity.
  - destruct (RipManager.advertised_metric peer e) as [m|]; [|apply IH].
    apply bind_res_no_assertion.
    + destruct (4 + 20 * 25 <=? len packet); [|reflexivity].
      apply bind_res_no_assertion; [apply empty_rip_packet_no_assertion | reflexivity].
    + intros [ps p] _.
      apply bind_res_no_assertion; [apply rip_entry_no_assertion | intros ? _; apply IH].
Qed.

Lemma build_packets_no_assertion self peer :
  assertion_failed (RipManager.build_packets self peer) = false.
Proof.
  unfold RipManager.build_packets.
  apply bind_res_no_assertion; [apply empty_rip_packet_no_assertion | intros ? _].
  apply bind_res_no_assertion; [apply rip_entry_no_assertion | intros ? _].
  apply bind_res_no_assertion; [apply add_entries_no_assertion | intros [ps p] _].
  reflexivity.
Qed.

Lemma send_packets_total port packets : forall w,
  exists w', RipManager.send_packets port packets w = Ok (tt, w').
Proof.
  induction packets as [|p packets IH]; intros w; cbn [RipManager.send_packets].
  - eexists; reflexivity.
  - assert (Hcheck : try_except_AssertionError
                       (bind_res (RipPacket.init p) (fun _ => Ok tt)) (fun _ => Ok tt) = Ok tt).
    { destruct (header_ok p) eqn:Hok.
      - rewrite (RipPacket_init_valid p Hok). reflexivity.
      - destruct (proj2 (validate_rip_packet_spec p) Hok) as [a Ha].
        unfold RipPacket.init. rewrite Ha. reflexivity. }
    unfold bind at 1. rewrite Hcheck. unfold lift.
    unfold bind at 1. unfold sendto at 1.
    apply IH.
Qed.

Lemma send_to_routers_no_assertion self routers : forall w,
  assertion_failed (RipManager.send_to_routers self routers w) = false.
Proof.
  induction routers as [|[router [port m]] routers IH]; intros w;
    cbn [RipManager.send_to_routers].
  - reflexivity.
  - apply bind_no_assertion.
    + apply lift_no_assertion, build_packets_no_assertion.
    + intros packets w1 _.
      destruct (send_packets_total port packets w1) as [w2 Hs].
      unfold bind at 1. rewrite Hs. apply IH.
Qed.

Lemma send_response_messages_no_assertion self w :
  assertion_failed (RipManager.send_response_messages self w) = false.
Proof.
  unfold RipManager.send_response_messages.
  apply bind_no_assertion; [apply send_to_routers_no_assertion | intros ? ? _].
  reflexivity.
Qed.

Lemma dict_del_no_assertion {V} k (d : list (Z * V)) : assertion_failed (dict_del k d) = false.
Proof.
  induction d as [|[k' v] d IH]; cbn; [reflexivity|].
  destruct (k' =? k); [reflexivity|].
  apply bind_res_no_assertion; [exact IH | reflexivity].
Qed.

Lemma delete_entries_no_assertion to_delete : forall table,
  assertion_failed (RipManager.delete_entries to_delete table) = false.
Proof.
  induction to_delete as [|k ks IH]; intros table; cbn; [reflexivity|].
  apply bind_res_no_assertion; [apply dict_del_no_assertion | intros ? _; apply IH].
Qed.

(** C10. [should_begin_deletion()] and [should_delete()] always return, and
    never both return true for the same entry, at whatever times they are
    evaluated: the first is true only with [time_deletion_due] unset, the
    second only with it set.  The first loop of [send_any_updates] therefore
    always runs to its end, and no call of [send_any_updates] ends in an
    [AssertionError]: the assertion of [begin_deletion] holds every time it
    is reached from there. *)
Theorem begin_deletion_assertion_never_fails :
  (forall e w1 w2,
      exists b1 w1' b2 w2',
        should_delete e w1 = Ok (b1, w1') /\
        should_begin_deletion e w2 = Ok (b2, w2') /\
        b1 && b2 = false /\
        (b1 = true -> time_deletion_due e <> None) /\
        (b2 = true -> time_deletion_due e = None)) /\
  (forall items to_delete pending w,
      exists r w', RipManager.check_entries items to_delete pending w = Ok (r, w')) /\
  (forall self w, assertion_failed (RipManager.send_any_updates self w) = false).
Proof.
  split; [|split].
  - intros e w1 w2.
    destruct (should_delete_spec e w1) as (b1 & w1' & H1 & U1).
    destruct (should_begin_deletion_spec e w2) as (b2 & w2' & H2 & U2).
    exists b1, w1', b2, w2'. repeat split; auto.
    + destruct b1, b2; auto. rewrite U1 in U2 by reflexivity.
      specialize (U2 eq_refl). discriminate.
    + intros Hb. specialize (U1 Hb). unfold deletion_process_underway in U1.
      destruct (time_deletion_due e); [discriminate | discriminate].
    + intros Hb. specialize (U2 Hb). unfold deletion_process_underway in U2.
      destruct (time_deletion_due e); [discriminate | reflexivity].
  - intros. apply check_entries_total.
  - intros self w. unfold RipManager.send_any_updates.
    destruct (check_entries_total (RipManager.routing_table self) []
                (RipManager.triggered_update_pending self) w) as ([[table td] p] & w1 & Hc).
    unfold bind at 1. rewrite Hc.
    apply bind_no_assertion;
      [apply lift_no_assertion, delete_entries_no_assertion | intros table' w2 _].
    apply bind_no_assertion; [reflexivity | intros now w3 _].
    apply bind_no_assertion.
    + cbn [RipManager.triggered_update_pending RipManager.set_triggered_update_pending].
      destruct p; reflexivity.
    + intros triggered w4 _.
      destruct (_ || _); [apply send_response_messages_no_assertion | reflexivity].
Qed.

(** ** The packets of an update *)

Lemma rip_entry_length d m e : rip_entry d m = Ok e -> length e = 20%nat.
Proof.
  unfold rip_entry, to_bytes.
  repeat match goal with
         | |- context [if ?b then _ else _] => destruct b; cbn [bind_res]
         end; intros H; inversion H. reflexivity.
Qed.

Lemma empty_rip_packet_length self p :
  RipManager.empty_rip_packet self = Ok p -> length p = 4%nat.
Proof.
  unfold RipManager.empty_rip_packet, to_bytes. cbn.
  destruct (_ || _); cbn [bind_res]; intros H; inversion H. reflexivity.
Qed.

Lemma add_entries_total self peer items : forall packets packet,
  0 <= RipManager.our_routerid self < 2 ^ 16 ->
  table_all (fun d e => 0 <= d < 2 ^ 32 /\ 0 <= metric e < 2 ^ 32) items ->
  exists r, RipManager.add_entries self peer items packets packet = Ok r.
Proof.
  unfold table_all.
  induction items as [|[d entry] items IH]; intros packets packet Hour Hall;
    cbn [RipManager.add_entries].
  - eexists; reflexivity.
  - inversion Hall as [|? ? [Hd Hm] Hrest]; subst. cbn [fst snd] in Hd, Hm.
    unfold RipManager.advertised_metric, POISONED_REVERSE, INFINITE_METRIC.
    destruct (next_hop entry =? peer).
    + rewrite (empty_rip_packet_ok self Hour), rip_entry_ok by (cbn; lia).
      destruct (4 + 20 * 25 <=? len packet); cbn [bind_res]; apply IH; auto.
    + rewrite (empty_rip_packet_ok self Hour), rip_entry_ok by (cbn; lia).
      destruct (4 + 20 * 25 <=? len packet); cbn [bind_res]; apply IH; auto.
Qed.

(** In a run on a validated configuration the manager's table always fits
    the fields of the wire format, so [build_packets] returns for every
    valid receiver. *)
Lemma reachable_table_fits_the_wire config self w :
  routerid_is_valid (router_id config) = true ->
  link_metrics_valid config ->
  reachable config self w ->
  routerid_is_valid (RipManager.our_routerid self) = true /\
  table_all (fun d e => 0 <= d < 2 ^ 32 /\ 0 <= metric e < 2 ^ 32)
            (RipManager.routing_table self).
Proof.
  intros Hid Hcfg R.
  destruct (reachable_manager_inv config (fun _ => True)
              (fun d _ => routerid_is_valid d = true)) with (self := self) (w := w)
    as (Hour & _ & Hkeys); auto.
  pose proof (reachable_entry_inv config self w Hcfg R) as Hentries.
  split; [rewrite Hour; exact Hid|].
  unfold table_all in *. rewrite Forall_forall in *.
  intros [d e] Hin. specialize (Hkeys _ Hin). destruct (Hentries _ Hin) as [Hm _].
  cbn [fst snd] in *. unfold metric_in_range in Hm. unfold routerid_is_valid in Hkeys.
  apply andb_prop in Hkeys. destruct Hkeys as [K1 K2]. apply Z.leb_le in K1, K2.
  cbn. lia.
Qed.

(** ** The example runs *)

Lemma reaches_bind config (m : M RipManager.t) (k : RipManager.t -> M RipManager.t) w :
  reaches config (m w) ->
  (forall self w1, reachable config self w1 -> reaches config (k self w1)) ->
  reaches config (bind m k w).
Proof.
  intros R K. unfold bind.
  destruct (m w) as [[self w1]|e]; [apply K; exact R | exact I].
Qed.

Lemma reaches_init config w : reaches config (RipManager.init config w).
Proof.
  unfold reaches. destruct (RipManager.init config w) as [[self w1]|e] eqn:E; [|exact I].
  eapply reach_init; exact E.
Qed.

Lemma reaches_incoming_message config self message w :
  reachable config self w -> reaches config (RipManager.incoming_message self message w).
Proof.
  intros R. unfold reaches.
  destruct (RipManager.incoming_message self message w) as [[self' w']|e] eqn:E; [|exact I].
  eapply reach_incoming_message; eauto.
Qed.

Lemma reaches_send_any_updates config self w :
  reachable config self w -> reaches config (RipManager.send_any_updates self w).
Proof.
  intros R. unfold reaches.
  destruct (RipManager.send_any_updates self w) as [[self' w']|e] eqn:E; [|exact I].
  eapply reach_send_any_updates; eauto.
Qed.

Lemma reachable_ticks config self w n :
  reachable config self w -> reachable config self (Nat.iter n tick w).
Proof.
  intros R. induction n as [|n IH]; cbn; [exact R | apply reach_tick, IH].
Qed.

Lemma demo_run_reaches : reaches demo_config demo_run.
Proof.
  unfold demo_run.
  apply reaches_bind; [apply reaches_init|].
  intros self w R. apply reaches_incoming_message, R.
Qed.

Lemma demo_self_run_reaches : reaches demo_config demo_self_run.
Proof.
  unfold demo_self_run.
  apply reaches_bind; [apply reaches_init|]. intros s1 w1 R1.
  apply reaches_bind; [apply reaches_incoming_message, R1|]. intros s2 w2 R2.
  apply reaches_bind; [apply reaches_send_any_updates, R2|]. intros s3 w3 R3.
  unfold bind at 1.
  apply reaches_send_any_updates, reachable_ticks, R3.
Qed.

Lemma demo_config_link_metrics_valid : link_metrics_valid demo_config.
Proof.
  intros router port m [H|[]]. inversion H. reflexivity.
Qed.

Lemma reaches_Ok config r self w :
  reaches config r -> r = Ok (self, w) -> reachable config self w.
Proof.
  intros R E. rewrite E in R. exact R.
Qed.

(** C1, as stated, fails: router 1, with the single neighbour 2, receives
    one datagram in which 2 advertises 25 destinations.  Its table then
    holds 26 routes, [build_packets(2)] returns two packets, and the second
    one leads with the route to 26, not with [(2, 16)]. *)
Lemma build_packets_second_packet_leads_with_a_route :
  exists self w first second,
    demo_run = Ok (self, w) /\
    reachable demo_config self w /\
    RipManager.build_packets self 2 = Ok [first; second] /\
    leading_entry first = Ok {| RipEntry.routerid := 2; RipEntry.metric := 16 |} /\
    leading_entry second = Ok {| RipEntry.routerid := 26; RipEntry.metric := 16 |} /\
    ~ Forall (fun packet =>
                leading_entry packet = Ok {| RipEntry.routerid := 2; RipEntry.metric := 16 |})
             [first; second].
Proof.
  eexists; eexists; eexists; eexists.
  split; [vm_compute; reflexivity|].
  split; [apply (reaches_Ok _ _ _ _ demo_run_reaches); vm_compute; reflexivity|].
  split; [vm_compute; reflexivity|].
  split; [vm_compute; reflexivity|].
  split; [vm_compute; reflexivity|].
  intros H. inversion H as [|? ? _ H2]; subst.
  inversion H2 as [|? ? H3 _]; subst.
  vm_compute in H3. discriminate H3.
Qed.

(** ** The theorems at the examples *)

(** The route to 5 through 2 at metric 4 is due in 10 of its 30 seconds; an
    advertisement of metric 4 from neighbour 4 takes it over. *)
Lemma update_entry_tie_break_at_demo_entry :
  exists reason,
    update_entry demo_entry 4 4 demo_world =
    Ok (Some reason,
        {| next_hop := 4; metric := 4;
           time_update_due := 1031%float; time_deletion_due := None |},
        tick (tick demo_world)).
Proof.
  exact (update_entry_other_next_hop demo_entry 4 4 demo_world
           ltac:(cbn; lia) ltac:(cbn; lia)).
Defined.

(** Two entries sent by router 1 decode to themselves. *)
Lemma decode_encode_roundtrip_at_demo_manager :
  exists packet,
    encode demo_manager [ {| RipEntry.routerid := 5; RipEntry.metric := 4 |};
                          {| RipEntry.routerid := 9; RipEntry.metric := 16 |} ] = Ok packet /\
    RipPacket.init packet =
    Ok {| RipPacket.routerid := 1;
          RipPacket.entries := [ {| RipEntry.routerid := 5; RipEntry.metric := 4 |};
                                 {| RipEntry.routerid := 9; RipEntry.metric := 16 |} ] |}.
Proof.
  apply (decode_encode_roundtrip demo_manager);
    [reflexivity | cbn; lia | repeat constructor].
Defined.

(** At the end of [demo_self_run] both routes are being deleted, at
    metric 16. *)
Lemma deletion_due_means_metric_16_at_demo_self_run :
  exists self w,
    demo_self_run = Ok (self, w) /\
    map (fun item => deletion_process_underway (snd item)) (RipManager.routing_table self)
    = [true; true] /\
    table_all (fun _ e => deletion_process_underway e = true -> metric e = 16)
              (RipManager.routing_table self).
Proof.
  eexists; eexists.
  split; [vm_compute; reflexivity|].
  split; [vm_compute; reflexivity|].
  refine (proj1 (deletion_due_means_metric_16 demo_config _ _
                   demo_config_link_metrics_valid
                   (reaches_Ok _ _ _ _ demo_self_run_reaches _))).
  vm_compute; reflexivity.
Defined.

(** Router 1 was advertised its own id in [demo_self_run]; its table holds
    the keys 2 and 5 only. *)
Lemma routing_table_excludes_self_at_demo_self_run :
  exists self w,
    demo_self_run = Ok (self, w) /\
    keys (RipManager.routing_table self) = [2; 5] /\
    RipManager.our_routerid self = router_id demo_config /\
    Forall (fun destination => destination <> RipManager.our_routerid self)
           (keys (RipManager.routing_table self)).
Proof.
  eexists; eexists.
  split; [vm_compute; reflexivity|].
  split; [vm_compute; reflexivity|].
  refine (routing_table_excludes_self demo_config _ _
            (reaches_Ok _ _ _ _ demo_self_run_reaches _)).
  vm_compute; reflexivity.
Defined.

(** * Further properties of the code *)

(** ** More on the update rule *)

(** X1. [update_entry] with a next-hop other than the stored one and a strictly
    smaller metric adopts both, reads the clock once to restart the timeout,
    and clears the deletion time when the new metric is below 16. *)
Theorem update_entry_better_metric (self : RoutingTableEntry.t)
        (new_next_hop new_metric : Z) (w : World) :
  new_next_hop <> next_hop self ->
  new_metric < metric self ->
  update_entry self new_next_hop new_metric w =
  Ok (Some (BetterMetric (next_hop self) (metric self) new_next_hop new_metric),
      {| next_hop := new_next_hop;
         metric := new_metric;
         time_update_due := (clock w (ticks w) + ENTRY_TIMEOUT_DELAY)%float;
         time_deletion_due :=
           if new_metric <? INFINITE_METRIC then None else time_deletion_due self |},
      tick w).
Proof.
  intros Hhop Hlt. destruct self as [nh m tud tdd].
  cbn [next_hop metric time_update_due time_deletion_due] in *.
  unfold update_entry, choose_update, refresh_timeouts, bind, ret, time,
    set_time_update_due, set_time_deletion_due, set_metric, set_next_hop.
  cbn [next_hop metric time_update_due time_deletion_due].
  destruct (new_next_hop =? nh) eqn:E1; [apply Z.eqb_eq in E1; contradiction|].
  apply Z.ltb_lt in Hlt. rewrite Hlt.
  cbn [next_hop metric time_update_due time_deletion_due].
  destruct (new_metric <? INFINITE_METRIC); reflexivity.
Qed.

Lemma update_entry_better_metric_at_demo_entry :
  update_entry demo_entry 4 3 demo_world =
  Ok (Some (BetterMetric 2 4 4 3),
      {| next_hop := 4; metric := 3;
         time_update_due := 1030%float; time_deletion_due := None |},
      tick demo_world).
Proof.
  exact (update_entry_better_metric demo_entry 4 3 demo_world
           ltac:(cbn; lia) ltac:(cbn; lia)).
Defined.

Ltac split_update H :=
  unfold update_entry, choose_update, over_halfway_to_update_due, refresh_timeouts,
    bind, ret, time, INFINITE_METRIC,
    set_time_update_due, set_time_deletion_due, set_metric, set_next_hop in H;
  cbn [next_hop metric time_update_due time_deletion_due] in H;
  repeat match type of H with
         | context [if ?b then _ else _] => destruct b eqn:?; cbn [negb andb] in H
         end;
  inversion H; subst; clear H;
  cbn [next_hop metric time_update_due time_deletion_due] in *;
  repeat match goal with
         | H : _ && _ = true |- _ => apply andb_prop in H; destruct H
         | H : negb _ = true |- _ => apply negb_true_iff in H
         | H : negb _ = false |- _ => apply negb_false_iff in H
         | H : (_ =? _) = true |- _ => apply Z.eqb_eq in H
         | H : (_ =? _) = false |- _ => apply Z.eqb_neq in H
         | H : (_ <? _) = true |- _ => apply Z.ltb_lt in H
         | H : (_ <? _) = false |- _ => apply Z.ltb_ge in H
         end.

(** X2. An advertisement from a neighbour other than the stored next-hop never
    raises the stored metric, and the next-hop stays or becomes that
    neighbour. *)
Theorem update_entry_other_next_hop_never_worsens
        (self : RoutingTableEntry.t) (new_next_hop new_metric : Z) (w : World)
        (reason : option Reason) (self' : RoutingTableEntry.t) (w' : World) :
  new_next_hop <> next_hop self ->
  update_entry self new_next_hop new_metric w = Ok (reason, self', w') ->
  metric self' <= metric self /\
  (next_hop self' = next_hop self \/ next_hop self' = new_next_hop).
Proof.
  intros Hhop H. destruct self as [nh m tud tdd].
  cbn [next_hop metric] in *.
  split_update H; try contradiction; split; auto; lia.
Qed.

Lemma update_entry_other_next_hop_never_worsens_at_demo_entry :
  metric {| next_hop := 2; metric := 4;
            time_update_due := 1010%float; time_deletion_due := None |} <= metric demo_entry /\
  (next_hop {| next_hop := 2; metric := 4;
               time_update_due := 1010%float; time_deletion_due := None |} = next_hop demo_entry \/
   next_hop {| next_hop := 2; metric := 4;
               time_update_due := 1010%float; time_deletion_due := None |} = 4).
Proof.
  apply (update_entry_other_next_hop_never_worsens demo_entry 4 9 demo_world None _ demo_world);
    [cbn; lia | reflexivity].
Defined.

(** X3. [update_entry] returns a reason exactly when it changed the next-hop or
    the metric of the entry. *)
Theorem update_entry_reason_iff_route_changed
        (self : RoutingTableEntry.t) (new_next_hop new_metric : Z) (w : World)
        (reason : option Reason) (self' : RoutingTableEntry.t) (w' : World) :
  update_entry self new_next_hop new_metric w = Ok (reason, self', w') ->
  (reason = None <-> next_hop self' = next_hop self /\ metric self' = metric self).
Proof.
  intros H. destruct self as [nh m tud tdd].
  cbn [next_hop metric] in *.
  split_update H; split; try discriminate; auto; intros [? ?]; try lia; congruence.
Qed.

Lemma update_entry_reason_iff_route_changed_at_demo_entry :
  Some (BetterMetric 2 4 4 3) = None <->
  next_hop {| next_hop := 4; metric := 3;
              time_update_due := 1030%float; time_deletion_due := None |} = next_hop demo_entry /\
  metric {| next_hop := 4; metric := 3;
            time_update_due := 1030%float; time_deletion_due := None |} = metric demo_entry.
Proof.
  apply (update_entry_reason_iff_route_changed demo_entry 4 3 demo_world _ _ (tick demo_world)).
  reflexivity.
Defined.

(** ** More on incoming datagrams *)

Lemma RipPacket_init_cases packet :
  (exists pkt, RipPacket.init packet = Ok pkt /\ header_ok packet = true) \/
  (exists a, RipPacket.init packet = Raise (AssertionError a) /\ header_ok packet = false).
Proof.
  destruct (header_ok packet) eqn:Hok.
  - left. eexists. split; [apply RipPacket_init_valid, Hok | reflexivity].
  - right. destruct (proj2 (validate_rip_packet_spec packet) Hok) as [a Ha].
    exists a. split; [|reflexivity]. unfold RipPacket.init. rewrite Ha. reflexivity.
Qed.

Lemma keys_dict_set_present {V} k (v v0 : V) d :
  dict_get k d = Some v0 -> keys (dict_set k v d) = keys d.
Proof.
  unfold keys. induction d as [|[k' v'] d IH]; cbn; [discriminate|].
  destruct (k' =? k); cbn; [reflexivity|]. intros H. rewrite IH by exact H. reflexivity.
Qed.

Lemma grows_refl self : grows self self.
Proof.
  repeat split. exists nil. rewrite app_nil_r. reflexivity.
Qed.

Lemma grows_trans a b c : grows a b -> grows b c -> grows a c.
Proof.
  intros (A1 & A2 & A3 & A4 & A5 & x & Ax) (B1 & B2 & B3 & B4 & B5 & y & By).
  repeat split; try congruence.
  exists (x ++ y). rewrite By, Ax, app_assoc. reflexivity.
Qed.

Lemma add_to_table_grows self d nh m w :
  exists self' w', RipManager.add_to_table self d nh m w = Ok (self', w') /\ grows self self'.
Proof.
  unfold RipManager.add_to_table.
  destruct (d =? RipManager.our_routerid self).
  { eexists; eexists. split; [reflexivity | apply grows_refl]. }
  destruct (dict_get d (RipManager.routing_table self)) as [entry|] eqn:G.
  - destruct (update_entry_total entry nh m w) as (reason & entry' & w' & H).
    unfold bind. rewrite H. eexists; eexists. split; [reflexivity|].
    repeat split. exists nil. cbn. rewrite app_nil_r.
    eapply keys_dict_set_present; exact G.
  - destruct (m <? INFINITE_METRIC).
    + unfold bind, RoutingTableEntry.init, time, ret.
      eexists; eexists. split; [reflexivity|].
      repeat split. exists [d]. cbn. rewrite (dict_set_new _ _ _ G).
      unfold keys. rewrite map_app. reflexivity.
    + eexists; eexists. split; [reflexivity | apply grows_refl].
Qed.

Lemma add_entries_to_table_grows nh link entries : forall self w,
  exists self' w',
    RipManager.add_entries_to_table self nh link entries w = Ok (self', w') /\ grows self self'.
Proof.
  induction entries as [|e entries IH]; intros self w; cbn [RipManager.add_entries_to_table].
  - eexists; eexists. split; [reflexivity | apply grows_refl].
  - destruct (add_to_table_grows self (RipEntry.routerid e) nh
                (Z.min (link + RipEntry.metric e) INFINITE_METRIC) w) as (s1 & w1 & H1 & G1).
    destruct (IH s1 w1) as (s2 & w2 & H2 & G2).
    unfold bind. rewrite H1. exists s2, w2. split; [exact H2 | eapply grows_trans; eauto].
Qed.

(** X4. [incoming_message] never raises, whatever bytes it is handed and
    whatever the state of the manager; it changes nothing but the routing
    table, where it removes no key and keeps the keys' order. *)
Theorem incoming_message_never_raises (self : RipManager.t) (message : list byte) (w : World) :
  exists self' w',
    RipManager.incoming_message self message w = Ok (self', w') /\
    RipManager.our_routerid self' = RipManager.our_routerid self /\
    RipManager.output_routers self' = RipManager.output_routers self /\
    RipManager.next_periodic_update self' = RipManager.next_periodic_update self /\
    RipManager.triggered_update_pending self' = RipManager.triggered_update_pending self /\
    RipManager.next_triggered_update self' = RipManager.next_triggered_update self /\
    exists added,
      keys (RipManager.routing_table self') = keys (RipManager.routing_table self) ++ added.
Proof.
  assert (G0 := grows_refl self).
  unfold RipManager.incoming_message.
  destruct (RipPacket_init_cases message) as [(pkt & -> & _) | (a & -> & _)].
  - destruct (dict_get (RipPacket.routerid pkt) (RipManager.output_routers self))
      as [[port link]|].
    + destruct (add_to_table_grows self (RipPacket.routerid pkt) (RipPacket.routerid pkt) link w)
        as (s1 & w1 & H1 & G1).
      destruct (add_entries_to_table_grows (RipPacket.routerid pkt) link
                  (RipPacket.entries pkt) s1 w1) as (s2 & w2 & H2 & G2).
      unfold bind. rewrite H1. exists s2, w2. split; [exact H2|].
      exact (grows_trans _ _ _ G1 G2).
    + exists self, w. split; [reflexivity | exact G0].
  - exists self, w. split; [reflexivity | exact G0].
Qed.

(** X5. A datagram whose header fails validation, or whose sender is not a key
    of [output_routers], is dropped: the manager is unchanged and the clock
    is not even read. *)
Theorem incoming_message_drops_invalid_and_unknown
        (self : RipManager.t) (message : list byte) (w : World) :
  header_ok message = false \/
  dict_get (from_bytes (slice 2 4 message)) (RipManager.output_routers self) = None ->
  RipManager.incoming_message self message w = Ok (self, w).
Proof.
  intros H. unfold RipManager.incoming_message.
  destruct (RipPacket_init_cases message) as [(pkt & E & Hok) | (a & -> & _)];
    [|reflexivity].
  destruct H as [H|H]; [congruence|].
  rewrite E. rewrite (RipPacket_init_valid message Hok) in E. inversion E; subst.
  cbn [RipPacket.routerid]. rewrite H. reflexivity.
Qed.

Lemma incoming_message_drops_empty_datagram :
  RipManager.incoming_message demo_manager [] demo_world = Ok (demo_manager, demo_world).
Proof.
  apply (incoming_message_drops_invalid_and_unknown demo_manager [] demo_world).
  left. reflexivity.
Defined.

Lemma dict_get_None_keys {V} k (d : list (Z * V)) :
  dict_get k d = None -> ~ In k (keys d).
Proof.
  unfold keys. induction d as [|[k' v] d IH]; cbn; [tauto|].
  destruct (k' =? k) eqn:E; [discriminate|].
  apply Z.eqb_neq in E. intros H [H1|H1]; [contradiction | exact (IH H H1)].
Qed.

Lemma dict_get_In_keys {V} k (d : list (Z * V)) :
  In k (keys d) -> exists v, dict_get k d = Some v.
Proof.
  unfold keys. induction d as [|[k' v] d IH]; cbn; [tauto|].
  destruct (k' =? k) eqn:E; [eauto|].
  apply Z.eqb_neq in E. intros [H|H]; [contradiction | exact (IH H)].
Qed.

(** X6. A datagram with a valid header from a configured neighbour puts that
    neighbour in the routing table, unless the neighbour carries the
    manager's own id, or is unknown so far and its link has metric 16 or
    more. *)
Theorem incoming_message_learns_sender
        (self : RipManager.t) (message : list byte) (w : World)
        (port link : Z) (self' : RipManager.t) (w' : World) :
  header_ok message = true ->
  dict_get (from_bytes (slice 2 4 message)) (RipManager.output_routers self)
  = Some (port, link) ->
  from_bytes (slice 2 4 message) <> RipManager.our_routerid self ->
  link < INFINITE_METRIC \/
  In (from_bytes (slice 2 4 message)) (keys (RipManager.routing_table self)) ->
  RipManager.incoming_message self message w = Ok (self', w') ->
  In (from_bytes (slice 2 4 message)) (keys (RipManager.routing_table self')).
Proof.
  intros Hok Hout Hself Hnew H.
  unfold RipManager.incoming_message in H.
  rewrite (RipPacket_init_valid message Hok) in H. cbn [RipPacket.routerid RipPacket.entries] in H.
  rewrite Hout in H.
  set (sender := from_bytes (slice 2 4 message)) in *.
  apply bind_Ok in H. destruct H as (s1 & w1 & H1 & H2).
  assert (In sender (keys (RipManager.routing_table s1))) as Hin.
  { unfold RipManager.add_to_table in H1.
    destruct (sender =? RipManager.our_routerid self) eqn:E;
      [apply Z.eqb_eq in E; contradiction|].
    destruct (dict_get sender (RipManager.routing_table self)) as [entry|] eqn:G.
    - apply bind_Ok in H1. destruct H1 as ([reason entry'] & w2 & _ & H1).
      unfold ret in H1. inversion H1; subst.
      cbn [RipManager.routing_table RipManager.set_routing_table].
      rewrite (keys_dict_set_present _ _ _ _ G).
      apply dict_get_In in G. unfold keys. apply (in_map fst) in G. exact G.
    - destruct Hnew as [Hlt | Hin];
        [|destruct (dict_get_In_keys _ _ Hin) as [v Hv]; congruence].
      apply Z.ltb_lt in Hlt. rewrite Hlt in H1.
      apply bind_Ok in H1. destruct H1 as (entry & w2 & _ & H1).
      unfold ret in H1. inversion H1; subst.
      cbn [RipManager.routing_table RipManager.set_routing_table].
      rewrite (dict_set_new _ _ _ G). unfold keys. rewrite map_app.
      apply in_or_app. right. left. reflexivity. }
  destruct (add_entries_to_table_grows sender link
              (map entry_of (filter entry_ok (wire_entries message))) s1 w1)
    as (s2 & w2 & E2 & (_ & _ & _ & _ & _ & added & Hkeys)).
  rewrite E2 in H2. inversion H2; subst.
  rewrite Hkeys. apply in_or_app. left. exact Hin.
Qed.

Lemma incoming_message_learns_sender_at_demo_fresh :
  exists self' w',
    RipManager.incoming_message demo_fresh demo_self_message demo_world = Ok (self', w') /\
    In 2 (keys (RipManager.routing_table self')).
Proof.
  eexists; eexists. split; [vm_compute; reflexivity|].
  refine (incoming_message_learns_sender demo_fresh demo_self_message demo_world
            3000 1 _ _ _ _ _ _ _).
  - vm_compute; reflexivity.
  - vm_compute; reflexivity.
  - vm_compute; discriminate.
  - left. reflexivity.
  - vm_compute; reflexivity.
Defined.

(** ** More invariants of a run *)

Lemma check_entries_keeps_keys items : forall to_delete pending w items' to_delete' pending' w',
  RipManager.check_entries items to_delete pending w = Ok (items', to_delete', pending', w') ->
  keys items' = keys items /\
  Forall2 (fun old new => next_hop (snd new) = next_hop (snd old)) items items' /\
  exists selected,
    to_delete' = to_delete ++ selected /\
    incl selected (keys items) /\
    (NoDup (keys items) -> NoDup selected) /\
    (forall d, In d selected ->
               exists e, In (d, e) items /\ deletion_process_underway e = true).
Proof.
  induction items as [|[d e] items IH]; cbn [RipManager.check_entries];
    intros to_delete pending w items' to_delete' pending' w' H.
  - unfold ret in H. inversion H; subst. repeat split; [constructor|].
    exists nil. rewrite app_nil_r. repeat split; auto.
    + intros x [].
    + intros x [].
  - destruct (should_delete_spec e w) as (b1 & w1 & Hsd & Hu1).
    apply bind_Ok in H. destruct H as (delete & w1' & Hsd' & H).
    rewrite Hsd in Hsd'. inversion Hsd'; subst. clear Hsd'.
    destruct delete.
    + apply bind_Ok in H. destruct H as ([[i1 t1] p1] & w2 & Hrec & H).
      unfold ret in H. inversion H; subst.
      destruct (IH _ _ _ _ _ _ _ Hrec) as (Hk & Hf & sel & Htd & Hincl & Hnd & Hund).
      repeat split.
      * unfold keys in *. cbn. rewrite Hk. reflexivity.
      * constructor; [reflexivity | exact Hf].
      * exists (d :: sel). repeat split.
        -- rewrite Htd, <- app_assoc. reflexivity.
        -- intros x [Hx|Hx]; [left; exact Hx | right; apply Hincl, Hx].
        -- intros Hno. unfold keys in Hno. cbn in Hno. inversion Hno; subst.
           constructor; [intros Hin; apply Hincl in Hin; contradiction | apply Hnd; assumption].
        -- intros x [Hx|Hx].
           ++ subst. exists e. split; [left; reflexivity | apply Hu1; reflexivity].
           ++ destruct (Hund x Hx) as (e0 & Hin & Hu). exists e0. split; [right|]; assumption.
    + apply bind_Ok in H. destruct H as (begin & w2 & _ & H).
      assert (Hcons : forall e' i1 sel td,
                 next_hop e' = next_hop e ->
                 keys i1 = keys items ->
                 Forall2 (fun old new => next_hop (snd new) = next_hop (snd old)) items i1 ->
                 incl sel (keys items) ->
                 (NoDup (keys items) -> NoDup sel) ->
                 (forall d0, In d0 sel ->
                             exists e0, In (d0, e0) items /\ deletion_process_underway e0 = true) ->
                 keys ((d, e') :: i1) = keys ((d, e) :: items) /\
                 Forall2 (fun old new => next_hop (snd new) = next_hop (snd old))
                         ((d, e) :: items) ((d, e') :: i1) /\
                 exists selected,
                   td ++ sel = td ++ selected /\
                   incl selected (keys ((d, e) :: items)) /\
                   (NoDup (keys ((d, e) :: items)) -> NoDup selected) /\
                   (forall d0, In d0 selected ->
                               exists e0, In (d0, e0) ((d, e) :: items) /\
                                          deletion_process_underway e0 = true)).
      { intros e' i1 sel td He' Hk Hf Hincl Hnd Hund. repeat split.
        - unfold keys in *. cbn. rewrite Hk. reflexivity.
        - constructor; [exact He' | exact Hf].
        - exists sel. repeat split.
          + intros x Hx. right. apply Hincl, Hx.
          + intros Hno. unfold keys in Hno. cbn in Hno. inversion Hno; subst.
            apply Hnd. assumption.
          + intros x Hx. destruct (Hund x Hx) as (e0 & Hin & Hu).
            exists e0. split; [right|]; assumption. }
      destruct begin.
      * apply bind_Ok in H. destruct H as (e' & w3 & He & H).
        apply bind_Ok in H. destruct H as ([[i1 t1] p1] & w4 & Hrec & H).
        unfold ret in H. inversion H; subst.
        destruct (IH _ _ _ _ _ _ _ Hrec) as (Hk & Hf & sel & Htd & Hincl & Hnd & Hund).
        rewrite Htd. apply Hcons; auto.
        unfold begin_deletion in He.
        apply bind_Ok in He. destruct He as (u & w5 & _ & He).
        apply bind_Ok in He. destruct He as (now & w6 & _ & He).
        unfold ret in He. inversion He; subst. reflexivity.
      * apply bind_Ok in H. destruct H as ([[i1 t1] p1] & w3 & Hrec & H).
        unfold ret in H. inversion H; subst.
        destruct (IH _ _ _ _ _ _ _ Hrec) as (Hk & Hf & sel & Htd & Hincl & Hnd & Hund).
        rewrite Htd. apply Hcons; auto.
Qed.

Lemma dict_del_ok {V} k (d : list (Z * V)) :
  In k (keys d) -> exists d', dict_del k d = Ok d'.
Proof.
  unfold keys. induction d as [|[k' v] d IH]; cbn; [tauto|].
  destruct (k' =? k) eqn:E; [eauto|].
  apply Z.eqb_neq in E. intros [H|H]; [contradiction|].
  destruct (IH H) as [d' ->]. cbn. eauto.
Qed.

Lemma dict_del_keys {V} k (d : list (Z * V)) : forall d',
  dict_del k d = Ok d' ->
  incl (keys d') (keys d) /\
  (NoDup (keys d) -> NoDup (keys d')) /\
  (forall x, x <> k -> In x (keys d) -> In x (keys d')).
Proof.
  unfold keys. induction d as [|[k' v] d IH]; cbn; intros d' H; [discriminate|].
  destruct (k' =? k) eqn:E.
  - inversion H; subst. apply Z.eqb_eq in E. subst. repeat split.
    + intros x Hx. right. exact Hx.
    + intros Hno. inversion Hno; assumption.
    + intros x Hne [Hx|Hx]; [congruence | exact Hx].
  - destruct (dict_del k d) as [d''|]; cbn in H; [|discriminate].
    inversion H; subst. destruct (IH _ eq_refl) as (Hi & Hn & Hk). cbn. repeat split.
    + intros x [Hx|Hx]; [left; exact Hx | right; apply Hi, Hx].
    + intros Hno. inversion Hno; subst. constructor; [|apply Hn; assumption].
      intros Hin. apply Hi in Hin. contradiction.
    + intros x Hne [Hx|Hx]; [left; exact Hx | right; apply Hk; assumption].
Qed.

Lemma delete_entries_ok to_delete : forall table,
  NoDup to_delete -> incl to_delete (keys table) ->
  exists table', RipManager.delete_entries to_delete table = Ok table'.
Proof.
  induction to_delete as [|k ks IH]; intros table Hno Hincl; cbn.
  - eauto.
  - inversion Hno; subst.
    destruct (dict_del_ok k table) as [t1 Hd1]; [apply Hincl; left; reflexivity|].
    rewrite Hd1. cbn. apply IH; [assumption|].
    intros x Hx. destruct (dict_del_keys _ _ _ Hd1) as (_ & _ & Hk).
    apply Hk; [intros ->; contradiction | apply Hincl; right; exact Hx].
Qed.

Lemma delete_entries_keys to_delete : forall table table',
  RipManager.delete_entries to_delete table = Ok table' ->
  incl (keys table') (keys table) /\
  (NoDup (keys table) -> NoDup (keys table')) /\
  (forall x, ~ In x to_delete -> In x (keys table) -> In x (keys table')).
Proof.
  induction to_delete as [|k ks IH]; cbn; intros table table' H.
  - inversion H; subst. repeat split; auto. intros x Hx; exact Hx.
  - destruct (dict_del k table) as [t1|] eqn:E; cbn in H; [|discriminate].
    destruct (dict_del_keys _ _ _ E) as (Hi1 & Hn1 & Hk1).
    destruct (IH _ _ H) as (Hi2 & Hn2 & Hk2). repeat split.
    + intros x Hx. apply Hi1, Hi2, Hx.
    + intros Hno. apply Hn2, Hn1, Hno.
    + intros x Hx Hin. apply Hk2; [tauto|]. apply Hk1; [|exact Hin].
      intros ->. apply Hx. left. reflexivity.
Qed.

Lemma update_entry_next_hop e nh m w r e' w' :
  update_entry e nh m w = Ok (r, e', w') ->
  next_hop e' = next_hop e \/ next_hop e' = nh.
Proof.
  intros H. destruct e as [nh0 m0 tud tdd]. cbn [next_hop].
  split_update H; auto.
Qed.

Lemma add_to_table_keeps_dict outs self d nh m w self' w' :
  In nh (keys outs) ->
  NoDup (keys (RipManager.routing_table self)) /\
  next_hops_among outs (RipManager.routing_table self) ->
  RipManager.add_to_table self d nh m w = Ok (self', w') ->
  NoDup (keys (RipManager.routing_table self')) /\
  next_hops_among outs (RipManager.routing_table self').
Proof.
  intros Hnh [Hno Hhops] H. unfold RipManager.add_to_table in H.
  destruct (d =? RipManager.our_routerid self);
    [unfold ret in H; inversion H; subst; auto|].
  destruct (dict_get d (RipManager.routing_table self)) as [entry|] eqn:G.
  - apply bind_Ok in H. destruct H as ([reason entry'] & w1 & Hu & H).
    unfold ret in H. inversion H; subst.
    cbn [RipManager.routing_table RipManager.set_routing_table]. split.
    + rewrite (keys_dict_set_present _ _ _ _ G). exact Hno.
    + apply dict_set_Forall; [exact Hhops|]. cbn [fst snd].
      apply dict_get_In in G. unfold next_hops_among, table_all in Hhops.
      rewrite Forall_forall in Hhops. specialize (Hhops _ G). cbn [snd] in Hhops.
      destruct (update_entry_next_hop _ _ _ _ _ _ _ Hu) as [-> | ->]; assumption.
  - destruct (m <? INFINITE_METRIC); [|unfold ret in H; inversion H; subst; auto].
    apply bind_Ok in H. destruct H as (entry & w1 & Hi & H).
    unfold ret in H. inversion H; subst.
    unfold RoutingTableEntry.init, bind, time, ret in Hi. inversion Hi; subst.
    cbn [RipManager.routing_table RipManager.set_routing_table]. split.
    + rewrite (dict_set_new _ _ _ G). unfold keys. rewrite map_app. cbn.
      apply NoDup_app; [exact Hno | repeat constructor; intros [] |].
      intros x Hx [Hd|[]]. subst. exact (dict_get_None_keys _ _ G Hx).
    + apply dict_set_Forall; [exact Hhops|]. cbn. exact Hnh.
Qed.

Lemma add_entries_to_table_keeps_dict outs nh link entries : forall self w self' w',
  In nh (keys outs) ->
  NoDup (keys (RipManager.routing_table self)) /\
  next_hops_among outs (RipManager.routing_table self) ->
  RipManager.add_entries_to_table self nh link entries w = Ok (self', w') ->
  NoDup (keys (RipManager.routing_table self')) /\
  next_hops_among outs (RipManager.routing_table self').
Proof.
  induction entries as [|e entries IH]; cbn [RipManager.add_entries_to_table];
    intros self w self' w' Hnh Hinv H.
  - unfold ret in H. inversion H; subst. exact Hinv.
  - apply bind_Ok in H. destruct H as (s1 & w1 & H1 & H2).
    eapply IH; [exact Hnh | | exact H2].
    eapply add_to_table_keeps_dict; eauto.
Qed.

Lemma incoming_message_keeps_dict self message w self' w' :
  NoDup (keys (RipManager.routing_table self)) /\
  next_hops_among (RipManager.output_routers self) (RipManager.routing_table self) ->
  RipManager.incoming_message self message w = Ok (self', w') ->
  NoDup (keys (RipManager.routing_table self')) /\
  next_hops_among (RipManager.output_routers self) (RipManager.routing_table self').
Proof.
  intros Hinv H. unfold RipManager.incoming_message in H.
  destruct (RipPacket_init_cases message) as [(pkt & E & _) | (a & E & _)]; rewrite E in H;
    [|unfold ret in H; inversion H; subst; exact Hinv].
  destruct (dict_get (RipPacket.routerid pkt) (RipManager.output_routers self))
    as [[port link]|] eqn:G; [|unfold ret in H; inversion H; subst; exact Hinv].
  assert (Hnh : In (RipPacket.routerid pkt) (keys (RipManager.output_routers self))).
  { apply dict_get_In in G. apply (in_map fst) in G. exact G. }
  apply bind_Ok in H. destruct H as (s1 & w1 & H1 & H2).
  eapply add_entries_to_table_keeps_dict; [exact Hnh | | exact H2].
  eapply add_to_table_keeps_dict; eauto.
Qed.

Lemma Forall2_next_hops outs items items' :
  Forall2 (fun old new : Z * RoutingTableEntry.t => next_hop (snd new) = next_hop (snd old))
          items items' ->
  next_hops_among outs items -> next_hops_among outs items'.
Proof.
  unfold next_hops_among, table_all.
  induction 1 as [|x y l l' Hxy _ IH]; intros Hall; [constructor|].
  inversion Hall; subst. constructor; [rewrite Hxy; assumption | auto].
Qed.

Lemma send_any_updates_keeps_dict outs self w self' w' :
  NoDup (keys (RipManager.routing_table self)) /\
  next_hops_among outs (RipManager.routing_table self) ->
  RipManager.send_any_updates self w = Ok (self', w') ->
  NoDup (keys (RipManager.routing_table self')) /\
  next_hops_among outs (RipManager.routing_table self').
Proof.
  intros [Hno Hhops] H. unfold RipManager.send_any_updates in H.
  apply bind_Ok in H. destruct H as ([[table to_delete] pending] & w1 & Hcheck & H).
  apply bind_Ok in H. destruct H as (table' & w2 & Hdel & H).
  apply lift_Ok in Hdel. destruct Hdel as [Hdel _].
  apply bind_Ok in H. destruct H as (now & w3 & _ & H).
  apply bind_Ok in H. destruct H as (triggered & w4 & _ & H).
  destruct (check_entries_keeps_keys _ _ _ _ _ _ _ _ Hcheck) as (Hk & Hf & _).
  destruct (delete_entries_keys _ _ _ Hdel) as (_ & Hn & _).
  assert (Hinv : NoDup (keys table') /\ next_hops_among outs table').
  { split; [apply Hn; rewrite Hk; exact Hno|].
    eapply delete_entries_Forall; [|exact Hdel].
    exact (Forall2_next_hops _ _ _ Hf Hhops). }
  match type of H with
  | (if ?b then _ else _) _ = Ok _ => destruct b
  end.
  - apply send_response_messages_fields in H. destruct H as (_ & _ & F3).
    cbn in F3. rewrite F3. exact Hinv.
  - unfold ret in H. inversion H; subst. exact Hinv.
Qed.

Lemma reachable_fields config self w :
  reachable config self w ->
  RipManager.our_routerid self = router_id config /\
  RipManager.output_routers self = outputs config.
Proof.
  intros R.
  destruct (reachable_manager_inv config (fun _ => True) (fun _ _ => True))
    with (self := self) (w := w) as (H1 & H2 & _); auto.
Qed.

Lemma incoming_message_never_changes_neighbours self message w self' w' :
  RipManager.incoming_message self message w = Ok (self', w') ->
  RipManager.our_routerid self' = RipManager.our_routerid self /\
  RipManager.output_routers self' = RipManager.output_routers self.
Proof.
  intros H. unfold RipManager.incoming_message in H.
  destruct (RipPacket_init_cases message) as [(pkt & E & _) | (a & E & _)]; rewrite E in H;
    [|unfold ret in H; inversion H; subst; auto].
  destruct (dict_get (RipPacket.routerid pkt) (RipManager.output_routers self))
    as [[port link]|]; [|unfold ret in H; inversion H; subst; auto].
  apply bind_Ok in H. destruct H as (s1 & w1 & H1 & H2).
  destruct (add_to_table_grows self (RipPacket.routerid pkt) (RipPacket.routerid pkt) link w)
    as (s1' & w1' & E1 & (A1 & A2 & _)).
  rewrite E1 in H1. inversion H1; subst.
  destruct (add_entries_to_table_grows (RipPacket.routerid pkt) link
              (RipPacket.entries pkt) s1 w1) as (s2 & w2 & E2 & (B1 & B2 & _)).
  rewrite E2 in H2. inversion H2; subst. split; congruence.
Qed.

Lemma reachable_dict config self w :
  reachable config self w ->
  NoDup (keys (RipManager.routing_table self)) /\
  next_hops_among (RipManager.output_routers self) (RipManager.routing_table self).
Proof.
  induction 1 as [w self w' H | | self w message self' w' R IH H | self w self' w' R IH H].
  - unfold RipManager.init in H. apply bind_Ok in H. destruct H as (now & w1 & _ & H).
    unfold ret in H. inversion H; subst. cbn. split; constructor.
  - assumption.
  - destruct (incoming_message_never_changes_neighbours self message w self' w' H) as [_ ->].
    eapply incoming_message_keeps_dict; eauto.
  - assert (F : RipManager.output_routers self' = RipManager.output_routers self).
    { destruct (reachable_fields _ _ _ R) as [_ F1].
      destruct (reachable_fields _ _ _ (reach_send_any_updates _ _ _ _ _ R H)) as [_ F2].
      congruence. }
    rewrite F. eapply send_any_updates_keeps_dict; eauto.
Qed.

(** X7. In every state of a run the routing table is a dict -- no destination
    occurs twice -- and every route goes through a configured neighbour:
    each next-hop is a key of the configuration's [outputs]. *)
Theorem routes_are_unique_and_through_neighbours
        (config : Config) (self : RipManager.t) (w : World) :
  reachable config self w ->
  NoDup (keys (RipManager.routing_table self)) /\
  next_hops_among (outputs config) (RipManager.routing_table self).
Proof.
  intros R.
  destruct (reachable_fields config self w R) as [_ Houts].
  destruct (reachable_dict config self w R) as [Hno Hhops].
  rewrite Houts in Hhops. split; assumption.
Qed.

Lemma routes_are_unique_and_through_neighbours_at_demo_run :
  exists self w,
    demo_run = Ok (self, w) /\
    length (RipManager.routing_table self) = 26%nat /\
    NoDup (keys (RipManager.routing_table self)) /\
    next_hops_among (outputs demo_config) (RipManager.routing_table self).
Proof.
  eexists; eexists.
  split; [vm_compute; reflexivity|].
  split; [vm_compute; reflexivity|].
  refine (routes_are_unique_and_through_neighbours demo_config _ _
            (reaches_Ok _ _ _ _ demo_run_reaches _)).
  vm_compute; reflexivity.
Defined.

(** ** More on sending updates *)

Lemma build_packets_ok self peer :
  0 <= RipManager.our_routerid self < 2 ^ 16 ->
  0 <= peer < 2 ^ 32 ->
  fits_the_wire (RipManager.routing_table self) ->
  exists packets, RipManager.build_packets self peer = Ok packets.
Proof.
  intros Hour Hpeer Hfits. unfold RipManager.build_packets.
  rewrite (empty_rip_packet_ok self Hour), (rip_entry_ok peer INFINITE_METRIC)
    by (unfold INFINITE_METRIC; cbn; lia).
  cbn [bind_res].
  destruct (add_entries_total self peer (RipManager.routing_table self) []
              (header_layout (RipManager.our_routerid self) ++
               entry_layout peer INFINITE_METRIC) Hour Hfits) as [[packets packet] ->].
  cbn. eauto.
Qed.

Lemma send_to_routers_ok self routers : forall w,
  0 <= RipManager.our_routerid self < 2 ^ 16 ->
  fits_the_wire (RipManager.routing_table self) ->
  Forall (fun router => 0 <= fst router < 2 ^ 32) routers ->
  exists w', RipManager.send_to_routers self routers w = Ok (tt, w').
Proof.
  induction routers as [|[router [port m]] routers IH]; intros w Hour Hfits Hall;
    cbn [RipManager.send_to_routers].
  - eexists; reflexivity.
  - inversion Hall as [|? ? Hr Hrest]; subst. cbn [fst] in Hr.
    destruct (build_packets_ok self router Hour Hr Hfits) as [packets Hb].
    unfold bind at 1. rewrite Hb. unfold lift.
    destruct (send_packets_total port packets w) as [w1 Hs].
    unfold bind at 1. rewrite Hs. apply IH; assumption.
Qed.

Lemma send_response_messages_ok self w :
  0 <= RipManager.our_routerid self < 2 ^ 16 ->
  fits_the_wire (RipManager.routing_table self) ->
  Forall (fun router => 0 <= fst router < 2 ^ 32) (RipManager.output_routers self) ->
  exists self' w', RipManager.send_response_messages self w = Ok (self', w').
Proof.
  intros Hour Hfits Hall. unfold RipManager.send_response_messages.
  destruct (send_to_routers_ok self (RipManager.output_routers self) w Hour Hfits Hall)
    as [w1 Hs].
  unfold bind at 1. rewrite Hs.
  eexists; eexists; reflexivity.
Qed.

Lemma check_entries_fits items to_delete pending w items' to_delete' pending' w' :
  fits_the_wire items ->
  RipManager.check_entries items to_delete pending w = Ok (items', to_delete', pending', w') ->
  fits_the_wire items'.
Proof.
  apply check_entries_inv.
  intros d e w0 e' w1 [Hd Hm] H. unfold begin_deletion in H.
  apply bind_Ok in H. destruct H as (u & w2 & _ & H).
  apply bind_Ok in H. destruct H as (now & w3 & _ & H).
  unfold ret in H. inversion H; subst. cbn. unfold INFINITE_METRIC. lia.
Qed.

(** X8. In a run on a validated configuration [send_any_updates] never raises:
    the assertion of [begin_deletion] holds, every key queued for deletion
    is still in the table when it is deleted, and every packet can be
    encoded. *)
Theorem send_any_updates_never_raises (config : Config) (self : RipManager.t) (w : World) :
  routerid_is_valid (router_id config) = true ->
  link_metrics_valid config ->
  neighbours_valid config ->
  reachable config self w ->
  exists self' w', RipManager.send_any_updates self w = Ok (self', w').
Proof.
  intros Hid Hlinks Hneigh R.
  destruct (reachable_table_fits_the_wire config self w Hid Hlinks R) as [Hour Hfits].
  destruct (reachable_fields config self w R) as [_ Houts].
  destruct (reachable_dict config self w R) as [Hno _].
  unfold RipManager.send_any_updates.
  destruct (check_entries_total (RipManager.routing_table self) []
              (RipManager.triggered_update_pending self) w) as ([[table td] p] & w1 & Hc).
  unfold bind at 1. rewrite Hc.
  destruct (check_entries_keeps_keys _ _ _ _ _ _ _ _ Hc) as (Hk & _ & sel & Htd & Hincl & Hnd & _).
  cbn [app] in Htd. subst td.
  destruct (delete_entries_ok sel table (Hnd Hno)) as [table' Hdel];
    [rewrite Hk; exact Hincl|].
  unfold bind at 1. unfold lift. rewrite Hdel.
  unfold bind at 1. unfold time at 1.
  set (self1 := RipManager.set_triggered_update_pending p
                  (RipManager.set_routing_table table' self)).
  assert (Hsend : forall w0, exists self' w',
               RipManager.send_response_messages self1 w0 = Ok (self', w')).
  { intros w0. apply send_response_messages_ok.
    - unfold routerid_is_valid in Hour. apply andb_prop in Hour.
      destruct Hour as [O1 O2]. apply Z.leb_le in O1, O2. cbn. lia.
    - cbn. eapply delete_entries_Forall; [|exact Hdel].
      eapply check_entries_fits; eauto.
    - cbn. rewrite Houts. apply Forall_forall. intros [router [port m]] Hin.
      specialize (Hneigh _ _ _ Hin). unfold routerid_is_valid in Hneigh.
      apply andb_prop in Hneigh. destruct Hneigh as [N1 N2]. apply Z.leb_le in N1, N2.
      cbn. lia. }
  destruct (RipManager.triggered_update_pending self1).
  - unfold bind at 1. unfold bind at 1. unfold time at 1. unfold ret at 1.
    destruct (_ || _); [apply Hsend | eexists; eexists; reflexivity].
  - unfold bind at 1. unfold ret at 1.
    destruct (_ || _); [apply Hsend | eexists; eexists; reflexivity].
Qed.

Lemma demo_config_neighbours_valid : neighbours_valid demo_config.
Proof.
  intros router port m [H|[]]. inversion H. reflexivity.
Qed.

Lemma send_any_updates_never_raises_at_demo_run :
  exists self w,
    demo_run = Ok (self, w) /\
    exists self' w', RipManager.send_any_updates self w = Ok (self', w').
Proof.
  eexists; eexists. split; [vm_compute; reflexivity|].
  refine (send_any_updates_never_raises demo_config _ _ eq_refl
            demo_config_link_metrics_valid demo_config_neighbours_valid
            (reaches_Ok _ _ _ _ demo_run_reaches _)).
  vm_compute; reflexivity.
Defined.

(** X9. [send_any_updates] adds no destination to the table and changes neither
    the identity nor the neighbours; a destination it removes was in the
    deletion phase when the call began. *)
Theorem send_any_updates_removes_only_routes_in_deletion
        (self : RipManager.t) (w : World) (self' : RipManager.t) (w' : World) :
  RipManager.send_any_updates self w = Ok (self', w') ->
  RipManager.our_routerid self' = RipManager.our_routerid self /\
  RipManager.output_routers self' = RipManager.output_routers self /\
  incl (keys (RipManager.routing_table self')) (keys (RipManager.routing_table self)) /\
  forall destination,
    In destination (keys (RipManager.routing_table self)) ->
    ~ In destination (keys (RipManager.routing_table self')) ->
    exists entry,
      In (destination, entry) (RipManager.routing_table self) /\
      deletion_process_underway entry = true.
Proof.
  intros H. unfold RipManager.send_any_updates in H.
  apply bind_Ok in H. destruct H as ([[table to_delete] pending] & w1 & Hcheck & H).
  apply bind_Ok in H. destruct H as (table' & w2 & Hdel & H).
  apply lift_Ok in Hdel. destruct Hdel as [Hdel _].
  apply bind_Ok in H. destruct H as (now & w3 & _ & H).
  apply bind_Ok in H. destruct H as (triggered & w4 & _ & H).
  destruct (check_entries_keeps_keys _ _ _ _ _ _ _ _ Hcheck)
    as (Hk & _ & sel & Htd & _ & _ & Hund).
  cbn [app] in Htd. subst to_delete.
  destruct (delete_entries_keys _ _ _ Hdel) as (Hincl & _ & Hkeep).
  assert (Hfields : RipManager.our_routerid self' = RipManager.our_routerid self /\
                    RipManager.output_routers self' = RipManager.output_routers self /\
                    RipManager.routing_table self' = table').
  { match type of H with
    | (if ?b then _ else _) _ = Ok _ => destruct b
    end.
    - apply send_response_messages_fields in H. exact H.
    - unfold ret in H. inversion H; subst. auto. }
  destruct Hfields as (F1 & F2 & F3). rewrite F3.
  repeat split; [exact F1 | exact F2 | rewrite <- Hk; exact Hincl |].
  intros d Hin Hout.
  destruct (in_dec Z.eq_dec d sel) as [Hsel | Hsel]; [exact (Hund d Hsel)|].
  exfalso. apply Hout. apply Hkeep; [exact Hsel | rewrite Hk; exact Hin].
Qed.







Lemma send_any_updates_removes_only_routes_in_deletion_at_demo_manager :
  exists self' w',
    RipManager.send_any_updates demo_manager (Nat.iter 30 tick demo_world) = Ok (self', w') /\
    keys (RipManager.routing_table self') = [2; 5] /\
    RipManager.our_routerid self' = RipManager.our_routerid demo_manager /\
    RipManager.output_routers self' = RipManager.output_routers demo_manager /\
    incl (keys (RipManager.routing_table self')) (keys (RipManager.routing_table demo_manager)) /\
    forall destination,
      In destination (keys (RipManager.routing_table demo_manager)) ->
      ~ In destination (keys (RipManager.routing_table self')) ->
      exists entry,
        In (destination, entry) (RipManager.routing_table demo_manager) /\
        deletion_process_underway entry = true.
Proof.
  eexists; eexists.
  split; [vm_compute; reflexivity|].
  split; [vm_compute; reflexivity|].
  refine (send_any_updates_removes_only_routes_in_deletion demo_manager
            (Nat.iter 30 tick demo_world) _ _ _).
  vm_compute; reflexivity.
Defined.

(** ** The packets of an update, decoded *)

Lemma pack_concat rest : forall current, concat (pack current rest) = current ++ rest.
Proof.
  induction rest as [|e rest IH]; intros current; cbn [pack].
  - cbn. rewrite !app_nil_r. reflexivity.
  - destruct (25 <=? length current)%nat.
    + cbn [concat]. rewrite IH. reflexivity.
    + rewrite IH, <- app_assoc. reflexivity.
Qed.

Lemma pack_nonempty rest : forall current, pack current rest <> [].
Proof.
  induction rest as [|e rest IH]; intros current; cbn [pack]; [discriminate|].
  destruct (25 <=? length current)%nat; [discriminate | apply IH].
Qed.

Lemma pack_sizes rest : forall current,
  (1 <= length current <= 25)%nat ->
  Forall (fun g => (1 <= length g <= 25)%nat) (pack current rest) /\
  Forall (fun g => length g = 25%nat) (removelast (pack current rest)).
Proof.
  induction rest as [|e rest IH]; intros current Hc; cbn [pack].
  - split; [constructor; [lia | constructor] | constructor].
  - destruct (25 <=? length current)%nat eqn:E.
    + apply Nat.leb_le in E.
      destruct (IH [e]) as [H1 H2]; [cbn; lia|].
      split; [constructor; [lia | exact H1]|].
      pose proof (pack_nonempty rest [e]) as Hne.
      cbn [removelast]. destruct (pack [e] rest) eqn:P; [contradiction|].
      constructor; [lia | exact H2].
    + apply Nat.leb_gt in E. apply IH. rewrite length_app. cbn. lia.
Qed.

Lemma packet_layout_len routerid entries :
  len (packet_layout routerid entries) = 4 + 20 * Z.of_nat (length entries).
Proof.
  unfold len, packet_layout. rewrite length_app, (concat_length_20 _ (layouts_length entries)).
  unfold layouts. rewrite length_map. cbn [length header_layout app be_digits]. lia.
Qed.

Lemma advertised_metric_in_range peer entry m :
  metric_in_range entry ->
  RipManager.advertised_metric peer entry = Some m -> 1 <= m <= 16.
Proof.
  unfold RipManager.advertised_metric, POISONED_REVERSE, INFINITE_METRIC, metric_in_range.
  intros Hr. destruct (next_hop entry =? peer); intros H; inversion H; subst; lia.
Qed.

Lemma routerid_is_valid_fits r : routerid_is_valid r = true -> 1 <= r <= 64000.
Proof.
  unfold routerid_is_valid. intros H. apply andb_prop in H. destruct H as [H1 H2].
  apply Z.leb_le in H1, H2. lia.
Qed.

Lemma advertised_metric_fits peer entry m :
  0 <= metric entry < 2 ^ 32 ->
  RipManager.advertised_metric peer entry = Some m -> 0 <= m < 2 ^ 32.
Proof.
  unfold RipManager.advertised_metric, POISONED_REVERSE, INFINITE_METRIC.
  intros Hr. destruct (next_hop entry =? peer); intros H; inversion H; subst; cbn; lia.
Qed.

Lemma table_valid_fits table : table_valid table -> fits_the_wire table.
Proof.
  unfold table_valid, fits_the_wire, table_all. apply Forall_impl.
  intros [d e] [Hd Hm]. cbn [fst snd] in *. unfold metric_in_range in Hm.
  apply routerid_is_valid_fits in Hd. cbn. lia.
Qed.

(** The loop of [build_packets] at the level of entries: it fills packets
    as [pack] groups the advertised entries. *)
Lemma add_entries_pack self peer items : forall packets current,
  0 <= RipManager.our_routerid self < 2 ^ 16 ->
  fits_the_wire items ->
  exists ps p,
    RipManager.add_entries self peer items packets
      (packet_layout (RipManager.our_routerid self) current) = Ok (ps, p) /\
    ps ++ [p] =
    packets ++ map (packet_layout (RipManager.our_routerid self))
                   (pack current
                      (flat_map (fun item : Z * RoutingTableEntry.t =>
                                   match RipManager.advertised_metric peer (snd item) with
                                   | Some m => [ {| RipEntry.routerid := fst item;
                                                    RipEntry.metric := m |} ]
                                   | None => []
                                   end) items)).
Proof.
  unfold fits_the_wire, table_all.
  induction items as [|[d entry] items IH]; intros packets current Hour Hall;
    cbn [RipManager.add_entries flat_map].
  - eexists; eexists. split; [reflexivity|]. reflexivity.
  - inversion Hall as [|? ? [Hd Hm] Hrest]; subst. cbn [fst snd] in *.
    destruct (RipManager.advertised_metric peer entry) as [m|] eqn:Hadv;
      [|cbn [app]; apply IH; assumption].
    pose proof (advertised_metric_fits _ _ _ Hm Hadv) as Hmr.
    cbn [app pack].
    rewrite packet_layout_len, (empty_rip_packet_ok self Hour), rip_entry_ok by (cbn; lia).
    replace (4 + 20 * 25 <=? 4 + 20 * Z.of_nat (length current))
      with (25 <=? length current)%nat.
    2:{ destruct (25 <=? length current)%nat eqn:E.
        - apply Nat.leb_le in E. symmetry. apply Z.leb_le. lia.
        - apply Nat.leb_gt in E. symmetry. apply Z.leb_gt. lia. }
    destruct (25 <=? length current)%nat; cbn [bind_res].
    + destruct (IH (packets ++ [packet_layout (RipManager.our_routerid self) current])
                  [ {| RipEntry.routerid := d; RipEntry.metric := m |} ] Hour Hrest)
        as (ps & p & Hrun & Heq).
      unfold packet_layout in Hrun at 2. unfold layouts in Hrun at 1.
      cbn [map concat RipEntry.routerid RipEntry.metric] in Hrun.
      rewrite app_nil_r in Hrun.
      exists ps, p. split; [exact Hrun|].
      rewrite Heq, <- app_assoc. reflexivity.
    + destruct (IH packets (current ++ [ {| RipEntry.routerid := d; RipEntry.metric := m |} ])
                  Hour Hrest) as (ps & p & Hrun & Heq).
      unfold packet_layout in Hrun at 1. unfold layouts in Hrun at 1.
      rewrite map_app, concat_app in Hrun.
      cbn [map concat RipEntry.routerid RipEntry.metric] in Hrun.
      rewrite app_nil_r, app_assoc in Hrun.
      exists ps, p. split; [exact Hrun | exact Heq].
Qed.

Lemma build_packets_pack_fits self peer :
  routerid_is_valid (RipManager.our_routerid self) = true ->
  routerid_is_valid peer = true ->
  fits_the_wire (RipManager.routing_table self) ->
  RipManager.build_packets self peer =
  Ok (map (packet_layout (RipManager.our_routerid self))
          (pack [ {| RipEntry.routerid := peer; RipEntry.metric := INFINITE_METRIC |} ]
                (advertised_entries self peer))).
Proof.
  intros Hour Hpeer Htable.
  unfold routerid_is_valid in Hour, Hpeer. apply andb_prop in Hour, Hpeer.
  destruct Hour as [O1 O2], Hpeer as [P1 P2]. apply Z.leb_le in O1, O2, P1, P2.
  assert (Hour : 0 <= RipManager.our_routerid self < 2 ^ 16) by (cbn; lia).
  unfold RipManager.build_packets.
  rewrite (empty_rip_packet_ok self Hour), (rip_entry_ok peer INFINITE_METRIC)
    by (unfold INFINITE_METRIC; cbn; lia).
  cbn [bind_res].
  destruct (add_entries_pack self peer (RipManager.routing_table self) []
              [ {| RipEntry.routerid := peer; RipEntry.metric := INFINITE_METRIC |} ]
              Hour Htable) as (ps & p & Hrun & Heq).
  unfold packet_layout in Hrun at 1. unfold layouts in Hrun at 1.
  cbn [map concat RipEntry.routerid RipEntry.metric] in Hrun.
  rewrite app_nil_r in Hrun. rewrite Hrun. cbn [bind_res].
  rewrite Heq. reflexivity.
Qed.

Lemma build_packets_pack self peer :
  routerid_is_valid (RipManager.our_routerid self) = true ->
  routerid_is_valid peer = true ->
  table_valid (RipManager.routing_table self) ->
  RipManager.build_packets self peer =
  Ok (map (packet_layout (RipManager.our_routerid self))
          (pack [ {| RipEntry.routerid := peer; RipEntry.metric := INFINITE_METRIC |} ]
                (advertised_entries self peer))).
Proof.
  intros Hour Hpeer Htable.
  apply build_packets_pack_fits; [exact Hour | exact Hpeer | apply table_valid_fits, Htable].
Qed.

(** *** The first entry of every packet *)

(** With [POISONED_REVERSE] on, every route of the table is advertised. *)
Lemma advertised_entries_map self peer :
  advertised_entries self peer =
  map (fun item : Z * RoutingTableEntry.t =>
         {| RipEntry.routerid := fst item;
            RipEntry.metric := if next_hop (snd item) =? peer
                               then INFINITE_METRIC else metric (snd item) |})
      (RipManager.routing_table self).
Proof.
  unfold advertised_entries.
  induction (RipManager.routing_table self) as [|[d e] items IH]; cbn [flat_map map];
    [reflexivity|].
  rewrite IH. unfold RipManager.advertised_metric, POISONED_REVERSE. cbn [fst snd].
  destruct (next_hop e =? peer); reflexivity.
Qed.

Lemma pack_head {rest : list RipEntry.t} : forall current,
  exists tail later, pack current rest = (current ++ tail) :: later.
Proof.
  induction rest as [|e rest IH]; intros current; cbn [pack].
  - exists nil, nil. rewrite app_nil_r. reflexivity.
  - destruct (25 <=? length current)%nat.
    + exists nil. eexists. rewrite app_nil_r. reflexivity.
    + destruct (IH (current ++ [e])) as (tail & later & ->).
      exists (e :: tail), later. rewrite <- app_assoc. reflexivity.
Qed.

(** How [pack] splits: the number of groups, and the entry each group after
    the first begins with. *)
Lemma pack_later (rest : list RipEntry.t) : forall current,
  (1 <= length current <= 25)%nat ->
  length (pack current rest) = S ((length current - 1 + length rest) / 25)%nat /\
  forall k g,
    nth_error (pack current rest) (S k) = Some g ->
    exists x tail,
      g = x :: tail /\ nth_error rest (25 - length current + 25 * k)%nat = Some x.
Proof.
  induction rest as [|e rest IH]; intros current Hc; cbn [pack].
  - split.
    + cbn [length]. rewrite Nat.add_0_r, Nat.div_small by lia. reflexivity.
    + intros k g H. destruct k; discriminate H.
  - destruct (25 <=? length current)%nat eqn:E.
    + apply Nat.leb_le in E. assert (Hlen : length current = 25%nat) by lia.
      destruct (IH [e]) as [IH1 IH2]; [cbn; lia|].
      split.
      * cbn [length] in *. rewrite IH1, Hlen.
        replace (25 - 1 + S (length rest))%nat with (1 * 25 + (1 - 1 + length rest))%nat by lia.
        rewrite Nat.div_add_l by lia. reflexivity.
      * intros k g H. cbn [nth_error] in H. rewrite Hlen, Nat.sub_diag. cbn [Nat.add].
        destruct k as [|k].
        -- destruct (@pack_head rest [e]) as (tail & later & Hp).
           rewrite Hp in H. cbn in H. inversion H; subst.
           exists e, tail. split; reflexivity.
        -- destruct (IH2 k g H) as (x & tail & Hg & Hn).
           exists x, tail. split; [exact Hg|].
           cbn [length] in Hn.
           replace (25 * S k)%nat with (S (25 - 1 + 25 * k)) by lia. exact Hn.
    + apply Nat.leb_gt in E.
      destruct (IH (current ++ [e])) as [IH1 IH2]; [rewrite length_app; cbn; lia|].
      rewrite length_app in IH1, IH2. cbn [length] in *.
      split.
      * rewrite IH1. do 2 f_equal. lia.
      * intros k g H. destruct (IH2 k g H) as (x & tail & Hg & Hn).
        exists x, tail. split; [exact Hg|].
        replace (25 - length current + 25 * k)%nat
          with (S (25 - (length current + 1) + 25 * k)) by lia.
        exact Hn.
Qed.

Lemma slice_header_of_layout routerid x tail :
  slice 0 4 (packet_layout routerid (x :: tail)) = header_layout routerid /\
  slice 4 24 (packet_layout routerid (x :: tail)) =
  entry_layout (RipEntry.routerid x) (RipEntry.metric x).
Proof.
  unfold packet_layout, layouts. cbn [map concat]. split.
  - apply (slice_app_mid [] (header_layout routerid) _ 0 4); reflexivity.
  - apply slice_app_mid; reflexivity.
Qed.

(** C1, as the code has it.  [build_packets(peer_id)] returns whenever the
    router-ids and the table fit their fields, and what it returns is a
    non-empty sequence whose first packet has [(peer_id, 16)] as its first
    RIP entry.  There are as many packets after the first as 25 goes into
    the number of routes, so there is one once the table holds more than 24
    routes.  A packet after the first starts with the 4-byte header of
    [empty_rip_packet] and then the next route of the table: packet [k]
    after the first leads with route number [24 + 25 * k] of the table,
    written by [rip_entry] with metric 16 when the route's next-hop is
    [peer_id] and with the route's own metric otherwise. *)
Theorem build_packets_first_packet_leads_with_receiver
        (self : RipManager.t) (peer_id : Z) :
  routerid_is_valid (RipManager.our_routerid self) = true ->
  routerid_is_valid peer_id = true ->
  table_all (fun d e => 0 <= d < 2 ^ 32 /\ 0 <= metric e < 2 ^ 32)
            (RipManager.routing_table self) ->
  exists first later,
    RipManager.build_packets self peer_id = Ok (first :: later) /\
    leading_entry first =
      Ok {| RipEntry.routerid := peer_id; RipEntry.metric := INFINITE_METRIC |} /\
    length later = (length (RipManager.routing_table self) / 25)%nat /\
    forall k packet,
      nth_error later k = Some packet ->
      exists destination entry,
        nth_error (RipManager.routing_table self) (24 + 25 * k) = Some (destination, entry) /\
        RipManager.empty_rip_packet self = Ok (slice 0 4 packet) /\
        rip_entry destination
                  (if next_hop entry =? peer_id then INFINITE_METRIC else metric entry)
        = Ok (slice 4 24 packet).
Proof.
  intros Hour Hpeer Htable.
  rewrite (build_packets_pack_fits self peer_id Hour Hpeer Htable).
  set (e0 := {| RipEntry.routerid := peer_id; RipEntry.metric := INFINITE_METRIC |}).
  destruct (pack_later (advertised_entries self peer_id) [e0]) as [Hlen Hnth];
    [cbn; lia|].
  destruct (@pack_head (advertised_entries self peer_id) [e0]) as (tail & groups & Hp).
  rewrite Hp in Hlen, Hnth |- *. cbn [map app].
  eexists; eexists. split; [reflexivity|]. split; [|split].
  - unfold leading_entry.
    rewrite (proj2 (slice_header_of_layout (RipManager.our_routerid self) e0 tail)).
    pose proof (entry_layout_valid e0) as [Hok Hof].
    { unfold e0, entry_valid, metric_is_valid, INFINITE_METRIC. cbn.
      split; [exact Hpeer | reflexivity]. }
    rewrite (RipEntry_init_ok _ (entry_layout_length _ _) Hok), Hof. reflexivity.
  - rewrite length_map. cbn [length] in Hlen. injection Hlen as Hlen. rewrite Hlen.
    rewrite advertised_entries_map, length_map. reflexivity.
  - intros k packet Hk. rewrite nth_error_map in Hk.
    destruct (nth_error groups k) as [g|] eqn:Hg; [|discriminate].
    cbn [option_map] in Hk. inversion Hk; subst packet. clear Hk.
    destruct (Hnth k g Hg) as (x & rest & -> & Hx).
    cbn [length] in Hx. rewrite advertised_entries_map, nth_error_map in Hx.
    replace (25 - 1 + 25 * k)%nat with (24 + 25 * k)%nat in Hx by lia.
    destruct (nth_error (RipManager.routing_table self) (24 + 25 * k))
      as [[d entry]|] eqn:Hitem; [|discriminate].
    cbn [option_map fst snd] in Hx. inversion Hx; subst x. clear Hx.
    exists d, entry. split; [reflexivity|].
    destruct (slice_header_of_layout (RipManager.our_routerid self)
                {| RipEntry.routerid := d;
                   RipEntry.metric := if next_hop entry =? peer_id
                                      then INFINITE_METRIC else metric entry |} rest)
      as [Hh He].
    rewrite Hh, He. cbn [RipEntry.routerid RipEntry.metric].
    apply nth_error_In in Hitem.
    pose proof (proj1 (Forall_forall _ _) Htable _ Hitem) as [Hd Hm]. cbn [fst snd] in Hd, Hm.
    apply routerid_is_valid_fits in Hour.
    split; [apply empty_rip_packet_ok; cbn; lia|].
    apply rip_entry_ok; [exact Hd|].
    destruct (next_hop entry =? peer_id); [unfold INFINITE_METRIC; cbn; lia | exact Hm].
Qed.

(** After one datagram with 25 destinations router 1 holds 26 routes:
    [build_packets(2)] returns two packets, the first led by [(2, 16)] and
    the second by route number 24 of the table, the route to 26. *)
Lemma build_packets_packets_at_demo_run :
  exists self w,
    demo_run = Ok (self, w) /\
    exists first later,
      RipManager.build_packets self 2 = Ok (first :: later) /\
      leading_entry first =
        Ok {| RipEntry.routerid := 2; RipEntry.metric := INFINITE_METRIC |} /\
      length later = 1%nat /\
      length later = (length (RipManager.routing_table self) / 25)%nat /\
      forall k packet,
        nth_error later k = Some packet ->
        exists destination entry,
          nth_error (RipManager.routing_table self) (24 + 25 * k) = Some (destination, entry) /\
          RipManager.empty_rip_packet self = Ok (slice 0 4 packet) /\
          rip_entry destination (if next_hop entry =? 2 then INFINITE_METRIC else metric entry)
          = Ok (slice 4 24 packet).
Proof.
  eexists; eexists. split; [vm_compute; reflexivity|].
  match goal with
  | |- exists first later, RipManager.build_packets ?S 2 = _ /\ _ =>
      destruct (build_packets_first_packet_leads_with_receiver S 2)
        as (first & later & H1 & H2 & H3 & H4)
  end.
  - vm_compute; reflexivity.
  - reflexivity.
  - refine (proj2 (reachable_table_fits_the_wire demo_config _ _ _
                     demo_config_link_metrics_valid
                     (reaches_Ok _ _ _ _ demo_run_reaches _))).
    + vm_compute; reflexivity.
    + vm_compute; reflexivity.
  - exists first, later.
    split; [exact H1|]. split; [exact H2|].
    split; [rewrite H3; vm_compute; reflexivity|].
    split; [exact H3 | exact H4].
Defined.

Lemma packet_layout_decodes routerid entries :
  routerid_is_valid routerid = true ->
  (1 <= length entries <= 25)%nat ->
  Forall entry_valid entries ->
  RipPacket.init (packet_layout routerid entries) =
  Ok {| RipPacket.routerid := routerid; RipPacket.entries := entries |}.
Proof.
  intros Hr Hn HE. unfold packet_layout.
  destruct (header_layout_ok routerid (layouts entries) Hr (layouts_length entries))
    as (Hok & Hid & Hw).
  { unfold layouts. rewrite length_map. exact Hn. }
  rewrite (RipPacket_init_valid _ Hok), Hid, Hw, (layouts_decode entries HE). reflexivity.
Qed.

Lemma advertised_entries_valid self peer :
  table_valid (RipManager.routing_table self) ->
  Forall entry_valid (advertised_entries self peer).
Proof.
  unfold advertised_entries, table_valid, table_all.
  induction 1 as [|[d entry] items [Hd Hm] _ IH]; cbn [flat_map]; [constructor|].
  cbn [fst snd] in *.
  destruct (RipManager.advertised_metric peer entry) as [m|] eqn:Hadv; [|exact IH].
  cbn [app]. constructor; [|exact IH].
  pose proof (advertised_metric_in_range _ _ _ Hm Hadv) as Hmr.
  split; [exact Hd|]. cbn. unfold metric_is_valid.
  apply andb_true_intro. split; apply Z.leb_le; lia.
Qed.

Lemma removelast_map_layout {A B} (f : A -> B) (l : list A) :
  removelast (map f l) = map f (removelast l).
Proof.
  induction l as [|a l IH]; [reflexivity|].
  cbn [map removelast]. destruct l; [reflexivity|].
  cbn [map] in *. rewrite IH. reflexivity.
Qed.

Lemma Forall_concat_groups {A} (P : A -> Prop) (groups : list (list A)) :
  Forall P (concat groups) -> Forall (Forall P) groups.
Proof.
  induction groups as [|g groups IH]; cbn [concat]; intros H; [constructor|].
  apply Forall_app in H. destruct H as [Hg Hrest]. constructor; auto.
Qed.

(** X11. What a neighbour decodes from an update.  With valid router-ids and a
    table of valid keys and metrics, [build_packets(peer)] returns packets
    that all pass [RipPacket] validation and carry the sender's router-id;
    their entries, read in order, are [(peer, 16)] followed by the
    advertised routes in table order; every packet but the last is full (25
    entries, 504 bytes), and none is empty or longer than 504 bytes. *)
Theorem build_packets_decodes_to_the_advertised_routes (self : RipManager.t) (peer : Z) :
  routerid_is_valid (RipManager.our_routerid self) = true ->
  routerid_is_valid peer = true ->
  table_valid (RipManager.routing_table self) ->
  exists packets groups,
    RipManager.build_packets self peer = Ok packets /\
    Forall2 (fun p g =>
               RipPacket.init p =
               Ok {| RipPacket.routerid := RipManager.our_routerid self;
                     RipPacket.entries := g |})
            packets groups /\
    concat groups =
      {| RipEntry.routerid := peer; RipEntry.metric := INFINITE_METRIC |}
      :: advertised_entries self peer /\
    Forall (fun p => len p = 504) (removelast packets) /\
    Forall (fun p => 24 <= len p <= 504) packets.
Proof.
  intros Hour Hpeer Htable.
  set (first := {| RipEntry.routerid := peer; RipEntry.metric := INFINITE_METRIC |}).
  set (groups := pack [first] (advertised_entries self peer)).
  exists (map (packet_layout (RipManager.our_routerid self)) groups), groups.
  destruct (pack_sizes (advertised_entries self peer) [first]) as [Hsizes Hfull];
    [cbn; lia|].
  fold groups in Hsizes, Hfull.
  assert (Hconcat : concat groups = first :: advertised_entries self peer)
    by (unfold groups; rewrite pack_concat; reflexivity).
  assert (Hvalid : Forall (Forall entry_valid) groups).
  { apply Forall_concat_groups. rewrite Hconcat. constructor.
    - split; [exact Hpeer | reflexivity].
    - apply advertised_entries_valid, Htable. }
  split; [apply build_packets_pack; assumption|].
  split; [|split; [exact Hconcat|split]].
  - clear Hconcat Hfull. induction groups as [|g gs IH]; cbn [map]; [constructor|].
    inversion Hsizes; subst. inversion Hvalid; subst.
    constructor; [apply packet_layout_decodes; assumption | apply IH; assumption].
  - rewrite removelast_map_layout. apply Forall_map.
    eapply Forall_impl; [|exact Hfull].
    intros g Hg. rewrite packet_layout_len, Hg. reflexivity.
  - apply Forall_map. eapply Forall_impl; [|exact Hsizes].
    intros g Hg. cbv beta in Hg |- *. rewrite packet_layout_len. lia.
Qed.

Lemma build_packets_decodes_at_demo_manager :
  exists packets groups,
    RipManager.build_packets demo_manager 2 = Ok packets /\
    Forall2 (fun p g =>
               RipPacket.init p =
               Ok {| RipPacket.routerid := 1; RipPacket.entries := g |})
            packets groups /\
    concat groups =
      [ {| RipEntry.routerid := 2; RipEntry.metric := 16 |};
        {| RipEntry.routerid := 2; RipEntry.metric := 16 |};
        {| RipEntry.routerid := 5; RipEntry.metric := 16 |};
        {| RipEntry.routerid := 9; RipEntry.metric := 16 |} ] /\
    Forall (fun p => len p = 504) (removelast packets) /\
    Forall (fun p => 24 <= len p <= 504) packets.
Proof.
  apply (build_packets_decodes_to_the_advertised_routes demo_manager 2);
    [reflexivity | reflexivity |].
  repeat constructor; cbn; lia.
Defined.

(** X12. Poisoned reverse.  No packet built for [peer] advertises with a metric
    below 16 a route whose next-hop is [peer]: an entry decoded from the
    update with a metric below 16 is a route of the table through another
    next-hop, at the table's metric. *)
Theorem build_packets_poisons_routes_through_the_receiver
        (self : RipManager.t) (peer : Z) (packets : list (list byte))
        (p : list byte) (pkt : RipPacket.t) (e : RipEntry.t) :
  routerid_is_valid (RipManager.our_routerid self) = true ->
  routerid_is_valid peer = true ->
  table_valid (RipManager.routing_table self) ->
  RipManager.build_packets self peer = Ok packets ->
  In p packets ->
  RipPacket.init p = Ok pkt ->
  In e (RipPacket.entries pkt) ->
  RipEntry.metric e < 16 ->
  exists entry,
    In (RipEntry.routerid e, entry) (RipManager.routing_table self) /\
    metric entry = RipEntry.metric e /\
    next_hop entry <> peer.
Proof.
  intros Hour Hpeer Htable Hbuild Hp Hdec He Hlt.
  rewrite (build_packets_pack self peer Hour Hpeer Htable) in Hbuild.
  inversion Hbuild; subst packets. clear Hbuild.
  apply in_map_iff in Hp. destruct Hp as (g & <- & Hg).
  set (first := {| RipEntry.routerid := peer; RipEntry.metric := INFINITE_METRIC |}) in *.
  destruct (pack_sizes (advertised_entries self peer) [first]) as [Hsizes _]; [cbn; lia|].
  assert (Hall : Forall entry_valid (concat (pack [first] (advertised_entries self peer)))).
  { rewrite pack_concat. constructor.
    - split; [exact Hpeer | reflexivity].
    - apply advertised_entries_valid, Htable. }
  apply Forall_concat_groups in Hall.
  rewrite Forall_forall in Hsizes, Hall.
  rewrite (packet_layout_decodes _ g Hour (Hsizes g Hg) (Hall g Hg)) in Hdec.
  inversion Hdec; subst pkt. cbn [RipPacket.entries] in He.
  assert (Hin : In e (first :: advertised_entries self peer)).
  { change (first :: advertised_entries self peer)
      with ([first] ++ advertised_entries self peer).
    rewrite <- pack_concat. apply in_concat. exists g. split; assumption. }
  destruct Hin as [Hfirst | Hadv].
  { subst e. cbn in Hlt. unfold INFINITE_METRIC in Hlt. lia. }
  unfold advertised_entries in Hadv. apply in_flat_map in Hadv.
  destruct Hadv as ([d entry] & Hitem & Hmatch). cbn [fst snd] in Hmatch.
  unfold RipManager.advertised_metric, POISONED_REVERSE, INFINITE_METRIC in Hmatch.
  destruct (next_hop entry =? peer) eqn:E; destruct Hmatch as [He'|[]]; subst e;
    cbn [RipEntry.routerid RipEntry.metric] in *; [lia|].
  apply Z.eqb_neq in E. exists entry. auto.
Qed.

Lemma build_packets_poisons_at_demo_manager :
  exists entry,
    In (5, entry) (RipManager.routing_table demo_manager) /\
    metric entry = 4 /\
    next_hop entry <> 4.
Proof.
  refine (build_packets_poisons_routes_through_the_receiver demo_manager 4
            [packet_layout 1 [ {| RipEntry.routerid := 4; RipEntry.metric := 16 |};
                               {| RipEntry.routerid := 2; RipEntry.metric := 1 |};
                               {| RipEntry.routerid := 5; RipEntry.metric := 4 |};
                               {| RipEntry.routerid := 9; RipEntry.metric := 16 |} ]]
            _ _ {| RipEntry.routerid := 5; RipEntry.metric := 4 |}
            eq_refl eq_refl _ _ (or_introl eq_refl) _ _ _).
  - repeat constructor; cbn; lia.
  - vm_compute; reflexivity.
  - vm_compute; reflexivity.
  - cbn. auto.
  - cbn; lia.
Defined.

(** ** What goes out on the socket *)

Lemma send_packets_outbox port packets : forall w u w',
  RipManager.send_packets port packets w = Ok (u, w') ->
  outbox w' = outbox w ++ map (fun p => (p, port)) packets /\
  ticks w' = ticks w /\ clock w' = clock w /\ draws w' = draws w /\ rng w' = rng w.
Proof.
  induction packets as [|p packets IH]; intros w u w' H; cbn [RipManager.send_packets] in H.
  - unfold ret in H. inversion H; subst. cbn [map]. rewrite app_nil_r.
    repeat split; reflexivity.
  - apply bind_Ok in H. destruct H as (u1 & w1 & Hcheck & H).
    apply lift_Ok in Hcheck. destruct Hcheck as [_ <-].
    apply bind_Ok in H. destruct H as (u2 & w2 & Hsend & H).
    unfold sendto in Hsend. inversion Hsend; subst. clear Hsend.
    destruct (IH _ _ _ H) as (Ho & Ht & Hc & Hd & Hr). cbn in *.
    rewrite Ho, <- app_assoc. repeat split; assumption.
Qed.

Lemma send_to_routers_outbox self routers : forall w u w',
  RipManager.send_to_routers self routers w = Ok (u, w') ->
  exists sent,
    update_datagrams self routers = Ok sent /\
    outbox w' = outbox w ++ sent /\
    ticks w' = ticks w /\ clock w' = clock w /\ draws w' = draws w /\ rng w' = rng w.
Proof.
  induction routers as [|[router [port m]] routers IH]; intros w u w' H;
    cbn [RipManager.send_to_routers update_datagrams] in *.
  - unfold ret in H. inversion H; subst. exists nil. rewrite app_nil_r.
    repeat split; reflexivity.
  - apply bind_Ok in H. destruct H as (packets & w1 & Hb & H).
    apply lift_Ok in Hb. destruct Hb as [Hb <-].
    apply bind_Ok in H. destruct H as (u1 & w2 & Hs & H).
    destruct (send_packets_outbox _ _ _ _ _ Hs) as (Ho & Ht & Hc & Hd & Hr).
    destruct (IH _ _ _ H) as (more & Hmore & Ho' & Ht' & Hc' & Hd' & Hr').
    rewrite Hb, Hmore. cbn [bind_res]. eexists. split; [reflexivity|].
    rewrite Ho', Ho, <- app_assoc. repeat split; congruence.
Qed.

(** X13. [send_response_messages] hands the socket exactly the datagrams of one
    update -- for each neighbour in the order of [output_routers], the
    packets [build_packets] returns for it, to its port, and nothing else --
    reads the clock and the random generator twice each, leaves the routing
    table as it is and clears [triggered_update_pending]. *)
Theorem send_response_messages_sends_one_update
        (self : RipManager.t) (w : World) (self' : RipManager.t) (w' : World) :
  RipManager.send_response_messages self w = Ok (self', w') ->
  exists sent,
    update_datagrams self (RipManager.output_routers self) = Ok sent /\
    outbox w' = outbox w ++ sent /\
    ticks w' = (2 + ticks w)%nat /\
    draws w' = (2 + draws w)%nat /\
    RipManager.routing_table self' = RipManager.routing_table self /\
    RipManager.triggered_update_pending self' = false.
Proof.
  intros H. unfold RipManager.send_response_messages in H.
  apply bind_Ok in H. destruct H as (u & w1 & Hs & H).
  destruct (send_to_routers_outbox _ _ _ _ _ Hs) as (sent & Hsent & Ho & Ht & Hc & Hd & Hr).
  exists sent. split; [exact Hsent|].
  unfold bind, time, uniform, ret, tick in H. inversion H; subst. cbn.
  rewrite Ho, Ht, Hd. auto.
Qed.

Lemma send_response_messages_sends_one_update_at_demo_manager :
  exists self' w' sent,
    RipManager.send_response_messages demo_manager demo_world = Ok (self', w') /\
    update_datagrams demo_manager (RipManager.output_routers demo_manager) = Ok sent /\
    map snd sent = [3000; 3001] /\
    outbox w' = outbox demo_world ++ sent /\
    ticks w' = (2 + ticks demo_world)%nat /\
    draws w' = (2 + draws demo_world)%nat /\
    RipManager.routing_table self' = RipManager.routing_table demo_manager /\
    RipManager.triggered_update_pending self' = false.
Proof.
  eexists; eexists; eexists.
  split; [vm_compute; reflexivity|].
  split; [vm_compute; reflexivity|].
  split; [vm_compute; reflexivity|].
  split; [vm_compute; reflexivity|].
  destruct (send_response_messages_sends_one_update demo_manager demo_world _ _
              ltac:(vm_compute; reflexivity)) as (sent & _ & _ & Ht & Hd & Hr & Hp).
  repeat split; assumption.
Defined.

Lemma reachable_table_valid config self w :
  routerid_is_valid (router_id config) = true ->
  link_metrics_valid config ->
  reachable config self w ->
  routerid_is_valid (RipManager.our_routerid self) = true /\
  table_valid (RipManager.routing_table self).
Proof.
  intros Hid Hcfg R.
  destruct (reachable_manager_inv config (fun _ => True)
              (fun d _ => routerid_is_valid d = true)) with (self := self) (w := w)
    as (Hour & _ & Hkeys); auto.
  pose proof (reachable_entry_inv config self w Hcfg R) as Hentries.
  split; [rewrite Hour; exact Hid|].
  unfold table_valid, table_all in *. rewrite Forall_forall in *.
  intros item Hin. split; [exact (Hkeys _ Hin) | exact (proj1 (Hentries _ Hin))].
Qed.

Lemma check_entries_table_valid items to_delete pending w items' to_delete' pending' w' :
  table_valid items ->
  RipManager.check_entries items to_delete pending w = Ok (items', to_delete', pending', w') ->
  table_valid items'.
Proof.
  apply check_entries_inv.
  intros d e w0 e' w1 [Hd Hm] H. unfold begin_deletion in H.
  apply bind_Ok in H. destruct H as (u & w2 & _ & H).
  apply bind_Ok in H. destruct H as (now & w3 & _ & H).
  unfold ret in H. inversion H; subst.
  split; [exact Hd|]. unfold metric_in_range, INFINITE_METRIC. cbn. lia.
Qed.

Lemma check_entries_outbox items : forall to_delete pending w r w',
  RipManager.check_entries items to_delete pending w = Ok (r, w') -> outbox w' = outbox w.
Proof.
  induction items as [|[d e] items IH]; cbn [RipManager.check_entries];
    intros to_delete pending w r w' H.
  - unfold ret in H. inversion H; subst. reflexivity.
  - assert (Hsd : forall w0 b w1, should_delete e w0 = Ok (b, w1) -> outbox w1 = outbox w0).
    { intros w0 b w1. unfold should_delete, bind, time, ret.
      destruct (time_deletion_due e); intros X; inversion X; subst; reflexivity. }
    assert (Hsb : forall w0 b w1,
               should_begin_deletion e w0 = Ok (b, w1) -> outbox w1 = outbox w0).
    { intros w0 b w1. unfold should_begin_deletion, bind, time, ret.
      destruct (negb _); [destruct (_ <=? _)|]; intros X; inversion X; subst; reflexivity. }
    assert (Hbd : forall w0 e' w1, begin_deletion e w0 = Ok (e', w1) -> outbox w1 = outbox w0).
    { intros w0 e' w1. unfold begin_deletion, bind, lift, assert, time, ret.
      destruct (negb _); intros X; inversion X; subst; reflexivity. }
    apply bind_Ok in H. destruct H as (delete & w1 & H1 & H).
    apply Hsd in H1. destruct delete.
    + apply bind_Ok in H. destruct H as (r1 & w2 & Hrec & H).
      destruct r1 as [[i1 t1] p1]. unfold ret in H. inversion H; subst.
      rewrite (IH _ _ _ _ _ Hrec). exact H1.
    + apply bind_Ok in H. destruct H as (begin & w2 & H2 & H).
      apply Hsb in H2. destruct begin.
      * apply bind_Ok in H. destruct H as (e' & w3 & H3 & H). apply Hbd in H3.
        apply bind_Ok in H. destruct H as (r1 & w4 & Hrec & H).
        destruct r1 as [[i1 t1] p1]. unfold ret in H. inversion H; subst.
        rewrite (IH _ _ _ _ _ Hrec). congruence.
      * apply bind_Ok in H. destruct H as (r1 & w3 & Hrec & H).
        destruct r1 as [[i1 t1] p1]. unfold ret in H. inversion H; subst.
        rewrite (IH _ _ _ _ _ Hrec). congruence.
Qed.

Lemma build_packets_all_valid self peer packets :
  routerid_is_valid (RipManager.our_routerid self) = true ->
  routerid_is_valid peer = true ->
  table_valid (RipManager.routing_table self) ->
  RipManager.build_packets self peer = Ok packets ->
  Forall (fun p => exists pkt,
              RipPacket.init p = Ok pkt /\
              RipPacket.routerid pkt = RipManager.our_routerid self) packets.
Proof.
  intros Hour Hpeer Htable Hbuild.
  rewrite (build_packets_pack self peer Hour Hpeer Htable) in Hbuild.
  inversion Hbuild; subst packets. clear Hbuild.
  set (first := {| RipEntry.routerid := peer; RipEntry.metric := INFINITE_METRIC |}) in *.
  destruct (pack_sizes (advertised_entries self peer) [first]) as [Hsizes _]; [cbn; lia|].
  assert (Hall : Forall entry_valid (concat (pack [first] (advertised_entries self peer)))).
  { rewrite pack_concat. constructor.
    - split; [exact Hpeer | reflexivity].
    - apply advertised_entries_valid, Htable. }
  apply Forall_concat_groups in Hall.
  apply Forall_map. rewrite Forall_forall in *. intros g Hg.
  eexists. split; [apply packet_layout_decodes; auto | reflexivity].
Qed.

Lemma update_datagrams_valid self routers : forall sent,
  routerid_is_valid (RipManager.our_routerid self) = true ->
  table_valid (RipManager.routing_table self) ->
  Forall (fun router => routerid_is_valid (fst router) = true) routers ->
  update_datagrams self routers = Ok sent ->
  Forall (fun datagram =>
            (exists pkt, RipPacket.init (fst datagram) = Ok pkt /\
                         RipPacket.routerid pkt = RipManager.our_routerid self) /\
            exists router m, In (router, (snd datagram, m)) routers) sent.
Proof.
  induction routers as [|[router [port m]] routers IH]; intros sent Hour Htable Hall H;
    cbn [update_datagrams] in H.
  - inversion H; subst. constructor.
  - inversion Hall as [|? ? Hr Hrest]; subst. cbn [fst] in Hr.
    destruct (RipManager.build_packets self router) as [packets|] eqn:Hb;
      cbn [bind_res] in H; [|discriminate].
    destruct (update_datagrams self routers) as [more|] eqn:Hm;
      cbn [bind_res] in H; [|discriminate].
    inversion H; subst. apply Forall_app. split.
    + apply Forall_map.
      eapply Forall_impl; [|exact (build_packets_all_valid _ _ _ Hour Hr Htable Hb)].
      intros p Hp. cbn [fst snd]. split; [exact Hp|].
      exists router, m. left. reflexivity.
    + eapply Forall_impl; [|exact (IH _ Hour Htable Hrest eq_refl)].
      intros dg [Hv (r & m' & Hin)]. split; [exact Hv|].
      exists r, m'. right. exact Hin.
Qed.

(** X14. In a run on a validated configuration, every datagram
    [send_any_updates] hands to the socket is a packet that passes
    [RipPacket] validation, carries the configured router-id as its sender,
    and is addressed to the port of a configured neighbour. *)
Theorem send_any_updates_sends_only_valid_packets
        (config : Config) (self : RipManager.t) (w : World)
        (self' : RipManager.t) (w' : World) :
  routerid_is_valid (router_id config) = true ->
  link_metrics_valid config ->
  neighbours_valid config ->
  reachable config self w ->
  RipManager.send_any_updates self w = Ok (self', w') ->
  exists sent,
    outbox w' = outbox w ++ sent /\
    Forall (fun datagram =>
              (exists pkt, RipPacket.init (fst datagram) = Ok pkt /\
                           RipPacket.routerid pkt = router_id config) /\
              exists router m, In (router, (snd datagram, m)) (outputs config)) sent.
Proof.
  intros Hid Hlinks Hneigh R H.
  destruct (reachable_table_valid config self w Hid Hlinks R) as [Hour Htable].
  destruct (reachable_fields config self w R) as [Hme Houts].
  unfold RipManager.send_any_updates in H.
  apply bind_Ok in H. destruct H as ([[table to_delete] pending] & w1 & Hcheck & H).
  apply bind_Ok in H. destruct H as (table' & w2 & Hdel & H).
  apply lift_Ok in Hdel. destruct Hdel as [Hdel <-].
  apply bind_Ok in H. destruct H as (now & w3 & Hnow & H).
  apply bind_Ok in H. destruct H as (triggered & w4 & Htrig & H).
  assert (Ho1 : outbox w1 = outbox w) by (eapply check_entries_outbox; eauto).
  assert (Ho3 : outbox w3 = outbox w1)
    by (unfold time in Hnow; inversion Hnow; subst; reflexivity).
  assert (Ho4 : outbox w4 = outbox w3).
  { cbn [RipManager.triggered_update_pending RipManager.set_triggered_update_pending] in Htrig.
    destruct pending; unfold bind, time, ret in Htrig; inversion Htrig; subst; reflexivity. }
  match type of H with
  | (if ?b then _ else _) _ = Ok _ => destruct b
  end.
  - unfold RipManager.send_response_messages in H.
    apply bind_Ok in H. destruct H as (u & w5 & Hs & H).
    destruct (send_to_routers_outbox _ _ _ _ _ Hs) as (sent & Hsent & Ho & _).
    exists sent. split.
    + unfold bind, time, uniform, ret, tick in H. inversion H; subst. cbn.
      rewrite Ho. congruence.
    + cbn [RipManager.output_routers RipManager.set_triggered_update_pending
           RipManager.set_routing_table] in Hsent.
      rewrite <- Hme, <- Houts.
      eapply (update_datagrams_valid _ _ _ _ _ _ Hsent).
  - unfold ret in H. inversion H; subst. exists nil. split; [|constructor].
    rewrite app_nil_r. congruence.
  Unshelve.
  + exact Hour.
  + cbn. eapply delete_entries_Forall; [|exact Hdel].
    eapply check_entries_table_valid; eauto.
  + cbn. rewrite Houts. apply Forall_forall. intros [router [port m]] Hin.
    exact (Hneigh _ _ _ Hin).
Qed.

Lemma send_any_updates_sends_only_valid_packets_at_demo_run :
  exists self w self' w' sent,
    demo_run = Ok (self, w) /\
    RipManager.send_any_updates self w = Ok (self', w') /\
    length (outbox w') = 2%nat /\
    outbox w' = outbox w ++ sent /\
    Forall (fun datagram =>
              (exists pkt, RipPacket.init (fst datagram) = Ok pkt /\
                           RipPacket.routerid pkt = router_id demo_config) /\
              exists router m, In (router, (snd datagram, m)) (outputs demo_config)) sent.
Proof.
  eexists; eexists; eexists; eexists.
  assert (Hex : exists sent, _ /\ _) by
    (refine (send_any_updates_sends_only_valid_packets demo_config _ _ _ _ eq_refl
               demo_config_link_metrics_valid demo_config_neighbours_valid
               (reaches_Ok _ _ _ _ demo_run_reaches _) _);
     [vm_compute; reflexivity | vm_compute; reflexivity]).
  destruct Hex as (sent & Ho & Hall). exists sent.
  split; [vm_compute; reflexivity|].
  split; [vm_compute; reflexivity|].
  split; [vm_compute; reflexivity|].
  split; [exact Ho | exact Hall].
Defined.

(** ** Timeouts *)

Lemma max0_nonneg x : (0 <=? max0 x)%float = true.
Proof.
  unfold max0. destruct (0 <? x)%float eqn:E; [|reflexivity].
  rewrite FloatAxioms.leb_spec. rewrite FloatAxioms.ltb_spec in E.
  change (FloatOps.Prim2SF 0%float) with (SpecFloat.S754_zero false) in *.
  unfold SpecFloat.SFltb, SpecFloat.SFleb in *.
  destruct (FloatOps.Prim2SF x) as [sg|sg| |sg m e]; cbn in *; try discriminate;
    destruct sg; cbn in *; try discriminate; reflexivity.
Qed.

Lemma entry_timeouts_total items : forall timeouts w,
  exists r w', Timeouts.entry_timeouts items timeouts w = Ok (r, w').
Proof.
  induction items as [|[d e] items IH]; intros timeouts w; cbn [Timeouts.entry_timeouts].
  - eexists; eexists; reflexivity.
  - unfold bind at 1.
    assert (Hentry : exists t w1, Timeouts.entry_next_timeout e w = Ok (t, w1)).
    { unfold Timeouts.entry_next_timeout, Timeouts.update_due_in, Timeouts.deletion_due_in,
        bind, time, ret.
      destruct (time_deletion_due e); eexists; eexists; reflexivity. }
    destruct Hentry as (t & w1 & ->). apply IH.
Qed.

(** X15. [next_timeout] always returns, and what it returns is a number that is
    not negative (and is not a NaN), whatever the clock reads and whatever
    the timers of the manager hold. *)
Theorem next_timeout_is_never_negative (self : RipManager.t) (w : World) :
  exists timeout w',
    Timeouts.next_timeout self w = Ok (timeout, w') /\
    (0 <=? timeout)%float = true.
Proof.
  unfold Timeouts.next_timeout, bind at 1. unfold time at 1.
  destruct (entry_timeouts_total (RipManager.routing_table self) [] (tick w))
    as (timeouts & w1 & H).
  unfold bind at 1. rewrite H.
  destruct (RipManager.triggered_update_pending self).
  - unfold bind, time, ret. eexists; eexists. split; [reflexivity | apply max0_nonneg].
  - unfold bind, ret. eexists; eexists. split; [reflexivity | apply max0_nonneg].
Qed.

(** ** Checking a fleet of configurations *)

(** The examples of the docstring of [validate_configs], in order. *)
Lemma validate_configs_docstring :
  let c1 := doc_config 2 [2000] [(3, (3000, 1))] in
  ConfigManager.validate_configs [c1; doc_config 3 [3000] [(2, (2000, 1))]] = Passed tt /\
  ConfigManager.validate_configs [c1; doc_config 2 [3000] [(2, (2000, 1))]]
  = Failed (SameRouterId 2) /\
  ConfigManager.validate_configs [c1; doc_config 3 [3333] [(2, (3000, 1))]]
  = Failed (PortAlreadyOutput 3000 (Some 3)) /\
  ConfigManager.validate_configs [c1; doc_config 3 [3000] [(3, (2000, 1))]]
  = Failed (RouterIdMismatch (Some 2) (Some 3) 2000) /\
  ConfigManager.validate_configs [c1; doc_config 3 [3000] [(2, (2222, 1))]]
  = Failed (NoSender (Some 2) 2000) /\
  ConfigManager.validate_configs [c1; doc_config 3 [3333] [(2, (2000, 1))]]
  = Failed (NoReceiver (Some 3) 3000) /\
  ConfigManager.validate_configs [c1; doc_config 3 [3000] [(2, (2000, 2))]]
  = Failed (MetricMismatch 2 3) /\
  ConfigManager.validate_configs
    [ doc_config 2 [2000; 2001] [(3, (3000, 1)); (4, (4000, 2))];
      doc_config 3 [3000; 3001] [(2, (2000, 1)); (4, (4001, 3))];
      doc_config 4 [4000; 4001] [(2, (2001, 2)); (3, (3001, 3))] ] = Passed tt.
Proof.
  cbv zeta. repeat split; vm_compute; reflexivity.
Qed.

Lemma dict_get_set_same {V} k (v : V) d : dict_get k (dict_set k v d) = Some v.
Proof.
  induction d as [|[k' v'] d IH]; cbn.
  - rewrite Z.eqb_refl. reflexivity.
  - destruct (k' =? k) eqn:E; cbn; rewrite E; [reflexivity | exact IH].
Qed.

Lemma dict_get_set_other {V} k k' (v : V) d :
  k' <> k -> dict_get k' (dict_set k v d) = dict_get k' d.
Proof.
  intros Hne. induction d as [|[k0 v0] d IH]; cbn.
  - destruct (k =? k') eqn:E; [apply Z.eqb_eq in E; congruence | reflexivity].
  - destruct (k0 =? k) eqn:E; cbn.
    + apply Z.eqb_eq in E. subst.
      destruct (k =? k') eqn:E'; [apply Z.eqb_eq in E'; congruence | reflexivity].
    + destruct (k0 =? k'); [reflexivity | exact IH].
Qed.

Lemma pair_eqb_spec (a b : Z * Z) :
  (fst a =? fst b) && (snd a =? snd b) = true <-> a = b.
Proof.
  destruct a as [a1 a2], b as [b1 b2]. cbn. rewrite andb_true_iff, !Z.eqb_eq.
  split; [intros [-> ->]; reflexivity | intros H; inversion H; auto].
Qed.

Lemma pair_get_set_same {V} k (v : V) d : pair_get k (pair_set k v d) = Some v.
Proof.
  induction d as [|[k' v'] d IH]; cbn.
  - rewrite (proj2 (pair_eqb_spec k k) eq_refl). reflexivity.
  - destruct ((fst k' =? fst k) && (snd k' =? snd k)) eqn:E; cbn; rewrite E;
      [reflexivity | exact IH].
Qed.

Lemma pair_get_set_other {V} k k' (v : V) d :
  k' <> k -> pair_get k' (pair_set k v d) = pair_get k' d.
Proof.
  intros Hne. induction d as [|[k0 v0] d IH]; cbn.
  - destruct ((fst k =? fst k') && (snd k =? snd k')) eqn:E; [|reflexivity].
    apply pair_eqb_spec in E. congruence.
  - destruct ((fst k0 =? fst k) && (snd k0 =? snd k)) eqn:E; cbn.
    + apply pair_eqb_spec in E. subst.
      destruct ((fst k =? fst k') && (snd k =? snd k')) eqn:E'; [|reflexivity].
      apply pair_eqb_spec in E'. congruence.
    + destruct ((fst k0 =? fst k') && (snd k0 =? snd k')); [reflexivity | exact IH].
Qed.

Lemma get_ids_set_same port ids port_ids :
  ConfigManager.get_ids port (dict_set port ids port_ids) = ids.
Proof. unfold ConfigManager.get_ids. rewrite dict_get_set_same. reflexivity. Qed.

Lemma get_ids_set_other port port' ids port_ids :
  port' <> port ->
  ConfigManager.get_ids port' (dict_set port ids port_ids) = ConfigManager.get_ids port' port_ids.
Proof.
  intros H. unfold ConfigManager.get_ids. rewrite dict_get_set_other by exact H. reflexivity.
Qed.

Lemma check_Passed cond msg u : check cond msg = Passed u -> cond = true.
Proof. unfold check. destruct cond; [reflexivity | discriminate]. Qed.

Lemma bind_checked_Passed {A B} (c : checked A) (k : A -> checked B) b :
  bind_checked c k = Passed b -> exists a, c = Passed a /\ k a = Passed b.
Proof. destruct c as [a|msg]; cbn; [eauto | discriminate]. Qed.

Lemma NoDup_snoc_ports (l : list (Z * Z)) port rid :
  NoDup (map fst l) -> ~ In port (map fst l) -> NoDup (map fst (l ++ [(port, rid)])).
Proof.
  intros Hno Hnot. rewrite map_app. cbn.
  apply NoDup_app; [exact Hno | repeat constructor; intros [] |].
  intros x Hx [Hp|[]]. subst. contradiction.
Qed.

Lemma add_inputs_inv rid ports : forall ins outs port_ids port_ids',
  ports_inv ins outs port_ids ->
  ConfigManager.add_inputs rid ports port_ids = Passed port_ids' ->
  ports_inv (ins ++ map (fun port => (port, rid)) ports) outs port_ids'.
Proof.
  induction ports as [|port ports IH]; intros ins outs port_ids port_ids' Hinv H;
    cbn [ConfigManager.add_inputs map] in *.
  - inversion H; subst. rewrite app_nil_r. exact Hinv.
  - apply bind_checked_Passed in H. destruct H as (u & Hc & H).
    apply check_Passed in Hc.
    replace (ins ++ (port, rid) :: map (fun port0 => (port0, rid)) ports)
      with ((ins ++ [(port, rid)]) ++ map (fun port0 => (port0, rid)) ports)
      by (rewrite <- app_assoc; reflexivity).
    eapply IH; [|exact H].
    destruct Hinv as (Hin & Hout & Hn1 & Hn2).
    destruct (ConfigManager.get_ids port port_ids) as [i o] eqn:G. cbn [fst snd] in *.
    destruct i; [discriminate|].
    repeat split.
    + intros Hx. apply in_app_or in Hx. destruct Hx as [Hx|[Hx|[]]].
      * destruct (Z.eq_dec port0 port) as [->|Hne].
        -- apply Hin in Hx. rewrite G in Hx. discriminate.
        -- rewrite get_ids_set_other by exact Hne. apply Hin, Hx.
      * inversion Hx; subst. rewrite get_ids_set_same. reflexivity.
    + intros Hx. apply in_or_app.
      destruct (Z.eq_dec port0 port) as [->|Hne].
      * rewrite get_ids_set_same in Hx. cbn in Hx. inversion Hx; subst.
        right. left. reflexivity.
      * rewrite get_ids_set_other in Hx by exact Hne. left. apply Hin, Hx.
    + intros Hx. destruct (Z.eq_dec port0 port) as [->|Hne].
      * rewrite get_ids_set_same. cbn. apply Hout in Hx. rewrite G in Hx. exact Hx.
      * rewrite get_ids_set_other by exact Hne. apply Hout, Hx.
    + intros Hx. destruct (Z.eq_dec port0 port) as [->|Hne].
      * rewrite get_ids_set_same in Hx. cbn in Hx. apply Hout. rewrite G. exact Hx.
      * rewrite get_ids_set_other in Hx by exact Hne. apply Hout, Hx.
    + apply NoDup_snoc_ports; [exact Hn1|].
      intros Hx. apply in_map_iff in Hx. destruct Hx as ([p r] & Hp & Hx). cbn in Hp. subst.
      apply Hin in Hx. rewrite G in Hx. discriminate.
    + exact Hn2.
Qed.

Lemma add_outputs_inv rid os : forall ins outs ls port_ids metrics port_ids' metrics',
  ports_inv ins outs port_ids ->
  metrics_inv ls metrics ->
  ConfigManager.add_outputs rid os port_ids metrics = Passed (port_ids', metrics') ->
  ports_inv ins (outs ++ map (fun out : Z * (Z * Z) => (fst (snd out), fst out)) os)
            port_ids' /\
  metrics_inv (ls ++ map (fun out : Z * (Z * Z) =>
                            (Z.min rid (fst out), Z.max rid (fst out), snd (snd out))) os)
              metrics'.
Proof.
  induction os as [|[r [port m]] os IH];
    intros ins outs ls port_ids metrics port_ids' metrics' Hinv Hm H;
    cbn [ConfigManager.add_outputs map] in *.
  - inversion H; subst. rewrite !app_nil_r. split; assumption.
  - apply bind_checked_Passed in H. destruct H as (u & Hc & H).
    apply check_Passed in Hc.
    apply bind_checked_Passed in H. destruct H as (u' & Hc' & H).
    cbn [fst snd].
    replace (outs ++ (port, r) :: map (fun out : Z * (Z * Z) => (fst (snd out), fst out)) os)
      with ((outs ++ [(port, r)]) ++
            map (fun out : Z * (Z * Z) => (fst (snd out), fst out)) os)
      by (rewrite <- app_assoc; reflexivity).
    replace (ls ++ (Z.min rid r, Z.max rid r, m) ::
                map (fun out : Z * (Z * Z) =>
                       (Z.min rid (fst out), Z.max rid (fst out), snd (snd out))) os)
      with ((ls ++ [(Z.min rid r, Z.max rid r, m)]) ++
            map (fun out : Z * (Z * Z) =>
                   (Z.min rid (fst out), Z.max rid (fst out), snd (snd out))) os)
      by (rewrite <- app_assoc; reflexivity).
    eapply IH; [| |exact H].
    + destruct Hinv as (Hin & Hout & Hn1 & Hn2).
      destruct (ConfigManager.get_ids port port_ids) as [i o] eqn:G. cbn [fst snd] in *.
      destruct o; [discriminate|].
      repeat split.
      * intros Hx. destruct (Z.eq_dec port0 port) as [->|Hne].
        -- rewrite get_ids_set_same. cbn. apply Hin in Hx. rewrite G in Hx. exact Hx.
        -- rewrite get_ids_set_other by exact Hne. apply Hin, Hx.
      * intros Hx. destruct (Z.eq_dec port0 port) as [->|Hne].
        -- rewrite get_ids_set_same in Hx. cbn in Hx. apply Hin. rewrite G. exact Hx.
        -- rewrite get_ids_set_other in Hx by exact Hne. apply Hin, Hx.
      * intros Hx. apply in_app_or in Hx. destruct Hx as [Hx|[Hx|[]]].
        -- destruct (Z.eq_dec port0 port) as [->|Hne].
           ++ apply Hout in Hx. rewrite G in Hx. discriminate.
           ++ rewrite get_ids_set_other by exact Hne. apply Hout, Hx.
        -- inversion Hx; subst. rewrite get_ids_set_same. reflexivity.
      * intros Hx. apply in_or_app.
        destruct (Z.eq_dec port0 port) as [->|Hne].
        -- rewrite get_ids_set_same in Hx. cbn in Hx. inversion Hx; subst.
           right. left. reflexivity.
        -- rewrite get_ids_set_other in Hx by exact Hne. left. apply Hout, Hx.
      * exact Hn1.
      * apply NoDup_snoc_ports; [exact Hn2|].
        intros Hx. apply in_map_iff in Hx. destruct Hx as ([p r'] & Hp & Hx). cbn in Hp. subst.
        apply Hout in Hx. rewrite G in Hx. discriminate.
    + intros lo hi m' Hx. apply in_app_or in Hx. destruct Hx as [Hx|[Hx|[]]].
      * destruct (Z.eq_dec lo (Z.min rid r)) as [->|Hne];
          [destruct (Z.eq_dec hi (Z.max rid r)) as [->|Hne]|].
        -- rewrite pair_get_set_same. apply Hm in Hx. rewrite Hx in Hc'.
           apply check_Passed in Hc'. apply Z.eqb_eq in Hc'. congruence.
        -- rewrite pair_get_set_other by congruence. apply Hm, Hx.
        -- rewrite pair_get_set_other by congruence. apply Hm, Hx.
      * inversion Hx; subst. apply pair_get_set_same.
Qed.

Lemma scan_configs_inv configs : forall ins outs ls port_ids metrics port_ids' metrics',
  ports_inv ins outs port_ids ->
  metrics_inv ls metrics ->
  ConfigManager.scan_configs configs port_ids metrics = Passed (port_ids', metrics') ->
  ports_inv (ins ++ listeners configs) (outs ++ senders configs) port_ids' /\
  metrics_inv (ls ++ links configs) metrics'.
Proof.
  induction configs as [|c configs IH];
    intros ins outs ls port_ids metrics port_ids' metrics' Hinv Hm H;
    cbn [ConfigManager.scan_configs listeners senders links flat_map] in *.
  - inversion H; subst. rewrite !app_nil_r. split; assumption.
  - apply bind_checked_Passed in H. destruct H as (p1 & Hi & H).
    apply bind_checked_Passed in H. destruct H as ([p2 m2] & Ho & H).
    eapply add_inputs_inv in Hi; [|exact Hinv].
    eapply add_outputs_inv in Ho; [|exact Hi|exact Hm].
    destruct Ho as [Hp2 Hm2].
    rewrite !app_assoc. eapply IH; [exact Hp2 | exact Hm2 | exact H].
Qed.

Lemma ports_inv_empty : ports_inv [] [] [].
Proof.
  unfold ports_inv, ConfigManager.get_ids. cbn.
  split; [|split; [|split; apply NoDup_nil]].
  all: intros port rid; split; intros H; [destruct H | discriminate H].
Qed.

Lemma check_ports_Passed items :
  ConfigManager.check_ports items = Passed tt ->
  forall port in_id out_id, In (port, (in_id, out_id)) items ->
  exists rid, in_id = Some rid /\ out_id = Some rid.
Proof.
  induction items as [|[p [i o]] items IH]; intros H port in_id out_id Hin.
  - destruct Hin.
  - cbn [ConfigManager.check_ports] in H.
    apply bind_checked_Passed in H. destruct H as (u1 & H1 & H).
    apply bind_checked_Passed in H. destruct H as (u2 & H2 & H).
    apply bind_checked_Passed in H. destruct H as (u3 & H3 & H).
    destruct u3. destruct Hin as [Hx|Hx]; [|eapply IH; eassumption].
    inversion Hx; subst.
    apply check_Passed in H1, H2, H3.
    destruct in_id as [a|]; [|discriminate]. destruct out_id as [b|]; [|discriminate].
    cbn in H3. apply Z.eqb_eq in H3. subst. eauto.
Qed.

Lemma get_ids_checked port_ids port :
  ConfigManager.check_ports port_ids = Passed tt ->
  fst (ConfigManager.get_ids port port_ids) = snd (ConfigManager.get_ids port port_ids).
Proof.
  intros H. unfold ConfigManager.get_ids.
  destruct (dict_get port port_ids) as [[i o]|] eqn:G; [|reflexivity].
  apply dict_get_In in G.
  destruct (check_ports_Passed _ H _ _ _ G) as (r & -> & ->). reflexivity.
Qed.

Lemma check_router_ids_Passed (pairs : list (Config * Config)) :
  ConfigManager.check_router_ids pairs = Passed tt ->
  forall c1 c2, In (c1, c2) pairs -> router_id c1 <> router_id c2.
Proof.
  induction pairs as [|[a b] pairs IH]; intros H c1 c2 Hin; [destruct Hin|].
  cbn [ConfigManager.check_router_ids] in H.
  apply bind_checked_Passed in H. destruct H as (u & Hc & H). destruct u.
  destruct Hin as [Hx|Hx]; [|eapply IH; eassumption].
  inversion Hx; subst. apply check_Passed in Hc.
  apply negb_true_iff, Z.eqb_neq in Hc. exact Hc.
Qed.

Lemma combinations2_NoDup (configs : list Config) :
  (forall c1 c2, In (c1, c2) (combinations2 configs) -> router_id c1 <> router_id c2) ->
  NoDup (map router_id configs).
Proof.
  induction configs as [|c configs IH]; intros H; cbn; constructor.
  - intros Hx. apply in_map_iff in Hx. destruct Hx as (c' & Heq & Hc').
    apply (H c c'); [|congruence].
    cbn. apply in_or_app. left. apply in_map_iff. exists c'. split; [reflexivity | exact Hc'].
  - apply IH. intros c1 c2 Hx. apply H. cbn. apply in_or_app. right. exact Hx.
Qed.

(** What a fleet that passes has been checked for, in terms of the scan. *)
Lemma validate_configs_Passed configs :
  ConfigManager.validate_configs configs = Passed tt ->
  NoDup (map router_id configs) /\
  (forall port rid, In (port, rid) (listeners configs) <-> In (port, rid) (senders configs)) /\
  NoDup (map fst (listeners configs)) /\
  NoDup (map fst (senders configs)) /\
  exists metrics, metrics_inv (links configs) metrics.
Proof.
  unfold ConfigManager.validate_configs. intros H.
  apply bind_checked_Passed in H. destruct H as (u & Hids & H). destruct u.
  apply bind_checked_Passed in H. destruct H as ([port_ids metrics] & Hscan & H).
  split.
  { apply combinations2_NoDup, check_router_ids_Passed, Hids. }
  eapply scan_configs_inv in Hscan; [|exact ports_inv_empty|];
    [|instantiate (1 := []); intros lo hi m []].
  cbn [app] in Hscan. destruct Hscan as ((Hin & Hout & Hn1 & Hn2) & Hm).
  repeat split; try assumption.
  - intros Hx. apply Hout. rewrite <- (get_ids_checked _ port H). apply Hin, Hx.
  - intros Hx. apply Hin. rewrite (get_ids_checked _ port H). apply Hout, Hx.
  - exists metrics. exact Hm.
Qed.

Lemma In_listeners configs port rid :
  In (port, rid) (listeners configs) <->
  exists c, In c configs /\ router_id c = rid /\ In port (input_ports c).
Proof.
  unfold listeners. rewrite in_flat_map. split.
  - intros (c & Hc & Hx). apply in_map_iff in Hx. destruct Hx as (p & Hp & Hx).
    inversion Hp; subst. eauto.
  - intros (c & Hc & Hr & Hx). exists c. split; [exact Hc|].
    apply in_map_iff. exists port. subst. auto.
Qed.

Lemma In_senders configs port rid :
  In (port, rid) (senders configs) <->
  exists c m, In c configs /\ In (rid, (port, m)) (outputs c).
Proof.
  unfold senders. rewrite in_flat_map. split.
  - intros (c & Hc & Hx). apply in_map_iff in Hx. destruct Hx as ([r [p m]] & Hp & Hx).
    cbn in Hp. inversion Hp; subst. eauto.
  - intros (c & m & Hc & Hx). exists c. split; [exact Hc|].
    apply in_map_iff. exists (rid, (port, m)). auto.
Qed.

Lemma In_links configs c rid port m :
  In c configs -> In (rid, (port, m)) (outputs c) ->
  In (Z.min (router_id c) rid, Z.max (router_id c) rid, m) (links configs).
Proof.
  intros Hc Hx. unfold links. apply in_flat_map. exists c. split; [exact Hc|].
  apply in_map_iff. exists (rid, (port, m)). auto.
Qed.

Lemma metrics_inv_agree ls metrics : metrics_inv ls metrics -> links_agree ls.
Proof.
  intros H lo hi m m' H1 H2. apply H in H1, H2. congruence.
Qed.

Lemma validate_configs_sound configs :
  ConfigManager.validate_configs configs = Passed tt -> consistent_fleet configs.
Proof.
  intros H. apply validate_configs_Passed in H.
  destruct H as (H1 & H2 & H3 & H4 & metrics & H5).
  repeat split; try assumption; try apply H2.
  eapply metrics_inv_agree, H5.
Qed.

(** *** The checks pass on a consistent fleet *)

Lemma dict_set_NoDup_keys {V} k (v : V) d : NoDup (keys d) -> NoDup (keys (dict_set k v d)).
Proof.
  intros H. destruct (dict_get k d) as [v0|] eqn:G.
  - rewrite (keys_dict_set_present k v v0 d G). exact H.
  - rewrite dict_set_new by exact G. unfold keys. rewrite map_app. cbn.
    apply NoDup_app; [exact H | repeat constructor; intros [] |].
    intros x Hx [Hk|[]]. subst. exact (dict_get_None_keys _ _ G Hx).
Qed.

Lemma In_dict_get {V} k (v : V) d : NoDup (keys d) -> In (k, v) d -> dict_get k d = Some v.
Proof.
  unfold keys. induction d as [|[k' v'] d IH]; cbn; intros Hno Hin; [destruct Hin|].
  inversion Hno as [|x l Hnot Hno']; subst.
  destruct Hin as [Hx|Hx].
  - inversion Hx; subst. rewrite Z.eqb_refl. reflexivity.
  - destruct (k' =? k) eqn:E; [|apply IH; assumption].
    apply Z.eqb_eq in E. subst. exfalso. apply Hnot.
    apply in_map_iff. exists (k, v). auto.
Qed.

Lemma ports_stored_set port ids port_ids :
  ports_stored port_ids -> ids <> (None, None) ->
  ports_stored (dict_set port ids port_ids).
Proof.
  intros [H1 H2] Hids. split; [apply dict_set_NoDup_keys, H1|].
  apply dict_set_Forall; [exact H2 | exact Hids].
Qed.

Lemma NoDup_ports_head (ins rest : list (Z * Z)) port rid :
  NoDup (map fst (ins ++ (port, rid) :: rest)) ->
  ~ In port (map fst ins) /\ NoDup (map fst ((ins ++ [(port, rid)]) ++ rest)).
Proof.
  intros H. split.
  - rewrite map_app in H. cbn in H. apply NoDup_remove_2 in H.
    intros Hx. apply H. apply in_or_app. left. exact Hx.
  - rewrite <- app_assoc. exact H.
Qed.

Lemma add_inputs_complete rid ports : forall ins outs port_ids,
  ports_inv ins outs port_ids -> ports_stored port_ids ->
  NoDup (map fst (ins ++ map (fun port => (port, rid)) ports)) ->
  exists port_ids',
    ConfigManager.add_inputs rid ports port_ids = Passed port_ids' /\ ports_stored port_ids'.
Proof.
  induction ports as [|port ports IH]; intros ins outs port_ids Hinv Hst Hno;
    cbn [ConfigManager.add_inputs map] in *.
  - eauto.
  - apply NoDup_ports_head in Hno. destruct Hno as [Hnot Hno].
    assert (Hnone : fst (ConfigManager.get_ids port port_ids) = None).
    { destruct (fst (ConfigManager.get_ids port port_ids)) as [r|] eqn:G; [|reflexivity].
      exfalso. apply Hnot. apply in_map_iff. exists (port, r). split; [reflexivity|].
      apply (proj1 Hinv). exact G. }
    rewrite Hnone. cbn [is_None check bind_checked].
    eapply IH; [| |exact Hno].
    + apply (add_inputs_inv rid [port] ins outs port_ids); [exact Hinv|].
      cbn [ConfigManager.add_inputs]. rewrite Hnone. reflexivity.
    + apply ports_stored_set; [exact Hst | discriminate].
Qed.

Lemma add_outputs_complete rid os : forall ins outs ls port_ids metrics,
  ports_inv ins outs port_ids -> ports_stored port_ids ->
  metrics_inv ls metrics -> metrics_known ls metrics ->
  NoDup (map fst (outs ++ map (fun out : Z * (Z * Z) => (fst (snd out), fst out)) os)) ->
  links_agree (ls ++ map (fun out : Z * (Z * Z) =>
                            (Z.min rid (fst out), Z.max rid (fst out), snd (snd out))) os) ->
  exists port_ids' metrics',
    ConfigManager.add_outputs rid os port_ids metrics = Passed (port_ids', metrics') /\
    ports_stored port_ids' /\
    metrics_known (ls ++ map (fun out : Z * (Z * Z) =>
                                (Z.min rid (fst out), Z.max rid (fst out), snd (snd out))) os)
                  metrics'.
Proof.
  induction os as [|[r [port m]] os IH];
    intros ins outs ls port_ids metrics Hinv Hst Hm Hk Hno Hag;
    cbn [ConfigManager.add_outputs map fst snd] in *.
  - rewrite app_nil_r. eauto.
  - apply NoDup_ports_head in Hno. destruct Hno as [Hnot Hno].
    assert (Hnone : snd (ConfigManager.get_ids port port_ids) = None).
    { destruct (snd (ConfigManager.get_ids port port_ids)) as [r'|] eqn:G; [|reflexivity].
      exfalso. apply Hnot. apply in_map_iff. exists (port, r'). split; [reflexivity|].
      apply (proj1 (proj2 Hinv)). exact G. }
    assert (Hcheck : match pair_get (Z.min rid r, Z.max rid r) metrics with
                     | Some current_metric =>
                         check (current_metric =? m)
                               (MetricMismatch (Z.min rid r) (Z.max rid r))
                     | None => Passed tt
                     end = Passed tt).
    { destruct (pair_get (Z.min rid r, Z.max rid r) metrics) as [cm|] eqn:G; [|reflexivity].
      apply Hk in G.
      assert (cm = m) as ->.
      { apply (Hag (Z.min rid r) (Z.max rid r)); apply in_or_app;
          [left; exact G | right; left; reflexivity]. }
      rewrite Z.eqb_refl. reflexivity. }
    assert (Hstep : ConfigManager.add_outputs rid [(r, (port, m))] port_ids metrics =
                    Passed (dict_set port (fst (ConfigManager.get_ids port port_ids), Some r)
                                     port_ids,
                            pair_set (Z.min rid r, Z.max rid r) m metrics)).
    { cbn [ConfigManager.add_outputs]. rewrite Hnone, Hcheck. reflexivity. }
    rewrite Hnone, Hcheck. cbn [is_None check bind_checked].
    destruct (add_outputs_inv _ _ _ _ _ _ _ _ _ Hinv Hm Hstep) as [Hinv' Hm'].
    cbn [map fst snd] in Hinv', Hm'.
    replace (ls ++ (Z.min rid r, Z.max rid r, m) ::
                map (fun out : Z * (Z * Z) =>
                       (Z.min rid (fst out), Z.max rid (fst out), snd (snd out))) os)
      with ((ls ++ [(Z.min rid r, Z.max rid r, m)]) ++
            map (fun out : Z * (Z * Z) =>
                   (Z.min rid (fst out), Z.max rid (fst out), snd (snd out))) os) in *
      by (rewrite <- app_assoc; reflexivity).
    eapply IH; [exact Hinv' | | exact Hm' | | exact Hno | exact Hag].
    + apply ports_stored_set; [exact Hst | discriminate].
    + intros lo hi m' Hx. apply in_or_app.
      destruct (Z.eq_dec lo (Z.min rid r)) as [->|Hne];
        [destruct (Z.eq_dec hi (Z.max rid r)) as [->|Hne]|].
      * rewrite pair_get_set_same in Hx. inversion Hx; subst. right. left. reflexivity.
      * rewrite pair_get_set_other in Hx by congruence. left. apply Hk, Hx.
      * rewrite pair_get_set_other in Hx by congruence. left. apply Hk, Hx.
Qed.

Lemma scan_configs_complete configs : forall ins outs ls port_ids metrics,
  ports_inv ins outs port_ids -> ports_stored port_ids ->
  metrics_inv ls metrics -> metrics_known ls metrics ->
  NoDup (map fst (ins ++ listeners configs)) ->
  NoDup (map fst (outs ++ senders configs)) ->
  links_agree (ls ++ links configs) ->
  exists port_ids' metrics',
    ConfigManager.scan_configs configs port_ids metrics = Passed (port_ids', metrics') /\
    ports_stored port_ids'.
Proof.
  induction configs as [|c configs IH];
    intros ins outs ls port_ids metrics Hinv Hst Hm Hk Hn1 Hn2 Hag;
    cbn [ConfigManager.scan_configs listeners senders links flat_map] in *.
  - eauto.
  - rewrite app_assoc in Hn1, Hn2, Hag.
    destruct (add_inputs_complete (router_id c) (input_ports c) ins outs port_ids Hinv Hst)
      as (p1 & Hi & Hst1).
    { rewrite map_app in Hn1. apply NoDup_app_remove_r in Hn1. exact Hn1. }
    pose proof (add_inputs_inv _ _ _ _ _ _ Hinv Hi) as Hinv1.
    destruct (add_outputs_complete (router_id c) (outputs c) _ outs ls p1 metrics
                                   Hinv1 Hst1 Hm Hk)
      as (p2 & m2 & Ho & Hst2 & Hk2).
    { rewrite map_app in Hn2. apply NoDup_app_remove_r in Hn2. exact Hn2. }
    { intros lo hi m m' H1 H2. apply (Hag lo hi); apply in_or_app; left; assumption. }
    destruct (add_outputs_inv _ _ _ _ _ _ _ _ _ Hinv1 Hm Ho) as [Hinv2 Hm2].
    rewrite Hi. cbn [bind_checked]. rewrite Ho. cbn [bind_checked].
    eapply IH; eassumption.
Qed.

Lemma check_ports_complete ins outs port_ids :
  ports_inv ins outs port_ids -> ports_stored port_ids ->
  (forall port rid, In (port, rid) ins <-> In (port, rid) outs) ->
  ConfigManager.check_ports port_ids = Passed tt.
Proof.
  intros (Hin & Hout & _ & _) [Hno Hst] Hpair.
  assert (Hall : Forall (fun item : Z * (option Z * option Z) =>
                           exists r, snd item = (Some r, Some r)) port_ids).
  { apply Forall_forall. intros [port [i o]] Hx. cbn [snd].
    pose proof (proj1 (Forall_forall _ _) Hst _ Hx) as Hnn. cbn [snd] in Hnn.
    apply In_dict_get in Hx; [|exact Hno].
    assert (G : ConfigManager.get_ids port port_ids = (i, o)).
    { unfold ConfigManager.get_ids. rewrite Hx. reflexivity. }
    destruct i as [a|].
    - exists a. f_equal.
      assert (Ha : In (port, a) outs) by (apply Hpair, Hin; rewrite G; reflexivity).
      apply Hout in Ha. rewrite G in Ha. exact Ha.
    - destruct o as [b|]; [|congruence].
      assert (Hb : In (port, b) ins) by (apply Hpair, Hout; rewrite G; reflexivity).
      apply Hin in Hb. rewrite G in Hb. discriminate. }
  clear - Hall. induction Hall as [|[port [i o]] items [r Hr] _ IH]; [reflexivity|].
  cbn [snd] in Hr. inversion Hr; subst.
  cbn [ConfigManager.check_ports is_None negb check bind_checked option_Z_eqb].
  rewrite Z.eqb_refl. exact IH.
Qed.

Lemma check_router_ids_spec (pairs : list (Config * Config)) :
  (ConfigManager.check_router_ids pairs = Passed tt /\
   Forall (fun p => router_id (fst p) <> router_id (snd p)) pairs) \/
  (exists c1 c2, In (c1, c2) pairs /\ router_id c1 = router_id c2 /\
                 ConfigManager.check_router_ids pairs = Failed (SameRouterId (router_id c1))).
Proof.
  induction pairs as [|[a b] pairs IH]; [left; split; [reflexivity | constructor]|].
  cbn [ConfigManager.check_router_ids].
  destruct (router_id a =? router_id b) eqn:E.
  - right. apply Z.eqb_eq in E. exists a, b. repeat split; [left; reflexivity | exact E].
  - apply Z.eqb_neq in E. cbn [negb check bind_checked].
    destruct IH as [[H1 H2]|(c1 & c2 & H1 & H2 & H3)].
    + left. split; [exact H1 | constructor; [exact E | exact H2]].
    + right. exists c1, c2. repeat split; [right; exact H1 | exact H2 | exact H3].
Qed.

Lemma In_combinations2 (configs : list Config) c1 c2 :
  In (c1, c2) (combinations2 configs) ->
  exists l1 l2 l3, configs = l1 ++ c1 :: l2 ++ c2 :: l3.
Proof.
  induction configs as [|c configs IH]; cbn; [intros []|].
  intros H. apply in_app_or in H. destruct H as [H|H].
  - apply in_map_iff in H. destruct H as (b & Hb & H). inversion Hb; subst.
    apply in_split in H. destruct H as (l2 & l3 & ->). exists nil, l2, l3. reflexivity.
  - destruct (IH H) as (l1 & l2 & l3 & ->). exists (c :: l1), l2, l3. reflexivity.
Qed.

Lemma check_router_ids_complete (configs : list Config) :
  NoDup (map router_id configs) ->
  ConfigManager.check_router_ids (combinations2 configs) = Passed tt.
Proof.
  intros Hno.
  destruct (check_router_ids_spec (combinations2 configs))
    as [[H _]|(c1 & c2 & Hin & Heq & _)]; [exact H|].
  exfalso. apply In_combinations2 in Hin. destruct Hin as (l1 & l2 & l3 & ->).
  rewrite map_app in Hno. cbn [map] in Hno. apply NoDup_remove_2 in Hno.
  apply Hno. apply in_or_app. right. rewrite map_app. apply in_or_app. right.
  left. symmetry. exact Heq.
Qed.

Lemma validate_configs_complete configs :
  consistent_fleet configs -> ConfigManager.validate_configs configs = Passed tt.
Proof.
  intros (H1 & H2 & H3 & H4 & H5). unfold ConfigManager.validate_configs.
  rewrite (check_router_ids_complete _ H1). cbn [bind_checked].
  assert (Hst : ports_stored []) by (split; constructor).
  assert (Hm : metrics_inv [] []) by (intros lo hi m []).
  assert (Hk : metrics_known [] []) by (intros lo hi m Hx; discriminate Hx).
  destruct (scan_configs_complete configs [] [] [] [] [] ports_inv_empty Hst Hm Hk H3 H4 H5)
    as (port_ids & metrics & Hscan & Hst').
  rewrite Hscan. cbn [bind_checked].
  destruct (scan_configs_inv _ _ _ _ _ _ _ _ ports_inv_empty Hm Hscan) as [Hinv _].
  cbn [app] in Hinv. eapply check_ports_complete; eassumption.
Qed.

Lemma add_inputs_failure rid ports : forall port_ids msg,
  ConfigManager.add_inputs rid ports port_ids = Failed msg -> is_SameRouterId msg = false.
Proof.
  induction ports as [|port ports IH]; intros port_ids msg H;
    cbn [ConfigManager.add_inputs] in H; [discriminate|].
  destruct (is_None (fst (ConfigManager.get_ids port port_ids))); cbn in H.
  - eapply IH, H.
  - inversion H; subst. reflexivity.
Qed.

Lemma add_outputs_failure rid os : forall port_ids metrics msg,
  ConfigManager.add_outputs rid os port_ids metrics = Failed msg ->
  is_SameRouterId msg = false.
Proof.
  induction os as [|[r [port m]] os IH]; intros port_ids metrics msg H;
    cbn [ConfigManager.add_outputs] in H; [discriminate|].
  destruct (is_None (snd (ConfigManager.get_ids port port_ids)));
    cbn [check bind_checked] in H; [|inversion H; subst; reflexivity].
  destruct (pair_get (Z.min rid r, Z.max rid r) metrics) as [cm|];
    [destruct (cm =? m)|]; cbn [check bind_checked] in H;
    try (eapply IH, H). inversion H; subst. reflexivity.
Qed.

Lemma scan_configs_failure configs : forall port_ids metrics msg,
  ConfigManager.scan_configs configs port_ids metrics = Failed msg ->
  is_SameRouterId msg = false.
Proof.
  induction configs as [|c configs IH]; intros port_ids metrics msg H;
    cbn [ConfigManager.scan_configs] in H; [discriminate|].
  destruct (ConfigManager.add_inputs (router_id c) (input_ports c) port_ids) as [p1|msg1] eqn:Hi;
    cbn [bind_checked] in H; [|inversion H; subst; eapply add_inputs_failure, Hi].
  destruct (ConfigManager.add_outputs (router_id c) (outputs c) p1 metrics)
    as [[p2 m2]|msg2] eqn:Ho;
    cbn [bind_checked] in H; [|inversion H; subst; eapply add_outputs_failure, Ho].
  eapply IH, H.
Qed.

Lemma check_ports_failure items msg :
  ConfigManager.check_ports items = Failed msg -> is_SameRouterId msg = false.
Proof.
  induction items as [|[port [i o]] items IH]; intros H;
    cbn [ConfigManager.check_ports] in H; [discriminate|].
  destruct i as [a|], o as [b|]; cbn [is_None negb check bind_checked option_Z_eqb] in H;
    try (inversion H; subst; reflexivity).
  destruct (a =? b); cbn [check bind_checked] in H; [exact (IH H)|].
  inversion H; subst. reflexivity.
Qed.

(** ** What [validate_configs] accepts *)

(** X16. [validate_configs] passes exactly on the fleets whose router-ids
    are pairwise distinct, in which every port has one listener and one
    writer and the writer names the listener, and in which all
    declarations of a link give the same metric. *)
Theorem validate_configs_passes_iff_consistent_fleet (configs : list Config) :
  ConfigManager.validate_configs configs = Passed tt <-> consistent_fleet configs.
Proof.
  split; [apply validate_configs_sound | apply validate_configs_complete].
Qed.

(** X17. In a fleet that passes [validate_configs], every output of a
    configuration points at an input port of the configuration with the
    router-id it names, and every input port is written to by an output
    that names its router. *)
Theorem validate_configs_pairs_every_port (configs : list Config)
        (Hpass : ConfigManager.validate_configs configs = Passed tt) :
  (forall c rid port m,
      In c configs -> In (rid, (port, m)) (outputs c) ->
      exists c', In c' configs /\ router_id c' = rid /\ In port (input_ports c')) /\
  (forall c port,
      In c configs -> In port (input_ports c) ->
      exists c' m, In c' configs /\ In (router_id c, (port, m)) (outputs c')).
Proof.
  apply validate_configs_sound in Hpass. destruct Hpass as (_ & Hpair & _).
  split.
  - intros c rid port m Hc Hout. apply In_listeners, Hpair, In_senders. eauto.
  - intros c port Hc Hin. apply In_senders, Hpair, In_listeners. eauto.
Qed.

Lemma validate_configs_pairs_every_port_at_docstring_fleet :
  let configs := [doc_config 2 [2000; 2001] [(3, (3000, 1)); (4, (4000, 2))];
                  doc_config 3 [3000; 3001] [(2, (2000, 1)); (4, (4001, 3))];
                  doc_config 4 [4000; 4001] [(2, (2001, 2)); (3, (3001, 3))]] in
  ConfigManager.validate_configs configs = Passed tt /\
  (forall c rid port m,
      In c configs -> In (rid, (port, m)) (outputs c) ->
      exists c', In c' configs /\ router_id c' = rid /\ In port (input_ports c')) /\
  (forall c port,
      In c configs -> In port (input_ports c) ->
      exists c' m, In c' configs /\ In (router_id c, (port, m)) (outputs c')).
Proof.
  cbv zeta. split; [vm_compute; reflexivity|].
  apply validate_configs_pairs_every_port. vm_compute. reflexivity.
Defined.

(** X18. In a fleet that passes [validate_configs], two configurations
    that name each other as neighbours give the link the same metric. *)
Theorem validate_configs_metrics_agree (configs : list Config) (c c' : Config)
        (port port' m m' : Z)
        (Hpass : ConfigManager.validate_configs configs = Passed tt)
        (Hc : In c configs) (Hc' : In c' configs)
        (Hout : In (router_id c', (port, m)) (outputs c))
        (Hout' : In (router_id c, (port', m')) (outputs c')) :
  m = m'.
Proof.
  apply validate_configs_sound in Hpass. destruct Hpass as (_ & _ & _ & _ & Hag).
  pose proof (In_links _ _ _ _ _ Hc Hout) as H1.
  pose proof (In_links _ _ _ _ _ Hc' Hout') as H2.
  rewrite Z.min_comm, Z.max_comm in H2.
  exact (Hag _ _ _ _ H1 H2).
Qed.

Lemma validate_configs_metrics_agree_at_docstring_fleet :
  let c := doc_config 2 [2000] [(3, (3000, 1))] in
  let c' := doc_config 3 [3000] [(2, (2000, 1))] in
  ConfigManager.validate_configs [c; c'] = Passed tt /\
  In (router_id c', (3000, 1)) (outputs c) /\
  In (router_id c, (2000, 1)) (outputs c') /\
  1 = 1.
Proof.
  cbv zeta. split; [vm_compute; reflexivity|].
  split; [left; reflexivity|]. split; [left; reflexivity|].
  refine (validate_configs_metrics_agree
            [doc_config 2 [2000] [(3, (3000, 1))]; doc_config 3 [3000] [(2, (2000, 1))]]
            (doc_config 2 [2000] [(3, (3000, 1))]) (doc_config 3 [3000] [(2, (2000, 1))])
            3000 2000 1 1 _ _ _ _ _).
  - vm_compute; reflexivity.
  - left; reflexivity.
  - right; left; reflexivity.
  - left; reflexivity.
  - left; reflexivity.
Defined.

(** X19. [validate_configs] fails with "same router-id" exactly when two
    configurations of the fleet share a router-id, whatever else is wrong
    with the fleet. *)
Theorem validate_configs_same_router_id_iff_duplicate (configs : list Config) :
  (exists r, ConfigManager.validate_configs configs = Failed (SameRouterId r)) <->
  ~ NoDup (map router_id configs).
Proof.
  unfold ConfigManager.validate_configs. split.
  - intros [r H] Hno. rewrite (check_router_ids_complete _ Hno) in H.
    cbn [bind_checked] in H.
    destruct (ConfigManager.scan_configs configs [] []) as [[port_ids metrics]|msg] eqn:Hs;
      cbn [bind_checked] in H.
    + apply check_ports_failure in H. discriminate.
    + inversion H; subst. apply scan_configs_failure in Hs. discriminate.
  - intros Hdup.
    destruct (check_router_ids_spec (combinations2 configs))
      as [[H _]|(c1 & c2 & _ & _ & H)].
    + exfalso. apply Hdup. apply combinations2_NoDup, check_router_ids_Passed, H.
    + exists (router_id c1). rewrite H. reflexivity.
Qed.

(** ** What one call of [send_any_updates] sends *)

Lemma check_entries_draws items : forall to_delete pending w r w',
  RipManager.check_entries items to_delete pending w = Ok (r, w') -> draws w' = draws w.
Proof.
  induction items as [|[d e] items IH]; cbn [RipManager.check_entries];
    intros to_delete pending w r w' H.
  - unfold ret in H. inversion H; subst. reflexivity.
  - assert (Hsd : forall w0 b w1, should_delete e w0 = Ok (b, w1) -> draws w1 = draws w0).
    { intros w0 b w1. unfold should_delete, bind, time, ret.
      destruct (time_deletion_due e); intros X; inversion X; subst; reflexivity. }
    assert (Hsb : forall w0 b w1,
               should_begin_deletion e w0 = Ok (b, w1) -> draws w1 = draws w0).
    { intros w0 b w1. unfold should_begin_deletion, bind, time, ret.
      destruct (negb _); [destruct (_ <=? _)|]; intros X; inversion X; subst; reflexivity. }
    assert (Hbd : forall w0 e' w1, begin_deletion e w0 = Ok (e', w1) -> draws w1 = draws w0).
    { intros w0 e' w1. unfold begin_deletion, bind, lift, assert, time, ret.
      destruct (negb _); intros X; inversion X; subst; reflexivity. }
    apply bind_Ok in H. destruct H as (delete & w1 & H1 & H).
    apply Hsd in H1. destruct delete.
    + apply bind_Ok in H. destruct H as (r1 & w2 & Hrec & H).
      destruct r1 as [[i1 t1] p1]. unfold ret in H. inversion H; subst.
      rewrite (IH _ _ _ _ _ Hrec). exact H1.
    + apply bind_Ok in H. destruct H as (begin & w2 & H2 & H).
      apply Hsb in H2. destruct begin.
      * apply bind_Ok in H. destruct H as (e' & w3 & H3 & H). apply Hbd in H3.
        apply bind_Ok in H. destruct H as (r1 & w4 & Hrec & H).
        destruct r1 as [[i1 t1] p1]. unfold ret in H. inversion H; subst.
        rewrite (IH _ _ _ _ _ Hrec). congruence.
      * apply bind_Ok in H. destruct H as (r1 & w3 & Hrec & H).
        destruct r1 as [[i1 t1] p1]. unfold ret in H. inversion H; subst.
        rewrite (IH _ _ _ _ _ Hrec). congruence.
Qed.

Lemma empty_rip_packet_ext s1 s2 :
  RipManager.our_routerid s1 = RipManager.our_routerid s2 ->
  RipManager.empty_rip_packet s1 = RipManager.empty_rip_packet s2.
Proof. unfold RipManager.empty_rip_packet. intros ->. reflexivity. Qed.

Lemma add_entries_ext s1 s2 peer items :
  RipManager.our_routerid s1 = RipManager.our_routerid s2 ->
  forall packets packet,
    RipManager.add_entries s1 peer items packets packet =
    RipManager.add_entries s2 peer items packets packet.
Proof.
  intros Hid. induction items as [|[d e] items IH]; intros packets packet;
    cbn [RipManager.add_entries]; [reflexivity|].
  destruct (RipManager.advertised_metric peer e) as [m|]; [|apply IH].
  rewrite (empty_rip_packet_ext s1 s2 Hid).
  destruct (if 4 + 20 * 25 <=? len packet
            then (fresh <- RipManager.empty_rip_packet s2 ;; Ok (packets ++ [packet], fresh))%res
            else Ok (packets, packet)) as [[ps p]|ex]; cbn [bind_res]; [|reflexivity].
  destruct (rip_entry d m) as [b|ex]; cbn [bind_res]; [apply IH | reflexivity].
Qed.

Lemma build_packets_ext s1 s2 peer :
  RipManager.our_routerid s1 = RipManager.our_routerid s2 ->
  RipManager.routing_table s1 = RipManager.routing_table s2 ->
  RipManager.build_packets s1 peer = RipManager.build_packets s2 peer.
Proof.
  intros Hid Ht. unfold RipManager.build_packets.
  rewrite (empty_rip_packet_ext s1 s2 Hid), Ht.
  destruct (RipManager.empty_rip_packet s2) as [p|ex]; cbn [bind_res]; [|reflexivity].
  destruct (rip_entry peer INFINITE_METRIC) as [b|ex]; cbn [bind_res];
    [|reflexivity].
  rewrite (add_entries_ext s1 s2 peer _ Hid). reflexivity.
Qed.

Lemma update_datagrams_ext s1 s2 routers :
  RipManager.our_routerid s1 = RipManager.our_routerid s2 ->
  RipManager.routing_table s1 = RipManager.routing_table s2 ->
  update_datagrams s1 routers = update_datagrams s2 routers.
Proof.
  intros Hid Ht. induction routers as [|[r [port m]] routers IH]; cbn [update_datagrams];
    [reflexivity|].
  rewrite (build_packets_ext s1 s2 r Hid Ht), IH. reflexivity.
Qed.

(** X20. One call of [send_any_updates] sends all or nothing.  Either no
    datagram is sent, the two update times are left as they were and the
    random generator is not read; or exactly one complete update goes out,
    built from the routing table as the call leaves it -- after routes due
    for deletion are removed and expired routes are set to metric 16 --
    and [triggered_update_pending] is cleared. *)
Theorem send_any_updates_sends_all_or_nothing
        (self : RipManager.t) (w : World) (self' : RipManager.t) (w' : World) :
  RipManager.send_any_updates self w = Ok (self', w') ->
  (outbox w' = outbox w /\
   RipManager.next_periodic_update self' = RipManager.next_periodic_update self /\
   RipManager.next_triggered_update self' = RipManager.next_triggered_update self /\
   draws w' = draws w) \/
  (exists sent,
      update_datagrams self' (RipManager.output_routers self') = Ok sent /\
      outbox w' = outbox w ++ sent /\
      RipManager.triggered_update_pending self' = false /\
      draws w' = (2 + draws w)%nat).
Proof.
  intros H. unfold RipManager.send_any_updates in H.
  apply bind_Ok in H. destruct H as ([[table to_delete] pending] & w1 & Hcheck & H).
  apply bind_Ok in H. destruct H as (table' & w2 & Hdel & H).
  apply lift_Ok in Hdel. destruct Hdel as [Hdel <-].
  apply bind_Ok in H. destruct H as (now & w3 & Hnow & H).
  apply bind_Ok in H. destruct H as (triggered & w4 & Htrig & H).
  pose proof (check_entries_outbox _ _ _ _ _ _ Hcheck) as Ho1.
  pose proof (check_entries_draws _ _ _ _ _ _ Hcheck) as Hd1.
  assert (H3 : outbox w3 = outbox w1 /\ draws w3 = draws w1)
    by (unfold time in Hnow; inversion Hnow; subst; split; reflexivity).
  assert (H4 : outbox w4 = outbox w3 /\ draws w4 = draws w3).
  { cbn [RipManager.triggered_update_pending RipManager.set_triggered_update_pending] in Htrig.
    destruct pending; unfold bind, time, ret in Htrig; inversion Htrig; subst;
      split; reflexivity. }
  destruct H3 as [Ho3 Hd3], H4 as [Ho4 Hd4].
  match type of H with
  | (if ?b then _ else _) _ = Ok _ => destruct b
  end.
  - right. unfold RipManager.send_response_messages in H.
    apply bind_Ok in H. destruct H as (u & w5 & Hs & H).
    destruct (send_to_routers_outbox _ _ _ _ _ Hs) as (sent & Hsent & Ho & _ & _ & Hd & _).
    exists sent.
    unfold bind, time, uniform, ret, tick in H. inversion H; subst. cbn.
    split; [|split; [congruence | split; [reflexivity | congruence]]].
    rewrite <- Hsent. apply update_datagrams_ext; reflexivity.
  - left. unfold ret in H. inversion H; subst. cbn.
    repeat split; congruence.
Qed.

Lemma send_any_updates_sends_all_or_nothing_at_demo_run :
  exists self w self' w',
    demo_run = Ok (self, w) /\
    RipManager.send_any_updates self w = Ok (self', w') /\
    ((outbox w' = outbox w /\
      RipManager.next_periodic_update self' = RipManager.next_periodic_update self /\
      RipManager.next_triggered_update self' = RipManager.next_triggered_update self /\
      draws w' = draws w) \/
     (exists sent,
         update_datagrams self' (RipManager.output_routers self') = Ok sent /\
         outbox w' = outbox w ++ sent /\
         RipManager.triggered_update_pending self' = false /\
         draws w' = (2 + draws w)%nat)).
Proof.
  eexists; eexists; eexists; eexists.
  split; [vm_compute; reflexivity|].
  split; [vm_compute; reflexivity|].
  refine (send_any_updates_sends_all_or_nothing _ _ _ _ _).
  vm_compute; reflexivity.
Defined.

Lemma update_datagrams_empty_table (self : RipManager.t) routers :
  routerid_is_valid (RipManager.our_routerid self) = true ->
  RipManager.routing_table self = [] ->
  Forall (fun router : Z * (Z * Z) => routerid_is_valid (fst router) = true) routers ->
  update_datagrams self routers =
  Ok (map (fun router : Z * (Z * Z) =>
             (packet_layout (RipManager.our_routerid self)
                            [ {| RipEntry.routerid := fst router;
                                 RipEntry.metric := INFINITE_METRIC |} ],
              fst (snd router)))
          routers).
Proof.
  intros Hid Ht Hr. induction Hr as [|[r [port m]] routers Hv Hr IH];
    cbn [update_datagrams map fst snd]; [reflexivity|].
  rewrite (build_packets_pack self r Hid Hv) by (rewrite Ht; constructor).
  unfold advertised_entries. rewrite Ht. cbn [flat_map pack map bind_res].
  rewrite IH. reflexivity.
Qed.

(** ** The first update of a daemon *)

Lemma send_any_updates_returns (config : Config) (self : RipManager.t) (w : World) :
  routerid_is_valid (router_id config) = true ->
  link_metrics_valid config ->
  neighbours_valid config ->
  reachable config self w ->
  exists self' w', RipManager.send_any_updates self w = Ok (self', w').
Proof.
  intros Hid Hlinks Hneigh R.
  destruct (reachable_table_fits_the_wire config self w Hid Hlinks R) as [Hour Hfits].
  destruct (reachable_fields config self w R) as [_ Houts].
  destruct (reachable_dict config self w R) as [Hno _].
  unfold RipManager.send_any_updates.
  destruct (check_entries_total (RipManager.routing_table self) []
              (RipManager.triggered_update_pending self) w) as ([[table td] p] & w1 & Hc).
  unfold bind at 1. rewrite Hc.
  destruct (check_entries_keeps_keys _ _ _ _ _ _ _ _ Hc) as (Hk & _ & sel & Htd & Hincl & Hnd & _).
  cbn [app] in Htd. subst td.
  destruct (delete_entries_ok sel table (Hnd Hno)) as [table' Hdel];
    [rewrite Hk; exact Hincl|].
  unfold bind at 1. unfold lift. rewrite Hdel.
  unfold bind at 1. unfold time at 1.
  set (self1 := RipManager.set_triggered_update_pending p
                  (RipManager.set_routing_table table' self)).
  assert (Hsend : forall w0, exists self' w',
               RipManager.send_response_messages self1 w0 = Ok (self', w')).
  { intros w0. apply send_response_messages_ok.
    - unfold routerid_is_valid in Hour. apply andb_prop in Hour.
      destruct Hour as [O1 O2]. apply Z.leb_le in O1, O2. cbn. lia.
    - cbn. eapply delete_entries_Forall; [|exact Hdel].
      eapply check_entries_fits; eauto.
    - cbn. rewrite Houts. apply Forall_forall. intros [router [port m]] Hin.
      specialize (Hneigh _ _ _ Hin). unfold routerid_is_valid in Hneigh.
      apply andb_prop in Hneigh. destruct Hneigh as [N1 N2]. apply Z.leb_le in N1, N2.
      cbn. lia. }
  destruct (RipManager.triggered_update_pending self1).
  - unfold bind at 1. unfold bind at 1. unfold time at 1. unfold ret at 1.
    destruct (_ || _); [apply Hsend | eexists; eexists; reflexivity].
  - unfold bind at 1. unfold ret at 1.
    destruct (_ || _); [apply Hsend | eexists; eexists; reflexivity].
Qed.

Lemma incoming_message_grows self message w self' w' :
  RipManager.incoming_message self message w = Ok (self', w') -> grows self self'.
Proof.
  intros H. unfold RipManager.incoming_message in H.
  destruct (RipPacket_init_cases message) as [(pkt & E & _) | (a & E & _)]; rewrite E in H;
    [|unfold ret in H; inversion H; subst; apply grows_refl].
  destruct (dict_get (RipPacket.routerid pkt) (RipManager.output_routers self))
    as [[port link]|]; [|unfold ret in H; inversion H; subst; apply grows_refl].
  apply bind_Ok in H. destruct H as (s1 & w1 & H1 & H2).
  destruct (add_to_table_grows self (RipPacket.routerid pkt) (RipPacket.routerid pkt) link w)
    as (s1' & w1' & E1 & G1).
  rewrite E1 in H1. inversion H1; subst.
  destruct (add_entries_to_table_grows (RipPacket.routerid pkt) link
              (RipPacket.entries pkt) s1 w1) as (s2 & w2 & E2 & G2).
  rewrite E2 in H2. inversion H2; subst. exact (grows_trans _ _ _ G1 G2).
Qed.

Lemma starting_inv config t0 self w :
  starting config t0 self w ->
  reachable config self w /\
  RipManager.next_periodic_update self = t0 /\
  RipManager.triggered_update_pending self = false.
Proof.
  induction 1 as [w self w' Hinit Ht0 | self w _ IH | self w message self' w' _ IH Hmsg].
  - split; [eapply reach_init; exact Hinit|].
    unfold RipManager.init, bind, time, ret in Hinit. inversion Hinit; subst.
    split; reflexivity.
  - destruct IH as (R & H1 & H2). split; [apply reach_tick, R | split; assumption].
  - destruct IH as (R & H1 & H2).
    split; [eapply reach_incoming_message; eassumption|].
    destruct (incoming_message_grows _ _ _ _ _ Hmsg) as (_ & _ & G1 & G2 & _).
    split; congruence.
Qed.

(** The first loop of [send_any_updates] reads the clock at most twice for
    each entry. *)
Lemma check_entries_clock items : forall to_delete pending w r w',
  RipManager.check_entries items to_delete pending w = Ok (r, w') ->
  clock w' = clock w /\ (ticks w <= ticks w' <= ticks w + 2 * length items)%nat.
Proof.
  induction items as [|[d e] items IH]; cbn [RipManager.check_entries length];
    intros to_delete pending w r w' H.
  - unfold ret in H. inversion H; subst. split; [reflexivity | lia].
  - assert (Hsd : forall w0 b w1, should_delete e w0 = Ok (b, w1) ->
               clock w1 = clock w0 /\
               ((time_deletion_due e = None /\ b = false /\ ticks w1 = ticks w0) \/
                (time_deletion_due e <> None /\ ticks w1 = S (ticks w0)))).
    { intros w0 b w1. unfold should_delete, bind, time, ret.
      destruct (time_deletion_due e); intros X; inversion X; subst;
        (split; [reflexivity|]); [right | left]; auto. split; [discriminate | reflexivity]. }
    assert (Hsb : forall w0 b w1,
               should_begin_deletion e w0 = Ok (b, w1) ->
               clock w1 = clock w0 /\
               (ticks w0 <= ticks w1 <= S (ticks w0))%nat /\
               (time_deletion_due e <> None -> b = false /\ ticks w1 = ticks w0)).
    { intros w0 b w1. unfold should_begin_deletion, deletion_process_underway, bind, time, ret.
      destruct (time_deletion_due e); cbn [negb];
        [|destruct (_ <=? _)]; intros X; inversion X; subst; cbn;
          (split; [reflexivity|]); (split; [lia|]); auto; intros C; contradiction. }
    assert (Hbd : forall w0 e' w1, begin_deletion e w0 = Ok (e', w1) ->
               clock w1 = clock w0 /\ ticks w1 = S (ticks w0)).
    { intros w0 e' w1. unfold begin_deletion, bind, lift, assert, time, ret.
      destruct (negb _); intros X; inversion X; subst; split; reflexivity. }
    apply bind_Ok in H. destruct H as (delete & w1 & H1 & H).
    apply Hsd in H1. destruct H1 as [C1 T1]. destruct delete.
    + apply bind_Ok in H. destruct H as (r1 & w2 & Hrec & H).
      destruct r1 as [[i1 t1] p1]. unfold ret in H. inversion H; subst.
      destruct (IH _ _ _ _ _ Hrec) as [C2 T2].
      split; [congruence|]. destruct T1 as [(_ & _ & T1)|(_ & T1)]; lia.
    + apply bind_Ok in H. destruct H as (begin & w2 & H2 & H).
      apply Hsb in H2. destruct H2 as (C2 & T2 & N2). destruct begin.
      * apply bind_Ok in H. destruct H as (e' & w3 & H3 & H). apply Hbd in H3.
        destruct H3 as [C3 T3].
        apply bind_Ok in H. destruct H as (r1 & w4 & Hrec & H).
        destruct r1 as [[i1 t1] p1]. unfold ret in H. inversion H; subst.
        destruct (IH _ _ _ _ _ Hrec) as [C4 T4].
        split; [congruence|].
        destruct T1 as [(_ & _ & T1)|(Hsome & T1)]; [lia|].
        destruct (N2 Hsome) as [Hb _]. discriminate Hb.
      * apply bind_Ok in H. destruct H as (r1 & w3 & Hrec & H).
        destruct r1 as [[i1 t1] p1]. unfold ret in H. inversion H; subst.
        destruct (IH _ _ _ _ _ Hrec) as [C3 T3].
        split; [congruence|].
        destruct T1 as [(_ & _ & T1)|(Hsome & T1)]; [lia|].
        destruct (N2 Hsome) as [_ T2']. lia.
Qed.

Lemma clock_bound_by_forallb (t0 : float) (w : World) (n : nat) :
  forallb (fun k => (t0 <=? clock w k)%float) (seq (ticks w) (S n)) = true ->
  forall k, (ticks w <= k <= ticks w + n)%nat -> (t0 <=? clock w k)%float = true.
Proof.
  intros H k Hk. rewrite forallb_forall in H. apply H. apply in_seq. lia.
Qed.

(** X21. A daemon sends its first update at once.  In a run on a validated
    configuration, take the state the manager is in when [send_any_updates]
    is called for the first time -- after its construction, any readings of
    the clock and any datagrams handled -- and let the clock not read
    earlier during the call than it did at construction.  Then the call
    sends exactly one complete update, built from the table it leaves.  If
    no route was learned before, that update is one 24-byte packet for each
    configured neighbour, in the order of [outputs] and to its port, that
    holds the header and the single entry (neighbour, 16), and the table is
    still empty. *)
Theorem first_update_announces_the_router
        (config : Config) (t0 : float) (self : RipManager.t) (w : World) :
  routerid_is_valid (router_id config) = true ->
  link_metrics_valid config ->
  neighbours_valid config ->
  starting config t0 self w ->
  (forall k, (ticks w <= k <= ticks w + 2 * length (RipManager.routing_table self))%nat ->
             (t0 <=? clock w k)%float = true) ->
  exists self' w' sent,
    RipManager.send_any_updates self w = Ok (self', w') /\
    update_datagrams self' (outputs config) = Ok sent /\
    outbox w' = outbox w ++ sent /\
    (RipManager.routing_table self = [] ->
     sent = map (fun router : Z * (Z * Z) =>
                   (packet_layout (router_id config)
                                  [ {| RipEntry.routerid := fst router;
                                       RipEntry.metric := INFINITE_METRIC |} ],
                    fst (snd router)))
                (outputs config) /\
     Forall (fun datagram : list byte * Z => len (fst datagram) = 24) sent /\
     RipManager.routing_table self' = []).
Proof.
  intros Hid Hlinks Hneigh Hstart Hclock.
  destruct (starting_inv _ _ _ _ Hstart) as (R & Hnpu & Hpend).
  destruct (reachable_fields config self w R) as [Hme Houts].
  destruct (send_any_updates_returns config self w Hid Hlinks Hneigh R) as (self' & w' & Hrun).
  exists self', w'.
  pose proof Hrun as H. unfold RipManager.send_any_updates in H.
  apply bind_Ok in H. destruct H as ([[table to_delete] pending] & w1 & Hcheck & H).
  apply bind_Ok in H. destruct H as (table' & w2 & Hdel & H).
  apply lift_Ok in Hdel. destruct Hdel as [Hdel <-].
  apply bind_Ok in H. destruct H as (now & w3 & Hnow & H).
  apply bind_Ok in H. destruct H as (triggered & w4 & Htrig & H).
  pose proof (check_entries_outbox _ _ _ _ _ _ Hcheck) as Ho1.
  destruct (check_entries_clock _ _ _ _ _ _ Hcheck) as [Hc1 Ht1].
  assert (Hdue : (RipManager.next_periodic_update self <=? now)%float = true).
  { unfold time in Hnow. inversion Hnow; subst. rewrite Hc1. apply Hclock. exact Ht1. }
  assert (Ho3 : outbox w3 = outbox w1)
    by (unfold time in Hnow; inversion Hnow; subst; reflexivity).
  assert (Ho4 : outbox w4 = outbox w3).
  { cbn [RipManager.triggered_update_pending RipManager.set_triggered_update_pending] in Htrig.
    destruct pending; unfold bind, time, ret in Htrig; inversion Htrig; subst; reflexivity. }
  cbn [RipManager.next_periodic_update RipManager.set_triggered_update_pending
       RipManager.set_routing_table] in H.
  rewrite Hdue in H. cbn [orb] in H.
  unfold RipManager.send_response_messages in H.
  apply bind_Ok in H. destruct H as (u & w5 & Hs & H).
  destruct (send_to_routers_outbox _ _ _ _ _ Hs) as (sent & Hsent & Ho & _).
  cbn [RipManager.output_routers RipManager.set_triggered_update_pending
       RipManager.set_routing_table] in Hsent.
  rewrite Houts in Hsent.
  unfold bind, time, uniform, ret, tick in H. inversion H; subst self' w'. clear H.
  exists sent. split; [exact Hrun|].
  assert (Hupd : update_datagrams
                   (RipManager.set_next_triggered_update
                      (clock w5 (S (ticks w5)) +
                       (TRIGGERED_UPDATE_DELAY / 5 +
                        (TRIGGERED_UPDATE_DELAY - TRIGGERED_UPDATE_DELAY / 5) *
                        rng w5 (S (draws w5))))%float
                      (RipManager.set_triggered_update_pending false
                         (RipManager.set_next_periodic_update
                            (clock w5 (ticks w5) + PERIODIC_UPDATE_DELAY +
                             (- PERIODIC_UPDATE_DELAY / 6 +
                              (PERIODIC_UPDATE_DELAY / 6 - - PERIODIC_UPDATE_DELAY / 6) *
                              rng w5 (draws w5)))%float
                            (RipManager.set_triggered_update_pending pending
                               (RipManager.set_routing_table table' self)))))
                   (outputs config) = Ok sent).
  { rewrite <- Hsent. apply update_datagrams_ext; reflexivity. }
  split; [exact Hupd|].
  split; [cbn [outbox]; congruence|].
  intros Hempty. rewrite Hempty in Hcheck. cbn [RipManager.check_entries] in Hcheck.
  unfold ret in Hcheck. inversion Hcheck; subst table to_delete pending w1. clear Hcheck.
  cbn [RipManager.delete_entries] in Hdel. inversion Hdel; subst table'. clear Hdel.
  assert (Hvalid : Forall (fun router : Z * (Z * Z) => routerid_is_valid (fst router) = true)
                          (outputs config)).
  { apply Forall_forall. intros [router [port m]] Hin. exact (Hneigh _ _ _ Hin). }
  rewrite update_datagrams_empty_table in Hupd;
    [|cbn; rewrite Hme; exact Hid | reflexivity | exact Hvalid].
  cbn [RipManager.our_routerid RipManager.set_next_triggered_update
       RipManager.set_triggered_update_pending RipManager.set_next_periodic_update
       RipManager.set_routing_table] in Hupd.
  rewrite Hme in Hupd. inversion Hupd as [Hs']. clear Hupd.
  split; [reflexivity|]. split; [|reflexivity].
  apply Forall_forall. intros d Hd. apply in_map_iff in Hd.
  destruct Hd as (router & <- & _). cbn [fst]. rewrite packet_layout_len. reflexivity.
Qed.

(** Router 1 has handled one datagram with 25 destinations when it is
    first asked for its updates: it sends neighbour 2 the two packets of a
    complete update. *)
Lemma first_update_announces_the_router_at_demo_run :
  exists self w,
    demo_run = Ok (self, w) /\
    exists self' w' sent,
      RipManager.send_any_updates self w = Ok (self', w') /\
      update_datagrams self' (outputs demo_config) = Ok sent /\
      outbox w' = outbox w ++ sent /\
      map (fun datagram : list byte * Z => (len (fst datagram), snd datagram)) sent
      = [(504, 3000); (44, 3000)].
Proof.
  eexists; eexists. split; [vm_compute; reflexivity|].
  match goal with
  | |- exists self' w' sent, RipManager.send_any_updates ?S ?W = _ /\ _ =>
      destruct (first_update_announces_the_router demo_config 1000%float S W)
        as (self' & w' & sent & H1 & H2 & H3 & _)
  end.
  - vm_compute; reflexivity.
  - exact demo_config_link_metrics_valid.
  - exact demo_config_neighbours_valid.
  - eapply (start_incoming_message demo_config 1000%float _ _ demo_message).
    + eapply (start_init demo_config 1000%float demo_world).
      * vm_compute; reflexivity.
      * reflexivity.
    + vm_compute; reflexivity.
  - apply clock_bound_by_forallb. vm_compute; reflexivity.
  - exists self', w', sent.
    split; [exact H1|]. split; [exact H2|]. split; [exact H3|].
    vm_compute in H1. inversion H1; subst self' w'. clear H1.
    vm_compute in H2. inversion H2; subst sent. vm_compute; reflexivity.
Defined.

(** ** Metrics in range, and the clamp *)

Lemma dict_set_In {V} k (v : V) d x y :
  In (x, y) (dict_set k v d) -> (x, y) = (k, v) \/ In (x, y) d.
Proof.
  induction d as [|[k' v'] d IH]; cbn.
  - intros [H|[]]. left. symmetry. exact H.
  - destruct (k' =? k) eqn:E.
    + apply Z.eqb_eq in E. subst. intros [H|H]; [left; symmetry; exact H | right; right; exact H].
    + intros [H|H]; [right; left; exact H|].
      destruct (IH H) as [H1|H1]; [left; exact H1 | right; right; exact H1].
Qed.

Lemma update_entry_route e nh m w r e' w' :
  update_entry e nh m w = Ok (r, e', w') ->
  (next_hop e' = next_hop e /\ metric e' = metric e) \/
  (next_hop e' = nh /\ metric e' = m).
Proof.
  intros H. destruct e as [nh0 m0 tud tdd]. cbn [next_hop metric].
  split_update H; auto.
Qed.

(** What one [add_to_table] does to the routes of the table: each next-hop
    and metric is as before, or is the one offered for [destination]. *)
Lemma add_to_table_offer self destination nh m w self' w' :
  RipManager.add_to_table self destination nh m w = Ok (self', w') ->
  forall d e',
    In (d, e') (RipManager.routing_table self') ->
    (exists e, In (d, e) (RipManager.routing_table self) /\
               next_hop e' = next_hop e /\ metric e' = metric e) \/
    (d = destination /\ next_hop e' = nh /\ metric e' = m).
Proof.
  unfold RipManager.add_to_table. intros H d e' Hin.
  destruct (destination =? RipManager.our_routerid self).
  { unfold ret in H. inversion H; subst. left. exists e'. auto. }
  destruct (dict_get destination (RipManager.routing_table self)) as [entry|] eqn:G.
  - apply bind_Ok in H. destruct H as ([reason entry'] & w1 & Hu & H).
    unfold ret in H. inversion H; subst.
    cbn [RipManager.routing_table RipManager.set_routing_table] in Hin.
    apply dict_set_In in Hin. destruct Hin as [Heq|Hin]; [|left; exists e'; auto].
    inversion Heq; subst.
    destruct (update_entry_route _ _ _ _ _ _ _ Hu) as [[H1 H2]|[H1 H2]].
    + left. exists entry. split; [apply dict_get_In, G | auto].
    + right. auto.
  - destruct (m <? INFINITE_METRIC).
    + apply bind_Ok in H. destruct H as (entry & w1 & Hi & H).
      unfold ret in H. inversion H; subst.
      cbn [RipManager.routing_table RipManager.set_routing_table] in Hin.
      apply dict_set_In in Hin. destruct Hin as [Heq|Hin]; [|left; exists e'; auto].
      inversion Heq; subst.
      unfold RoutingTableEntry.init, bind, time, ret in Hi. inversion Hi; subst.
      right. auto.
    + unfold ret in H. inversion H; subst. left. exists e'. auto.
Qed.

Lemma add_entries_to_table_offers nh link entries : forall self w self' w',
  RipManager.add_entries_to_table self nh link entries w = Ok (self', w') ->
  forall d e',
    In (d, e') (RipManager.routing_table self') ->
    (exists e, In (d, e) (RipManager.routing_table self) /\
               next_hop e' = next_hop e /\ metric e' = metric e) \/
    (next_hop e' = nh /\
     exists a, In {| RipEntry.routerid := d; RipEntry.metric := a |} entries /\
               metric e' = Z.min (link + a) INFINITE_METRIC).
Proof.
  induction entries as [|[d0 a0] entries IH]; intros self w self' w' H d e' Hin;
    cbn [RipManager.add_entries_to_table] in H.
  - unfold ret in H. inversion H; subst. left. exists e'. auto.
  - apply bind_Ok in H. destruct H as (s1 & w1 & H1 & H).
    cbn [RipEntry.routerid RipEntry.metric] in H1.
    destruct (IH _ _ _ _ H d e' Hin) as [(e1 & Hin1 & Hn1 & Hm1)|(Hn & a & Ha & Hm)].
    + destruct (add_to_table_offer _ _ _ _ _ _ _ H1 d e1 Hin1)
        as [(e & Hin0 & Hn0 & Hm0)|(Hd & Hn0 & Hm0)].
      * left. exists e. split; [exact Hin0 | split; congruence].
      * right. split; [congruence|]. exists a0. subst d.
        split; [left; reflexivity | congruence].
    + right. split; [exact Hn|]. exists a. split; [right; exact Ha | exact Hm].
Qed.

Lemma add_to_table_learns self destination nh m w self' w' :
  RipManager.add_to_table self destination nh m w = Ok (self', w') ->
  destination <> RipManager.our_routerid self ->
  m < INFINITE_METRIC ->
  In destination (keys (RipManager.routing_table self')).
Proof.
  unfold RipManager.add_to_table. intros H Hne Hlt.
  destruct (destination =? RipManager.our_routerid self) eqn:E;
    [apply Z.eqb_eq in E; contradiction|].
  destruct (dict_get destination (RipManager.routing_table self)) as [entry|] eqn:G.
  - apply bind_Ok in H. destruct H as ([reason entry'] & w1 & _ & H).
    unfold ret in H. inversion H; subst.
    cbn [RipManager.routing_table RipManager.set_routing_table].
    rewrite (keys_dict_set_present _ _ _ _ G).
    apply dict_get_In in G. unfold keys. apply (in_map fst) in G. exact G.
  - apply Z.ltb_lt in Hlt. rewrite Hlt in H.
    apply bind_Ok in H. destruct H as (entry & w1 & _ & H).
    unfold ret in H. inversion H; subst.
    cbn [RipManager.routing_table RipManager.set_routing_table].
    rewrite (dict_set_new _ _ _ G). unfold keys. rewrite map_app.
    apply in_or_app. right. left. reflexivity.
Qed.

Lemma add_entries_to_table_learns nh link entries : forall self w self' w',
  RipManager.add_entries_to_table self nh link entries w = Ok (self', w') ->
  forall d a,
    In {| RipEntry.routerid := d; RipEntry.metric := a |} entries ->
    d <> RipManager.our_routerid self ->
    link + a < INFINITE_METRIC ->
    In d (keys (RipManager.routing_table self')).
Proof.
  induction entries as [|e0 entries IH]; intros self w self' w' H d a Hin Hne Hlt;
    [destruct Hin|].
  cbn [RipManager.add_entries_to_table] in H.
  apply bind_Ok in H. destruct H as (s1 & w1 & H1 & H).
  destruct (add_to_table_grows self (RipEntry.routerid e0) nh
              (Z.min (link + RipEntry.metric e0) INFINITE_METRIC) w)
    as (s1' & w1' & E1 & (Hour & _)).
  rewrite E1 in H1. inversion H1; subst s1' w1'. clear H1.
  destruct Hin as [Heq|Hin].
  - subst e0. cbn [RipEntry.routerid RipEntry.metric] in E1.
    assert (Hd : In d (keys (RipManager.routing_table s1))).
    { apply (add_to_table_learns _ _ _ _ _ _ _ E1 Hne). unfold INFINITE_METRIC in *. lia. }
    destruct (add_entries_to_table_grows nh link entries s1 w1)
      as (s2 & w2 & E2 & (_ & _ & _ & _ & _ & added & Hkeys)).
    rewrite E2 in H. inversion H; subst.
    rewrite Hkeys. apply in_or_app. left. exact Hd.
  - apply (IH _ _ _ _ H d a Hin); [rewrite Hour; exact Hne | exact Hlt].
Qed.

(** What [incoming_message] does with an accepted datagram: the sender is
    offered at the link metric and every advertised destination at
    [min(link_metric + advertised_metric, 16)]. *)
Lemma incoming_message_clamps self message w pkt port link self' w' :
  RipPacket.init message = Ok pkt ->
  dict_get (RipPacket.routerid pkt) (RipManager.output_routers self) = Some (port, link) ->
  RipManager.incoming_message self message w = Ok (self', w') ->
  (forall d e',
      In (d, e') (RipManager.routing_table self') ->
      (exists e, In (d, e) (RipManager.routing_table self) /\
                 next_hop e' = next_hop e /\ metric e' = metric e) \/
      (next_hop e' = RipPacket.routerid pkt /\
       (d = RipPacket.routerid pkt /\ metric e' = link \/
        exists a, In {| RipEntry.routerid := d; RipEntry.metric := a |} (RipPacket.entries pkt) /\
                  metric e' = Z.min (link + a) INFINITE_METRIC))) /\
  (forall d a,
      In {| RipEntry.routerid := d; RipEntry.metric := a |} (RipPacket.entries pkt) ->
      d <> RipManager.our_routerid self ->
      link + a < INFINITE_METRIC ->
      In d (keys (RipManager.routing_table self'))).
Proof.
  intros Hpkt Hout H. unfold RipManager.incoming_message in H.
  rewrite Hpkt, Hout in H.
  apply bind_Ok in H. destruct H as (s1 & w1 & H1 & H2).
  split.
  - intros d e' Hin.
    destruct (add_entries_to_table_offers _ _ _ _ _ _ _ H2 d e' Hin)
      as [(e1 & Hin1 & Hn1 & Hm1)|(Hn & a & Ha & Hm)].
    + destruct (add_to_table_offer _ _ _ _ _ _ _ H1 d e1 Hin1)
        as [(e & Hin0 & Hn0 & Hm0)|(Hd & Hn0 & Hm0)].
      * left. exists e. split; [exact Hin0 | split; congruence].
      * right. split; [congruence|]. left. split; [exact Hd | congruence].
    + right. split; [exact Hn|]. right. exists a. split; assumption.
  - intros d a Hin Hne Hlt.
    destruct (add_to_table_grows self (RipPacket.routerid pkt) (RipPacket.routerid pkt) link w)
      as (s1' & w1' & E1 & (Hour & _)).
    rewrite E1 in H1. inversion H1; subst s1' w1'.
    apply (add_entries_to_table_learns _ _ _ _ _ _ _ H2 d a Hin);
      [rewrite Hour; exact Hne | exact Hlt].
Qed.

(** C8. With link metrics in [1, 16] in the configuration, every entry of
    the routing table has a metric between 1 and 16 in every state the
    manager reaches.  When [incoming_message] accepts a datagram in such a
    state, every route of the table afterwards has its next-hop and metric
    as before, or has the sender as next-hop and as metric the link metric
    (for the sender itself) or [min(link_metric + advertised_metric, 16)]
    for an entry of the datagram that advertises the destination; and a
    destination other than the router itself that is advertised with
    [link_metric + advertised_metric] below 16 is in the table afterwards.
    [begin_deletion] leaves the metric at exactly 16. *)
Theorem routing_table_metrics_in_range (config : Config) (self : RipManager.t) (w : World) :
  link_metrics_valid config ->
  reachable config self w ->
  table_all (fun _ e => 1 <= metric e <= 16) (RipManager.routing_table self) /\
  (forall message pkt port link self' w',
      RipPacket.init message = Ok pkt ->
      dict_get (RipPacket.routerid pkt) (RipManager.output_routers self) = Some (port, link) ->
      RipManager.incoming_message self message w = Ok (self', w') ->
      (forall d e',
          In (d, e') (RipManager.routing_table self') ->
          (exists e, In (d, e) (RipManager.routing_table self) /\
                     next_hop e' = next_hop e /\ metric e' = metric e) \/
          (next_hop e' = RipPacket.routerid pkt /\
           (d = RipPacket.routerid pkt /\ metric e' = link \/
            exists a,
              In {| RipEntry.routerid := d; RipEntry.metric := a |} (RipPacket.entries pkt) /\
              metric e' = Z.min (link + a) INFINITE_METRIC))) /\
      (forall d a,
          In {| RipEntry.routerid := d; RipEntry.metric := a |} (RipPacket.entries pkt) ->
          d <> RipManager.our_routerid self ->
          link + a < INFINITE_METRIC ->
          In d (keys (RipManager.routing_table self'))) /\
      table_all (fun _ e => 1 <= metric e <= 16) (RipManager.routing_table self')) /\
  (forall e w0 e' w1, begin_deletion e w0 = Ok (e', w1) -> metric e' = 16).
Proof.
  intros Hcfg R.
  assert (Hrange : forall s w0, reachable config s w0 ->
                     table_all (fun _ e => 1 <= metric e <= 16) (RipManager.routing_table s)).
  { intros s w0 R0. pose proof (reachable_entry_inv config s w0 Hcfg R0) as H.
    unfold table_all in *. eapply Forall_impl; [|exact H].
    intros [d e] [Hr _]. exact Hr. }
  split; [|split].
  - exact (Hrange _ _ R).
  - intros message pkt port link self' w' Hpkt Hout H.
    destruct (incoming_message_clamps _ _ _ _ _ _ _ _ Hpkt Hout H) as [H1 H2].
    split; [exact H1|]. split; [exact H2|].
    apply (Hrange self' w'). eapply reach_incoming_message; eauto.
  - intros e w0 e' w1 H. unfold begin_deletion in H. inv_M. reflexivity.
Qed.

Lemma demo_learn_run_reaches : reaches demo_config demo_learn_run.
Proof.
  unfold demo_learn_run.
  apply reaches_bind; [apply reaches_init|].
  intros self w R. apply reaches_incoming_message, R.
Qed.

(** Router 1 holds the routes to 2 (metric 1) and to 5 (metric 4), both
    through 2, over a link of metric 1.  Router 2 then advertises 5 at
    metric 16 and 8 at metric 3: the route to 5 goes to
    [min(1 + 16, 16) = 16] and the route to 8 is learned at
    [min(1 + 3, 16) = 4]. *)
Lemma routing_table_metrics_in_range_at_demo_learn_run :
  exists self w self' w',
    demo_learn_run = Ok (self, w) /\
    RipManager.incoming_message self demo_clamp_message w = Ok (self', w') /\
    map (fun item => (fst item, metric (snd item))) (RipManager.routing_table self)
    = [(2, 1); (5, 4)] /\
    map (fun item => (fst item, metric (snd item))) (RipManager.routing_table self')
    = [(2, 1); (5, 16); (8, 4)] /\
    table_all (fun _ e => 1 <= metric e <= 16) (RipManager.routing_table self) /\
    (forall d e',
        In (d, e') (RipManager.routing_table self') ->
        (exists e, In (d, e) (RipManager.routing_table self) /\
                   next_hop e' = next_hop e /\ metric e' = metric e) \/
        (next_hop e' = 2 /\
         (d = 2 /\ metric e' = 1 \/
          exists a,
            In {| RipEntry.routerid := d; RipEntry.metric := a |}
               [ {| RipEntry.routerid := 5; RipEntry.metric := 16 |};
                 {| RipEntry.routerid := 8; RipEntry.metric := 3 |} ] /\
            metric e' = Z.min (1 + a) INFINITE_METRIC))) /\
    (forall d a,
        In {| RipEntry.routerid := d; RipEntry.metric := a |}
           [ {| RipEntry.routerid := 5; RipEntry.metric := 16 |};
             {| RipEntry.routerid := 8; RipEntry.metric := 3 |} ] ->
        d <> 1 ->
        1 + a < INFINITE_METRIC ->
        In d (keys (RipManager.routing_table self'))) /\
    table_all (fun _ e => 1 <= metric e <= 16) (RipManager.routing_table self').
Proof.
  eexists; eexists; eexists; eexists.
  split; [vm_compute; reflexivity|].
  match goal with
  | |- RipManager.incoming_message ?S _ ?W = _ /\ _ =>
      destruct (routing_table_metrics_in_range demo_config S W) as (H1 & H2 & _)
  end.
  - exact demo_config_link_metrics_valid.
  - apply (reaches_Ok _ _ _ _ demo_learn_run_reaches). vm_compute; reflexivity.
  - split; [vm_compute; reflexivity|].
    split; [vm_compute; reflexivity|].
    split; [vm_compute; reflexivity|].
    split; [exact H1|].
    refine (H2 demo_clamp_message
               {| RipPacket.routerid := 2;
                  RipPacket.entries :=
                    [ {| RipEntry.routerid := 5; RipEntry.metric := 16 |};
                      {| RipEntry.routerid := 8; RipEntry.metric := 3 |} ] |}
               3000 1 _ _ _ _ _).
    + vm_compute; reflexivity.
    + vm_compute; reflexivity.
    + vm_compute; reflexivity.
Defined.
